(** * audioM: a chainable, copy-on-write wrapper around the Web Audio API

    Shallow embedding of [lib/audioMonad.js]: Crockford's [MONAD] macroid,
    the [audioMonad] unit constructor built from it and the twelve
    operations registered on its prototype.

    Modelling conventions.
    - JavaScript values are the type [val]; objects live in a heap
      ([gmap loc object]) and are referred to by location, so that object
      identity, aliasing and in-place mutation are what they are in the
      source.
    - An object has a [kind] (plain object, audio node, wrapper, ...) and a
      finite map of own enumerable data properties.  Built-in methods the
      source calls ([hasOwnProperty], [split], [connect], [setPosition], ...)
      are resolved from the kind of the receiver; members inherited from
      [Object.prototype] are not values of the model, so identifiers are
      taken not to be names of such members.
    - Code runs in the monad [M]: a state monad over [world] with a
      [TypeError] outcome.  The world also holds the log of calls made on
      the audio context and the decode callbacks that are still pending.
    - The audio engine is opaque: a call on it is recorded as an [event];
      arguments are recorded as they are passed.
    - Numbers are integers ([Z]); the source does no arithmetic on the
      coordinates, volumes and angles it forwards.
    - [for (k in o)] visits the own keys of [o] in the order of
      [map_to_list]; nothing below depends on that order. *)

From stdpp Require Import base gmap strings list fin_maps pretty.
From Stdlib Require Import ZArith Ascii String.

Local Open Scope Z_scope.

(** ** Values, objects, worlds *)

Definition loc := positive.

Inductive val :=
  | VUndef
  | VNull
  | VBool (b : bool)
  | VNum (n : Z)
  | VStr (s : string)
  | VObj (l : loc).

(** How the [bind] of a wrapper is implemented: the default one delivers
    the wrapped value; the one installed by the modifier returns the
    wrapper itself. *)
Inductive bind_impl :=
  | BindValue (value : val)
  | BindSelf.

Inductive kind :=
  | KPlain
  | KGain
  | KParam
  | KSource
  | KPanner
  | KBuffer
  | KMonad (b : bind_impl).

Record object := Obj { okind : kind; props : gmap string val }.

Inductive sink :=
  | Destination
  | Node (v : val).

(** A decode job holds what the two callbacks of [decodeAudioData] close
    over: the variable [audioBuffers] and the identifier. *)
Record job := Job { job_bytes : list Z; cb_table : val; cb_id : val }.

Inductive event :=
  | ECreateGain (g : val)
  | ECreateBufferSource (s : val)
  | ECreatePanner (p : val)
  | EConnect (src : val) (dst : sink)
  | EStart (s : val) (when : Z)
  | ESetPosition (p x y z : val)
  | ESetOrientation (p x y z : val)
  | EListenerSetPosition (x y z : val)
  | EDecodeAudioData (j : job)
  | ELog (msg : string) (id : val).

Record world := World {
  heap : gmap loc object;
  trace : list event;
  decodes : list job;
  audioContext : bool
}.

Definition upd_heap (f : gmap loc object → gmap loc object) (w : world) : world :=
  World (f (heap w)) (trace w) (decodes w) (audioContext w).

Definition upd_trace (f : list event → list event) (w : world) : world :=
  World (heap w) (f (trace w)) (decodes w) (audioContext w).

Definition upd_decodes (f : list job → list job) (w : world) : world :=
  World (heap w) (trace w) (f (decodes w)) (audioContext w).

(** ** The monad of effects *)

Inductive error := TypeError.

Inductive res (A : Type) :=
  | Ok (a : A)
  | Throw (e : error).
Arguments Ok {A} a.
Arguments Throw {A} e.

Definition M (A : Type) : Type := world → res A * world.

#[global] Instance M_ret : MRet M := λ A a w, (Ok a, w).

#[global] Instance M_bind : MBind M := λ A B f m w,
  match m w with
  | (Ok a, w') => f a w'
  | (Throw e, w') => (Throw e, w')
  end.

Definition throw {A} (e : error) : M A := λ w, (Throw e, w).

Fixpoint for_each {A} (l : list A) (body : A → M unit) : M unit :=
  match l with
  | [] => mret tt
  | x :: l' => body x ;; for_each l' body
  end.

(** ** JavaScript primitives *)

Definition truthy (v : val) : bool :=
  match v with
  | VUndef | VNull => false
  | VBool b => b
  | VNum n => negb (Z.eqb n 0)
  | VStr s => negb (String.eqb s "")
  | VObj _ => true
  end.

(** [a || b] on already evaluated operands. *)
Definition or_else (a b : val) : val := if truthy a then a else b.

(** [v === 'str'] *)
Definition is_str (v : val) (s : string) : bool :=
  match v with
  | VStr s' => String.eqb s' s
  | _ => false
  end.

(** Property keys are strings; [o[v]] converts [v]. *)
Definition to_key (v : val) : string :=
  match v with
  | VUndef => "undefined"
  | VNull => "null"
  | VBool true => "true"
  | VBool false => "false"
  | VNum n => pretty n
  | VStr s => s
  | VObj _ => "[object Object]"
  end.

Fixpoint chars_from (i : nat) (s : string) : list (string * val) :=
  match s with
  | EmptyString => []
  | String c s' => (pretty i, VStr (String c EmptyString)) :: chars_from (S i) s'
  end.

(** The own enumerable properties of a value: those of the object it
    refers to; the indexed characters of a string; none otherwise. *)
Definition own_enum (h : gmap loc object) (v : val) : gmap string val :=
  match v with
  | VObj l => from_option props ∅ (h !! l)
  | VStr s => list_to_map (chars_from 0 s)
  | _ => ∅
  end.

(** The value of [v[k]] when [v] is neither [undefined] nor [null]. *)
Definition prop_of (h : gmap loc object) (v : val) (k : string) : val :=
  match own_enum h v !! k with
  | Some x => x
  | None =>
      match v with
      | VStr s =>
          if String.eqb k "length" then VNum (Z.of_nat (String.length s))
          else VUndef
      | _ => VUndef
      end
  end.

Definition get_prop (v : val) (k : string) : M val := λ w,
  match v with
  | VUndef | VNull => (Throw TypeError, w)
  | _ => (Ok (prop_of (heap w) v k), w)
  end.

Definition set_own (k : string) (x : val) (o : object) : object :=
  Obj (okind o) (<[k := x]> (props o)).

Definition delete_own (k : string) (o : object) : object :=
  Obj (okind o) (delete k (props o)).

(** [v[k] = x]: a [TypeError] on [undefined] and [null], silently nothing
    on the other primitives (the code is not in strict mode). *)
Definition set_prop (v : val) (k : string) (x : val) : M unit := λ w,
  match v with
  | VUndef | VNull => (Throw TypeError, w)
  | VObj l => (Ok tt, upd_heap (alter (set_own k x) l) w)
  | _ => (Ok tt, w)
  end.

(** [delete v[k]] *)
Definition delete_prop (v : val) (k : string) : M unit := λ w,
  match v with
  | VUndef | VNull => (Throw TypeError, w)
  | VObj l => (Ok tt, upd_heap (alter (delete_own k) l) w)
  | _ => (Ok tt, w)
  end.

Definition fresh_loc (w : world) : loc := fresh (dom (heap w)).

Definition new_object (k : kind) (p : gmap string val) : M val := λ w,
  (Ok (VObj (fresh_loc w)), upd_heap (<[fresh_loc w := Obj k p]>) w).

Definition emit (e : event) : M unit := λ w,
  (Ok tt, upd_trace (λ t, t ++ [e]) w).

(** [v.hasOwnProperty(k)] *)
Definition hasOwnProperty (v : val) (k : string) : M bool := λ w,
  match v with
  | VUndef | VNull => (Throw TypeError, w)
  | _ => (Ok (bool_decide (is_Some (own_enum (heap w) v !! k))), w)
  end.

(** [for (k in v) body]: no iteration at all on [undefined] and [null]. *)
Definition for_in (v : val) (body : string → M unit) : M unit := λ w,
  for_each (map_to_list (own_enum (heap w) v)).*1 body w.

Definition kind_of (h : gmap loc object) (v : val) : option kind :=
  match v with
  | VObj l => okind <$> h !! l
  | _ => None
  end.

Definition is_node (h : gmap loc object) (v : val) : bool :=
  match kind_of h v with
  | Some KGain | Some KSource | Some KPanner => true
  | _ => false
  end.

(** [a && b]: [b] is evaluated only when [a] is truthy. *)
Definition js_and (a b : M val) : M val :=
  x ← a; if truthy x then b else mret x.

(** The [i]-th actual argument of a call, [undefined] when missing. *)
Definition arg (i : nat) (args : list val) : val := default VUndef (args !! i).

(** ** The audio context *)

(** Any use of [audioContext] when there is none dereferences
    [undefined]. *)
Definition context : M unit := λ w,
  if audioContext w then (Ok tt, w) else (Throw TypeError, w).

(** [audioContext.createGain()]: a gain node with its [gain] parameter. *)
Definition context_createGain : M val :=
  context ;;
  param ← new_object KParam {[ "value" := VNum 1 ]};
  gain ← new_object KGain {[ "gain" := param ]};
  emit (ECreateGain gain) ;;
  mret gain.

Definition context_createBufferSource : M val :=
  context ;;
  source ← new_object KSource ∅;
  emit (ECreateBufferSource source) ;;
  mret source.

Definition context_createPanner : M val :=
  context ;;
  panner ← new_object KPanner ∅;
  emit (ECreatePanner panner) ;;
  mret panner.

(** [src.connect(dst)]: only audio nodes have the method. *)
Definition connect (src : val) (dst : sink) : M unit := λ w,
  if is_node (heap w) src then emit (EConnect src dst) w else (Throw TypeError, w).

(** [s.start(when)] *)
Definition start (s : val) (when : Z) : M unit := λ w,
  match kind_of (heap w) s with
  | Some KSource => emit (EStart s when) w
  | _ => (Throw TypeError, w)
  end.

(** [p.setPosition(x, y, z)] and [p.setOrientation(x, y, z)] *)
Definition setPosition (p x y z : val) : M unit := λ w,
  match kind_of (heap w) p with
  | Some KPanner => emit (ESetPosition p x y z) w
  | _ => (Throw TypeError, w)
  end.

Definition setOrientation (p x y z : val) : M unit := λ w,
  match kind_of (heap w) p with
  | Some KPanner => emit (ESetOrientation p x y z) w
  | _ => (Throw TypeError, w)
  end.

(** [p.coneInnerAngle(a)], [p.coneOuterAngle(a)], [p.coneOuterGain(g)]: on
    a panner these are number attributes and on any other value of the
    model they are data or missing; calling them is a [TypeError]. *)
Definition call_attribute (p : val) (name : string) (a : val) : M unit :=
  throw TypeError.

(** [audioContext.listener.setPosition(x, y, z)] *)
Definition listener_setPosition (x y z : val) : M unit :=
  context ;; emit (EListenerSetPosition x y z).

(** [audioContext.decodeAudioData(buff, success, failure)]: the two
    callbacks are kept until the engine reports the outcome. *)
Definition schedule (j : job) : M unit := λ w,
  (Ok tt, upd_decodes (λ d, d ++ [j]) w).

Definition decodeAudioData (j : job) : M unit :=
  context ;;
  emit (EDecodeAudioData j) ;;
  schedule j.

(** ** base64ToArrayBuffer *)

Definition chars : string :=
  "ABCDEFGHIJKLMNOPQRSTUVWXYZabcdefghijklmnopqrstuvwxyz0123456789+/".

Fixpoint index_from (i : Z) (c : ascii) (s : string) : Z :=
  match s with
  | EmptyString => -1
  | String c' s' => if Ascii.eqb c c' then i else index_from (i + 1) c s'
  end.

(** [base64[i]]: [undefined] outside the string. *)
Definition char_at (s : string) (i : Z) : option ascii :=
  if i <? 0 then None else String.get (Z.to_nat i) s.

(** [chars.indexOf(base64[i])]; [undefined] is searched as the text
    "undefined", which is not found. *)
Definition chars_indexOf (c : option ascii) : Z :=
  match c with
  | Some a => index_from 0 a chars
  | None => -1
  end.

(** Stores into a [Uint8Array] wrap modulo 256 and are dropped outside the
    array, as with the list insertion of stdpp. *)
Definition store (p : nat) (x : Z) (bytes : list Z) : list Z :=
  <[p := x mod 256]> bytes.

Fixpoint decode_loop (fuel : nat) (base64 : string) (i : Z) (p : nat)
    (bytes : list Z) : list Z :=
  match fuel with
  | O => bytes
  | S fuel' =>
      if i <? Z.of_nat (String.length base64) then
        let encoded1 := chars_indexOf (char_at base64 i) in
        let encoded2 := chars_indexOf (char_at base64 (i + 1)) in
        let encoded3 := chars_indexOf (char_at base64 (i + 2)) in
        let encoded4 := chars_indexOf (char_at base64 (i + 3)) in
        let bytes := store p (Z.lor (Z.shiftl encoded1 2) (Z.shiftr encoded2 4)) bytes in
        let bytes := store (p + 1)
          (Z.lor (Z.shiftl (Z.land encoded2 15) 4) (Z.shiftr encoded3 2)) bytes in
        let bytes := store (p + 2)
          (Z.lor (Z.shiftl (Z.land encoded3 3) 6) (Z.land encoded4 63)) bytes in
        decode_loop fuel' base64 (i + 4) (p + 3) bytes
      else bytes
  end.

Definition is_eq_sign (c : option ascii) : bool :=
  match c with
  | Some a => Ascii.eqb a "="%char
  | None => false
  end.

(** [bufferLength] is [len * 0.75] less the padding; [new ArrayBuffer]
    truncates it towards zero. *)
Definition bufferLength (base64 : string) : nat :=
  let len := Z.of_nat (String.length base64) in
  let padding :=
    if is_eq_sign (char_at base64 (len - 1)) then
      if is_eq_sign (char_at base64 (len - 2)) then 2 else 1
    else 0 in
  Z.to_nat (Z.quot (3 * len - 4 * padding) 4).

Definition base64_bytes (base64 : string) : list Z :=
  decode_loop (String.length base64) base64 0 0 (replicate (bufferLength base64) 0).

(** Only a string, or [undefined] when the payload has no comma, reaches
    the function; on the latter [base64.length] throws. *)
Definition base64ToArrayBuffer (base64 : val) : M (list Z) :=
  match base64 with
  | VStr s => mret (base64_bytes s)
  | VUndef | VNull => throw TypeError
  | _ => mret []
  end.

(** [s.split(',')], for a string [s]. *)
Fixpoint split_comma (s : string) : list string :=
  match s with
  | EmptyString => [EmptyString]
  | String c s' =>
      if Ascii.eqb c ","%char then EmptyString :: split_comma s'
      else match split_comma s' with
           | piece :: rest => String c piece :: rest
           | [] => [String c EmptyString]
           end
  end.

(** [data.split(',')[1]]: only strings have [split]. *)
Definition split_second (data : val) : M val :=
  match data with
  | VStr s => mret (from_option VStr VUndef (split_comma s !! 1%nat))
  | _ => throw TypeError
  end.

(** ** MONAD *)

(** A function handed to [bind]: it receives the wrapped value and the
    arguments of the call. *)
Definition func := val → list val → M val.

Module MONAD.
Section unit_constructor.
Variable modifier : val → val → M ().

(** [unit(value)]: a new wrapper whose [bind] delivers [value], then the
    modifier. *)
Definition unit (value : val) : M val :=
  monad ← new_object (KMonad (BindValue value)) ∅;
  modifier monad value ;;
  mret monad.

(** [this.bind(func, args)] *)
Definition bind (this : val) (f : func) (args : list val) : M val := λ w,
  match kind_of (heap w) this with
  | Some (KMonad (BindValue value)) => f value args w
  | Some (KMonad BindSelf) => (Ok this, w)
  | _ => (Throw TypeError, w)
  end.

(** [result.is_monad === true]: wrappers inherit the flag from the
    prototype. *)
Definition is_monad (result : val) : M bool := λ w,
  match kind_of (heap w) result with
  | Some (KMonad _) => (Ok true, w)
  | _ =>
      match prop_of (heap w) result "is_monad" with
      | VBool true => (Ok true, w)
      | _ => (Ok false, w)
      end
  end.

(** The method that [unit.lift_value(name, func)] puts on the prototype. *)
Definition lift_value (f : func) (this : val) (args : list val) : M val :=
  bind this f args.

(** The method that [unit.lift(name, func)] puts on the prototype. *)
Definition lift (f : func) (this : val) (args : list val) : M val :=
  result ← bind this f args;
  (if truthy result then is_monad result else mret false) ≫= λ wrapped : bool,
  if wrapped then mret result else unit result.
End unit_constructor.
End MONAD.

(** ** audioMonad *)

(** [monad.bind = function () { return monad; }] *)
Definition replace_bind (monad : val) : M unit := λ w,
  match monad with
  | VObj l => (Ok tt, upd_heap (alter (λ o, Obj (KMonad BindSelf) (props o)) l) w)
  | _ => (Ok tt, w)
  end.

Definition audioMonad_modifier (monad value : val) : M unit := λ w,
  if negb (audioContext w) || negb (truthy value) then replace_bind monad w
  else (Ok tt, w).

Definition audioMonad : val → M val := MONAD.unit audioMonad_modifier.

Definition shallowCopy (o : val) : M val :=
  newO ← new_object KPlain ∅;
  for_in o (λ prop,
    hasOwnProperty o prop ≫= λ own : bool,
    if own then x ← get_prop o prop; set_prop newO prop x else mret tt) ;;
  mret newO.

Definition cloneData (data : val) : M val :=
  clone ← new_object KPlain ∅;
  locations ← get_prop data "locations";
  (if truthy locations then
     c ← shallowCopy locations; set_prop clone "locations" c
   else mret tt) ;;
  sources ← get_prop data "sources";
  (if truthy sources then
     c ← shallowCopy sources; set_prop clone "sources" c
   else mret tt) ;;
  masterGain ← get_prop data "masterGain";
  (if truthy masterGain then set_prop clone "masterGain" masterGain
   else mret tt) ;;
  audioBuffers ← get_prop data "audioBuffers";
  (if truthy audioBuffers then
     c ← shallowCopy audioBuffers; set_prop clone "audioBuffers" c
   else mret tt) ;;
  mret clone.

Definition setAudioBuffers : func := λ value args,
  let buffers := arg 0 args in
  newValue ← cloneData value;
  copyBuffers ← new_object KPlain ∅;
  for_in buffers (λ id,
    hasOwnProperty buffers id ≫= λ own : bool,
    if own then x ← get_prop buffers id; set_prop copyBuffers id x else mret tt) ;;
  set_prop newValue "audioBuffers" copyBuffers ;;
  mret newValue.

Definition getAudioBuffers : func := λ value args,
  audioBuffers ← new_object KPlain ∅;
  current ← get_prop value "audioBuffers";
  if truthy current then
    current ← get_prop value "audioBuffers"; shallowCopy current
  else mret audioBuffers.

Definition createGain (volume : val) : M val :=
  gain ← context_createGain;
  param ← get_prop gain "gain";
  set_prop param "value" (or_else volume (VNum 1)) ;;
  mret gain.

Definition createMasterGain (volume : val) : M val :=
  masterGain ← createGain volume;
  context ;;
  connect masterGain Destination ;;
  mret masterGain.

Definition masterGain : func := λ value args,
  let initialVolume := arg 0 args in
  newValue ← cloneData value;
  gain ← createMasterGain initialVolume;
  set_prop newValue "masterGain" gain ;;
  mret newValue.

(** [value.field[key]] *)
Definition get_entry (value : val) (field : string) (key : val) : M val :=
  table ← get_prop value field; get_prop table (to_key key).

Definition play : func := λ value args,
  let id := arg 0 args in
  let location := arg 1 args in
  buffer ← js_and (get_prop value "audioBuffers") (get_entry value "audioBuffers" id);
  if truthy buffer && negb (is_str buffer "pending") && negb (is_str buffer "failed") then
    gain ← get_prop value "masterGain";
    value ← (if negb (truthy gain) then
               value ← cloneData value;
               gain ← createMasterGain VUndef;
               set_prop value "masterGain" gain ;;
               mret value
             else mret value);
    audioSource ← context_createBufferSource;
    set_prop audioSource "buffer" buffer ;;
    located ← js_and (mret location)
                 (js_and (get_prop value "locations") (get_entry value "locations" location));
    (if truthy located then
       panner ← get_entry value "locations" location;
       connect audioSource (Node panner) ;;
       panner ← get_entry value "locations" location;
       gain ← get_prop value "masterGain";
       connect panner (Node gain)
     else
       gain ← get_prop value "masterGain";
       connect audioSource (Node gain)) ;;
    start audioSource 0 ;;
    mret value
  else mret value.

Definition removeSound : func := λ value args,
  let id := arg 0 args in
  newValue ← cloneData value;
  audioBuffers ← get_prop newValue "audioBuffers";
  (if truthy audioBuffers then
     audioBuffers ← get_prop newValue "audioBuffers";
     delete_prop audioBuffers (to_key id)
   else mret tt) ;;
  mret newValue.

(** The two callbacks handed to [decodeAudioData]. *)
Definition audioDecodedSuccess (audioBuffers id audioData : val) : M unit :=
  emit (ELog "decoded " id) ;;
  set_prop audioBuffers (to_key id) audioData.

Definition audioDecodedFailed (audioBuffers id : val) : M unit :=
  emit (ELog "failed to decode audio " id) ;;
  set_prop audioBuffers (to_key id) (VStr "failed").

Definition sounds : func := λ value args,
  let sounds := arg 0 args in
  newValue ← cloneData value;
  audioBuffers ← get_prop newValue "audioBuffers";
  audioBuffers ← (if negb (truthy audioBuffers) then new_object KPlain ∅
                  else mret audioBuffers);
  for_in sounds (λ sound,
    hasOwnProperty sounds sound ≫= λ own : bool,
    if own then
      set_prop audioBuffers sound (VStr "pending") ;;
      data ← get_prop sounds sound;
      payload ← split_second data;
      buff ← base64ToArrayBuffer payload;
      decodeAudioData (Job buff audioBuffers (VStr sound))
    else mret tt) ;;
  set_prop newValue "audioBuffers" audioBuffers ;;
  mret newValue.

Definition addSound : func := λ value args,
  let id := arg 0 args in
  let data := arg 1 args in
  newValue ← cloneData value;
  audioBuffers ← get_prop newValue "audioBuffers";
  set_prop audioBuffers (to_key id) (VStr "pending") ;;
  payload ← split_second data;
  buff ← base64ToArrayBuffer payload;
  decodeAudioData (Job buff audioBuffers id) ;;
  mret newValue.

Definition locate : func := λ value args,
  let id := arg 0 args in
  let options := arg 4 args in
  value ← cloneData value;
  let x := or_else (arg 1 args) (VNum 0) in
  let y := or_else (arg 2 args) (VNum 0) in
  let z := or_else (arg 3 args) (VNum 0) in
  locations ← get_prop value "locations";
  (if negb (truthy locations) then
     empty ← new_object KPlain ∅; set_prop value "locations" empty
   else mret tt) ;;
  panner ← get_entry value "locations" id;
  (if negb (truthy panner) then
     locations ← get_prop value "locations";
     panner ← context_createPanner;
     set_prop locations (to_key id) panner
   else mret tt) ;;
  panner ← get_entry value "locations" id;
  setPosition panner x y z ;;
  (if truthy options then
     for_in options (λ prop,
       hasOwnProperty options prop ≫= λ own : bool,
       if own then
         panner ← get_entry value "locations" id;
         x ← get_prop options prop;
         set_prop panner prop x
       else mret tt)
   else mret tt) ;;
  mret value.

Definition removeLocation : func := λ value args,
  let id := arg 0 args in
  newValue ← cloneData value;
  locations ← get_prop newValue "locations";
  (if truthy locations then
     locations ← get_prop newValue "locations";
     delete_prop locations (to_key id)
   else mret tt) ;;
  mret newValue.

Definition listenAt : func := λ value args,
  let x := or_else (arg 0 args) (VNum 0) in
  let y := or_else (arg 1 args) (VNum 0) in
  let z := or_else (arg 2 args) (VNum 0) in
  listener_setPosition x y z ;;
  mret value.

Definition orient : func := λ value args,
  let id := arg 0 args in
  let x := or_else (arg 1 args) (VNum 0) in
  let y := or_else (arg 2 args) (VNum 0) in
  let z := or_else (arg 3 args) (VNum 0) in
  found ← js_and (get_prop value "panners") (get_entry value "panners" id);
  (if truthy found then
     panner ← get_entry value "panners" id;
     setOrientation panner x y z
   else mret tt) ;;
  mret value.

Definition cone : func := λ value args,
  let id := arg 0 args in
  let innerAngle := or_else (arg 1 args) (VNum 360) in
  let outerAngle := or_else (arg 2 args) (VNum 360) in
  let outerGain := or_else (arg 3 args) (VNum 0) in
  found ← js_and (get_prop value "panners")
            (js_and (get_entry value "panners" id)
               (mret (VBool (negb (is_str id "listener")))));
  (if truthy found then
     panner ← get_entry value "panners" id;
     call_attribute panner "coneInnerAngle" innerAngle ;;
     panner ← get_entry value "panners" id;
     call_attribute panner "coneOuterAngle" outerAngle ;;
     panner ← get_entry value "panners" id;
     call_attribute panner "coneOuterGain" outerGain
   else mret tt) ;;
  mret value.

(** ** The prototype of [audioMonad] *)

Inductive opname :=
  | SetAudioBuffers | GetAudioBuffers | MasterGain | Play | RemoveSound
  | Sounds | AddSound | Locate | RemoveLocation | ListenAt | Orient | Cone.

Definition op_func (op : opname) : func :=
  match op with
  | SetAudioBuffers => setAudioBuffers
  | GetAudioBuffers => getAudioBuffers
  | MasterGain => masterGain
  | Play => play
  | RemoveSound => removeSound
  | Sounds => sounds
  | AddSound => addSound
  | Locate => locate
  | RemoveLocation => removeLocation
  | ListenAt => listenAt
  | Orient => orient
  | Cone => cone
  end.

(** [getAudioBuffers] is registered with [lift_value], the others with
    [lift]. *)
Definition method (op : opname) (this : val) (args : list val) : M val :=
  match op with
  | GetAudioBuffers => MONAD.lift_value (op_func op) this args
  | _ => MONAD.lift audioMonad_modifier (op_func op) this args
  end.

(** The audio engine reports the outcome of the [i]-th pending decode:
    [Some audioData] on success, [None] on failure. *)
Definition decoded (i : nat) (outcome : option val) : M unit := λ w,
  match decodes w !! i with
  | None => (Ok tt, w)
  | Some j =>
      let w := upd_decodes (delete i) w in
      match outcome with
      | Some audioData => audioDecodedSuccess (cb_table j) (cb_id j) audioData w
      | None => audioDecodedFailed (cb_table j) (cb_id j) w
      end
  end.

(** ** Running monadic code *)

Definition nullish (v : val) : bool :=
  match v with
  | VUndef | VNull => true
  | _ => false
  end.

Lemma bind_run {A B} (m : M A) (f : A → M B) (w : world) :
  (m ≫= f) w =
  match m w with
  | (Ok a, w1) => f a w1
  | (Throw e, w1) => (Throw e, w1)
  end.
Proof. reflexivity. Qed.

Lemma ret_run {A} (a : A) (w : world) : (mret a : M A) w = (Ok a, w).
Proof. reflexivity. Qed.

Lemma get_prop_run v k w :
  get_prop v k w =
  if nullish v then (Throw TypeError, w) else (Ok (prop_of (heap w) v k), w).
Proof. by destruct v. Qed.

Lemma hasOwnProperty_run v k w :
  hasOwnProperty v k w =
  if nullish v then (Throw TypeError, w)
  else (Ok (bool_decide (is_Some (own_enum (heap w) v !! k))), w).
Proof. by destruct v. Qed.

Lemma truthy_not_nullish v : truthy v = true → nullish v = false.
Proof. by destruct v. Qed.

Lemma nullish_own_enum h v : nullish v = true → own_enum h v = ∅.
Proof. by destruct v. Qed.

Lemma fresh_loc_None w : heap w !! fresh_loc w = None.
Proof. unfold fresh_loc. apply not_elem_of_dom. apply is_fresh. Qed.

(** A loop whose every iteration moves the world along a known path. *)
Lemma for_each_path {A} (body : A → M ()) (W : list A → world) (l : list A) :
  (∀ S k S', l = S ++ k :: S' → body k (W S) = (Ok tt, W (S ++ [k]))) →
  for_each l body (W []) = (Ok tt, W l).
Proof.
  intros Hbody.
  cut (∀ l2 l1, l = l1 ++ l2 → for_each l2 body (W l1) = (Ok tt, W (l1 ++ l2))).
  { intros Hcut. apply (Hcut l []). reflexivity. }
  induction l2 as [|k l2 IH]; intros l1 Hl.
  - by rewrite app_nil_r.
  - simpl. rewrite bind_run, (Hbody l1 k l2 Hl).
    rewrite (IH (l1 ++ [k])); rewrite <- ?app_assoc; done.
Qed.

(** What a copying loop has stored after visiting the keys [S]: the
    properties [P] of the target overwritten with those of the source [O]. *)
Definition written (O P : gmap string val) (S : list string) : gmap string val :=
  foldl (λ P k, <[k := default VUndef (O !! k)]> P) P S.

Lemma written_snoc O P S k :
  written O P (S ++ [k]) = <[k := default VUndef (O !! k)]> (written O P S).
Proof. unfold written. by rewrite foldl_snoc. Qed.

Lemma written_lookup O P S j :
  written O P S !! j =
  if decide (j ∈ S) then Some (default VUndef (O !! j)) else P !! j.
Proof.
  induction S as [|k S IH] using rev_ind.
  - rewrite decide_False by set_solver. done.
  - rewrite written_snoc. destruct (decide (k = j)) as [->|Hne].
    + rewrite lookup_insert_eq. by rewrite decide_True by set_solver.
    + rewrite lookup_insert_ne by done. rewrite IH.
      destruct (decide (j ∈ S)).
      * by rewrite decide_True by set_solver.
      * by rewrite decide_False by set_solver.
Qed.

Lemma written_keys O P : written O P (map_to_list O).*1 = O ∪ P.
Proof.
  apply map_eq. intros j. rewrite written_lookup, lookup_union.
  case_decide as Hj.
  - apply list_elem_of_fmap in Hj as [[k x] [-> Hkx]].
    apply elem_of_map_to_list in Hkx. simpl. rewrite Hkx. simpl.
    by destruct (P !! k).
  - destruct (O !! j) as [x|] eqn:Hx.
    + exfalso. apply Hj. apply list_elem_of_fmap. exists (j, x).
      split; [done | by apply elem_of_map_to_list].
    + by rewrite (left_id None _).
Qed.

Lemma key_in_source (O : gmap string val) S k S' :
  (map_to_list O).*1 = S ++ k :: S' → is_Some (O !! k).
Proof.
  intros Hl. assert (k ∈ (map_to_list O).*1) as Hk by (rewrite Hl; set_solver).
  apply list_elem_of_fmap in Hk as [[k' x] [-> Hkx]].
  apply elem_of_map_to_list in Hkx. eauto.
Qed.

(** Reading the source of a copy while its target [t] is being filled: the
    entries of the source are those it had at the start, also when source
    and target are the same object. *)
Lemma own_enum_target h t K P O S o k :
  h !! t = Some (Obj K P) →
  own_enum h o = O →
  is_Some (O !! k) →
  own_enum (<[t := Obj K (written O P S)]> h) o !! k = O !! k.
Proof.
  intros Ht <- Hk. destruct o; try done. simpl in *.
  destruct (decide (l = t)) as [->|Hne].
  - rewrite lookup_insert_eq. rewrite Ht in *. simpl in *.
    rewrite written_lookup. case_decide; [|done].
    destruct Hk as [x Hx]. by rewrite Hx.
  - by rewrite lookup_insert_ne.
Qed.

Lemma prop_of_own h v k x : own_enum h v !! k = Some x → prop_of h v k = x.
Proof. intros Hx. unfold prop_of. by rewrite Hx. Qed.

Lemma upd_heap_insert_id l o w : heap w !! l = Some o → upd_heap (<[l := o]>) w = w.
Proof. intros Hl. destruct w. unfold upd_heap. simpl in *. by rewrite insert_id. Qed.

(** The copying loop of [shallowCopy] and [setAudioBuffers], run on a
    target [t] that is allocated. *)
Definition copy_into (o newO : val) : M () :=
  for_in o (λ prop,
    hasOwnProperty o prop ≫= λ own : bool,
    if own then x ← get_prop o prop; set_prop newO prop x else mret tt).

Lemma copy_into_run o t K P w :
  heap w !! t = Some (Obj K P) →
  copy_into o (VObj t) w =
  (Ok tt, upd_heap (<[t := Obj K (own_enum (heap w) o ∪ P)]>) w).
Proof.
  intros Ht. unfold copy_into, for_in.
  set (O := own_enum (heap w) o).
  set (W := λ S, upd_heap (<[t := Obj K (written O P S)]>) w).
  rewrite <- (written_keys O P).
  change (upd_heap _ w) with (W (map_to_list O).*1).
  assert (W [] = w) as HW by (by apply upd_heap_insert_id).
  rewrite <- HW at 1. apply for_each_path. intros S k S' Hl.
  pose proof (key_in_source _ _ _ _ Hl) as Hk.
  assert (own_enum (heap (W S)) o !! k = O !! k) as Hread
    by (by apply own_enum_target).
  assert (nullish o = false) as Hnull.
  { destruct (nullish o) eqn:Hn; [|done].
    apply (nullish_own_enum (heap w)) in Hn. fold O in Hn.
    rewrite Hn, lookup_empty in Hk. by destruct Hk. }
  rewrite bind_run, hasOwnProperty_run, Hnull, Hread.
  rewrite bool_decide_eq_true_2 by done.
  rewrite bind_run, get_prop_run, Hnull.
  destruct Hk as [x Hx]. rewrite (prop_of_own _ _ _ x) by (by rewrite Hread).
  unfold W, set_prop, upd_heap. simpl.
  by rewrite alter_insert_eq, written_snoc, Hx.
Qed.

Lemma own_enum_alloc h l K v :
  h !! l = None → own_enum (<[l := Obj K ∅]> h) v = own_enum h v.
Proof.
  intros Hl. destruct v; try done. simpl.
  destruct (decide (l0 = l)) as [->|Hne].
  - by rewrite lookup_insert_eq, Hl.
  - by rewrite lookup_insert_ne.
Qed.

(** [shallowCopy] amounts to one allocation: a new plain object holding
    the own enumerable properties of its argument. *)
Lemma shallowCopy_run o w :
  shallowCopy o w = new_object KPlain (own_enum (heap w) o) w.
Proof.
  unfold shallowCopy. rewrite bind_run. unfold new_object at 1.
  rewrite bind_run.
  change (for_in o _) with (copy_into o (VObj (fresh_loc w))).
  rewrite (copy_into_run _ _ KPlain ∅) by (simpl; apply lookup_insert_eq).
  simpl. rewrite own_enum_alloc by apply fresh_loc_None.
  unfold new_object, upd_heap. simpl.
  rewrite insert_insert_eq, (right_id_L ∅ (∪)). done.
Qed.

(** ** Cloning *)

(** A value is allocated when it is not a dangling reference. *)
Definition allocated (h : gmap loc object) (v : val) : Prop :=
  ∀ l, v = VObj l → is_Some (h !! l).

Definition mapping_fields : list string := ["locations"; "sources"; "audioBuffers"].

Lemma own_enum_old (h h' : gmap loc object) v :
  (∀ l o, h !! l = Some o → h' !! l = Some o) →
  allocated h v → own_enum h' v = own_enum h v.
Proof.
  intros Hold Hv. destruct v; try done. simpl.
  destruct (Hv l eq_refl) as [o Ho]. by rewrite (Hold _ _ Ho), Ho.
Qed.

Lemma prop_of_old (h h' : gmap loc object) v k :
  (∀ l o, h !! l = Some o → h' !! l = Some o) →
  allocated h v → prop_of h' v k = prop_of h v k.
Proof. intros Hold Hv. unfold prop_of. by rewrite (own_enum_old h h'). Qed.

(** The copy of one mapping field [f] of [data] in the clone whose
    properties are [P]. *)
Definition copied (w wi : world) (data : val) (c : loc) (P : gmap string val)
    (f : string) : Prop :=
  let x := prop_of (heap w) data f in
  if truthy x then
    ∃ m, P !! f = Some (VObj m) ∧ heap w !! m = None ∧ m ≠ c ∧
         heap wi !! m = Some (Obj KPlain (own_enum (heap w) x))
  else P !! f = None.

(** The state of a clone [c] of [data] under construction: [w] is the
    world in which [cloneData] was called, [done] the fields already
    treated, [P] the properties of the clone in the current world [wi]. *)
Record building (w : world) (data : val) (c : loc) (done : list string)
    (P : gmap string val) (wi : world) : Prop := Building {
  b_fresh : heap w !! c = None;
  b_old : ∀ l o, heap w !! l = Some o → heap wi !! l = Some o;
  b_new : ∀ l, heap w !! l = None → is_Some (heap wi !! l) →
          l = c ∨ ∃ f, f ∈ mapping_fields ∧ P !! f = Some (VObj l);
  b_trace : trace wi = trace w;
  b_decodes : decodes wi = decodes w;
  b_context : audioContext wi = audioContext w;
  b_record : heap wi !! c = Some (Obj KPlain P);
  b_pending : ∀ k, k ∉ done → P !! k = None;
  b_done : ∀ f, f ∈ done → f ∈ mapping_fields → copied w wi data c P f;
  b_gain : "masterGain" ∈ done →
           P !! "masterGain" =
           (let g := prop_of (heap w) data "masterGain" in
            if truthy g then Some g else None);
  b_distinct : ∀ f g m, f ∈ mapping_fields → g ∈ mapping_fields → f ≠ g →
               P !! f = Some (VObj m) → P !! g = Some (VObj m) → False
}.

Definition all_fields : list string :=
  ["audioBuffers"; "masterGain"; "sources"; "locations"].

(** [cloned w data c P w']: in [w'], [c] is a finished clone of the [data]
    of [w], with properties [P]. *)
Abbreviation cloned w data c P w' := (building w data c all_fields P w').

Lemma building_start w data :
  building w data (fresh_loc w) [] ∅ (upd_heap (<[fresh_loc w := Obj KPlain ∅]>) w).
Proof.
  pose proof (fresh_loc_None w) as Hc.
  split; simpl; try done.
  - intros l o Hl. rewrite lookup_insert_ne; [done | congruence].
  - intros l Hl [o Ho]. left.
    destruct (decide (fresh_loc w = l)) as [|Hne]; [done|].
    rewrite lookup_insert_ne in Ho by done. congruence.
  - apply lookup_insert_eq.
  - intros f Hf. by apply elem_of_nil in Hf.
  - intros Hf. by apply elem_of_nil in Hf.
Qed.


Lemma mapping_field_not_gain f : f ∈ mapping_fields → f ≠ "masterGain".
Proof. intros Hf ->. set_solver. Qed.

Lemma copied_later w wi wi' data c P P' f :
  copied w wi data c P f →
  P' !! f = P !! f →
  (∀ m o, m ≠ c → heap wi !! m = Some o → heap wi' !! m = Some o) →
  copied w wi' data c P' f.
Proof.
  unfold copied. intros Hf HP Hkeep. rewrite HP.
  destruct (truthy _); [|done].
  destruct Hf as (m & ? & ? & ? & ?). exists m. eauto.
Qed.

(** One mapping field is copied (or left out, when it is falsy). *)
Lemma copy_step {B} w data c Fs P wi f (rest : M B) :
  building w data c Fs P wi →
  nullish data = false →
  allocated (heap w) data →
  allocated (heap w) (prop_of (heap w) data f) →
  f ∈ mapping_fields → f ∉ Fs →
  ∃ P' wi',
    (get_prop data f ≫= λ x,
       (if truthy x then shallowCopy x ≫= λ m, set_prop (VObj c) f m
        else mret tt) ≫= λ _, rest) wi = rest wi' ∧
    building w data c (f :: Fs) P' wi'.
Proof.
  intros Hb Hnull Hdata Hx Hf HfFs.
  pose proof Hb as [Hfresh Hold Hnew Htr Hdec Hctx Hrec Hpend Hdone Hgain Hdist].
  rewrite bind_run, get_prop_run, Hnull.
  rewrite (prop_of_old (heap w) (heap wi)) by done.
  unfold copied in *.
  destruct (truthy (prop_of (heap w) data f)) eqn:Htruthy.
  - rewrite bind_run, bind_run, shallowCopy_run.
    rewrite (own_enum_old (heap w) (heap wi)) by done.
    set (O := own_enum (heap w) (prop_of (heap w) data f)).
    unfold new_object, set_prop. simpl.
    pose proof (fresh_loc_None wi) as Hm.
    set (m := fresh_loc wi) in *. clearbody m.
    assert (m ≠ c) as Hmc by congruence.
    assert (heap w !! m = None) as Hmw.
    { destruct (heap w !! m) as [o|] eqn:Ho; [|done].
      apply Hold in Ho. congruence. }
    exists (<[f := VObj m]> P). eexists. split; [reflexivity|].
    split; simpl; try done.
    + intros l o Hl. pose proof (Hold _ _ Hl) as Hl'.
      rewrite lookup_alter_ne, lookup_insert_ne by congruence. done.
    + intros l Hl [o Ho].
      destruct (decide (l = c)) as [|Hlc]; [by left|]. right.
      rewrite lookup_alter_ne in Ho by done.
      destruct (decide (l = m)) as [->|Hlm].
      * exists f. by rewrite lookup_insert_eq.
      * rewrite lookup_insert_ne in Ho by done.
        destruct (Hnew l Hl (mk_is_Some _ _ Ho)) as [|(g & Hg & HPg)]; [done|].
        exists g. split; [done|]. rewrite lookup_insert_ne; [done|].
        intros <-. rewrite Hpend in HPg; done.
    + rewrite lookup_alter_eq, lookup_insert_ne, Hrec by done. done.
    + intros k Hk. rewrite lookup_insert_ne by set_solver.
      apply Hpend. set_solver.
    + intros g Hg Hgm. unfold copied. destruct (decide (g = f)) as [->|Hgf].
      * rewrite Htruthy. exists m. simpl. rewrite lookup_insert_eq.
        rewrite lookup_alter_ne, lookup_insert_eq by done. done.
      * assert (g ∈ Fs) as HgFs by set_solver.
        specialize (Hdone g HgFs Hgm). rewrite lookup_insert_ne by done.
        destruct (truthy (prop_of (heap w) data g)); [|done].
        destruct Hdone as (m' & ? & ? & ? & Hm').
        exists m'. simpl. repeat split; try done.
        rewrite lookup_alter_ne, lookup_insert_ne by congruence. done.
    + intros Hg. rewrite lookup_insert_ne by (by apply mapping_field_not_gain).
      apply Hgain. apply mapping_field_not_gain in Hf. set_solver.
    + assert (∀ g, g ∈ mapping_fields → g ≠ f → P !! g = Some (VObj m) → False)
        as Hnot.
      { intros g Hg Hgf HPg.
        destruct (decide (g ∈ Fs)) as [HgFs|HgFs].
        - specialize (Hdone g HgFs Hg). rewrite HPg in Hdone.
          destruct (truthy (prop_of (heap w) data g)); [|done].
          destruct Hdone as (m' & [= <-] & ? & ? & ?). congruence.
        - rewrite Hpend in HPg; done. }
      intros g1 g2 l Hg1 Hg2 Hne H1 H2.
      destruct (decide (g1 = f)) as [->|Hg1f];
        destruct (decide (g2 = f)) as [->|Hg2f]; try done.
      * rewrite lookup_insert_eq in H1. rewrite lookup_insert_ne in H2 by done.
        injection H1 as <-. eauto.
      * rewrite lookup_insert_eq in H2. rewrite lookup_insert_ne in H1 by done.
        injection H2 as <-. eauto.
      * rewrite lookup_insert_ne in H1, H2 by done. eauto.
  - rewrite bind_run, ret_run. exists P, wi. split; [done|].
    split; try done.
    + intros k Hk. apply Hpend. set_solver.
    + intros g Hg Hgm. destruct (decide (g = f)) as [->|Hgf].
      * unfold copied. rewrite Htruthy. by apply Hpend.
      * apply Hdone; set_solver.
    + intros Hg. apply Hgain. apply mapping_field_not_gain in Hf. set_solver.
Qed.

(** The master gain is shared with the clone, when there is one. *)
Lemma gain_step {B} w data c Fs P wi (rest : M B) :
  building w data c Fs P wi →
  nullish data = false →
  allocated (heap w) data →
  "masterGain" ∉ Fs →
  ∃ P' wi',
    (get_prop data "masterGain" ≫= λ g,
       (if truthy g then set_prop (VObj c) "masterGain" g else mret tt)
       ≫= λ _, rest) wi = rest wi' ∧
    building w data c ("masterGain" :: Fs) P' wi'.
Proof.
  intros Hb Hnull Hdata HfFs.
  pose proof Hb as [Hfresh Hold Hnew Htr Hdec Hctx Hrec Hpend Hdone Hgain Hdist].
  rewrite bind_run, get_prop_run, Hnull.
  rewrite (prop_of_old (heap w) (heap wi)) by done.
  destruct (truthy (prop_of (heap w) data "masterGain")) eqn:Htruthy.
  - rewrite bind_run. unfold set_prop.
    exists (<[ "masterGain" := prop_of (heap w) data "masterGain" ]> P).
    eexists. split; [reflexivity|].
    split; simpl; try done.
    + intros l o Hl. pose proof (Hold _ _ Hl) as Hl'.
      rewrite lookup_alter_ne by congruence. done.
    + intros l Hl [o Ho].
      destruct (decide (l = c)) as [|Hlc]; [by left|]. right.
      rewrite lookup_alter_ne in Ho by done.
      destruct (Hnew l Hl (mk_is_Some _ _ Ho)) as [|(g & Hg & HPg)]; [done|].
      exists g. split; [done|].
      rewrite lookup_insert_ne; [done|].
      intros <-. by apply mapping_field_not_gain in Hg.
    + by rewrite lookup_alter_eq, Hrec.
    + intros k Hk. rewrite lookup_insert_ne by set_solver.
      apply Hpend. set_solver.
    + intros g Hg Hgm. pose proof (mapping_field_not_gain _ Hgm).
      eapply copied_later; [apply Hdone; set_solver| |].
      * by rewrite lookup_insert_ne.
      * intros m o Hmc Hm. simpl. by rewrite lookup_alter_ne.
    + intros _. by rewrite lookup_insert_eq, Htruthy.
    + intros g1 g2 l Hg1 Hg2 Hne.
      rewrite !lookup_insert_ne
        by (apply not_eq_sym; by apply mapping_field_not_gain).
      eauto.
  - rewrite bind_run, ret_run. exists P, wi. split; [done|].
    split; try done.
    + intros k Hk. apply Hpend. set_solver.
    + intros g Hg Hgm. pose proof (mapping_field_not_gain _ Hgm).
      apply Hdone; set_solver.
    + intros _. simpl. rewrite Htruthy. by apply Hpend.
Qed.

(** The well-formedness [cloneData] relies on: [data] and its three
    mapping fields are not dangling. *)
Definition clonable (h : gmap loc object) (data : val) : Prop :=
  nullish data = false ∧ allocated h data ∧
  ∀ f, f ∈ mapping_fields → allocated h (prop_of h data f).

Lemma cloneData_spec data w :
  clonable (heap w) data →
  ∃ c P w', cloneData data w = (Ok (VObj c), w') ∧ cloned w data c P w'.
Proof.
  intros (Hnull & Hdata & Hfields). unfold cloneData.
  rewrite bind_run. unfold new_object. simpl.
  pose proof (building_start w data) as Hb.
  set (c := fresh_loc w) in *. clearbody c.
  assert (∀ f, f ∈ mapping_fields → allocated (heap w) (prop_of (heap w) data f)
            ∧ f ∈ mapping_fields) as Hin by (split; auto).
  edestruct (λ rest mem, copy_step (B:=val) _ _ _ _ _ _ "locations" rest Hb
               Hnull Hdata (proj1 (Hin _ mem)) mem)
    as (P1 & w1 & -> & Hb1); [set_solver..|].
  edestruct (λ rest mem, copy_step (B:=val) _ _ _ _ _ _ "sources" rest Hb1
               Hnull Hdata (proj1 (Hin _ mem)) mem)
    as (P2 & w2 & -> & Hb2); [set_solver..|].
  edestruct (λ rest, gain_step (B:=val) _ _ _ _ _ _ rest Hb2 Hnull Hdata)
    as (P3 & w3 & -> & Hb3); [set_solver..|].
  edestruct (λ mem, copy_step _ _ _ _ _ _ "audioBuffers" (mret (VObj c)) Hb3
               Hnull Hdata (proj1 (Hin _ mem)) mem)
    as (P4 & w4 & Heq & Hb4); [set_solver..|].
  exists c, P4, w4. split; [|done].
  rewrite <- (ret_run (VObj c) w4), <- Heq. done.
Qed.

Lemma cloneData_nullish data w :
  nullish data = true →
  cloneData data w =
  (Throw TypeError, upd_heap (<[fresh_loc w := Obj KPlain ∅]>) w).
Proof.
  intros Hnull. unfold cloneData. rewrite bind_run. unfold new_object.
  by rewrite bind_run, get_prop_run, Hnull.
Qed.


(** What the clone holds for a mapping field. *)
Lemma cloned_field w data c P w' f :
  cloned w data c P w' → f ∈ mapping_fields →
  match P !! f with
  | Some x =>
      ∃ m, x = VObj m ∧ truthy (prop_of (heap w) data f) = true ∧
           heap w !! m = None ∧ m ≠ c ∧
           heap w' !! m = Some (Obj KPlain (own_enum (heap w) (prop_of (heap w) data f)))
  | None => truthy (prop_of (heap w) data f) = false
  end.
Proof.
  intros Hc Hf.
  assert (f ∈ all_fields) as Hall by (unfold all_fields; set_solver).
  pose proof (b_done _ _ _ _ _ _ Hc f Hall Hf) as Hcopied.
  unfold copied in Hcopied.
  destruct (truthy (prop_of (heap w) data f)).
  - destruct Hcopied as (m & -> & ? & ? & ?). eauto 10.
  - by rewrite Hcopied.
Qed.



(** ** What an operation leaves alone *)

(** [stable w w']: every object of [w] is still there in [w'], with its
    kind, and unchanged unless it is a panner (whose attributes [locate]
    may set). *)
Definition stable (w w' : world) : Prop :=
  ∀ l o, heap w !! l = Some o →
    ∃ o', heap w' !! l = Some o' ∧ okind o' = okind o ∧
          (okind o ≠ KPanner → o' = o).

Lemma stable_refl w : stable w w.
Proof. intros l o Hl. eauto. Qed.

Lemma stable_trans w1 w2 w3 : stable w1 w2 → stable w2 w3 → stable w1 w3.
Proof.
  intros H12 H23 l o Hl.
  destruct (H12 l o Hl) as (o2 & Hl2 & Hk2 & Heq2).
  destruct (H23 l o2 Hl2) as (o3 & Hl3 & Hk3 & Heq3).
  exists o3. split; [done|]. split; [congruence|].
  intros Hk. rewrite <- (Heq2 Hk). apply Heq3. congruence.
Qed.

Lemma stable_heap w w1 w2 : heap w2 = heap w1 → stable w w1 → stable w w2.
Proof. intros Hh Hs l o Hl. rewrite Hh. by apply Hs. Qed.

Lemma stable_old w w' :
  (∀ l o, heap w !! l = Some o → heap w' !! l = Some o) → stable w w'.
Proof. intros Hold l o Hl. exists o. eauto. Qed.

Lemma stable_alloc w w' o :
  stable w w' → stable w (upd_heap (<[fresh_loc w' := o]>) w').
Proof.
  intros Hs l o0 Hl. destruct (Hs l o0 Hl) as (o' & Hl' & ?).
  exists o'. split; [|done]. simpl.
  rewrite lookup_insert_ne; [done|].
  pose proof (fresh_loc_None w'). congruence.
Qed.

(** Writing to an object that did not exist in [w]. *)
Lemma stable_alter_new w w' f l :
  stable w w' → heap w !! l = None → stable w (upd_heap (alter f l) w').
Proof.
  intros Hs Hnew l0 o Hl. destruct (Hs l0 o Hl) as (o' & Hl' & ?).
  exists o'. split; [|done]. simpl.
  rewrite lookup_alter_ne; [done | congruence].
Qed.

(** Setting or deleting a property of a panner. *)
Lemma stable_alter_panner w w' f l :
  stable w w' →
  kind_of (heap w') (VObj l) = Some KPanner →
  (∀ o, okind (f o) = okind o) →
  stable w (upd_heap (alter f l) w').
Proof.
  intros Hs Hp Hf l0 o Hl. destruct (Hs l0 o Hl) as (o' & Hl' & Hk & Heq).
  simpl in *. destruct (decide (l = l0)) as [->|Hne].
  - rewrite lookup_alter_eq, Hl'. simpl. exists (f o').
    split; [done|]. split; [by rewrite Hf|].
    rewrite Hl' in Hp. simpl in Hp. intros Hk'. congruence.
  - exists o'. by rewrite lookup_alter_ne.
Qed.

Lemma stable_kind w w' v K :
  stable w w' → kind_of (heap w) v = Some K → kind_of (heap w') v = Some K.
Proof.
  intros Hs. destruct v; try done. simpl.
  destruct (heap w !! l) as [o|] eqn:Hl; [|done].
  destruct (Hs l o Hl) as (o' & -> & Hk & _). simpl. congruence.
Qed.

Lemma stable_fresh w w' l : stable w w' → heap w' !! l = None → heap w !! l = None.
Proof.
  intros Hs Hl. destruct (heap w !! l) as [o|] eqn:Ho; [|done].
  destruct (Hs l o Ho) as (o' & ? & _). congruence.
Qed.

(** Plain objects and wrappers of [w] are read in [w'] as in [w]. *)
Lemma stable_own_enum w w' v K :
  stable w w' → kind_of (heap w) v = Some K → K ≠ KPanner →
  own_enum (heap w') v = own_enum (heap w) v.
Proof.
  intros Hs Hk HK. destruct v; try done. simpl in *.
  destruct (heap w !! l) as [o|] eqn:Hl; [|done].
  destruct (Hs l o Hl) as (o' & -> & _ & Heq). simpl in *.
  rewrite Heq; [done | congruence].
Qed.

Lemma stable_prop_of w w' v K k :
  stable w w' → kind_of (heap w) v = Some K → K ≠ KPanner →
  prop_of (heap w') v k = prop_of (heap w) v k.
Proof. intros. unfold prop_of. by erewrite stable_own_enum. Qed.

(** ** The state an operation returns *)

(** The content of the copy that [cloneData] makes of field [f]: none for
    a field that is not one of the three mappings or is falsy. *)
Definition copy_of (h : gmap loc object) (v : val) (f : string)
    : option (gmap string val) :=
  if decide (f ∈ mapping_fields) then
    let x := prop_of h v f in
    if truthy x then Some (own_enum h x) else None
  else None.

Definition gain_of (h : gmap loc object) (v : val) : val :=
  let g := prop_of h v "masterGain" in if truthy g then g else VUndef.

Definition record_props (T : gmap string (loc * gmap string val)) (g : val)
    (k : string) : option val :=
  if decide (k = "masterGain") then (if truthy g then Some g else None)
  else (VObj ∘ fst) <$> T !! k.

(** [result_state w w' c T g]: in [w'], [c] is a plain record created since
    [w], whose mapping fields are the tables [T] (location and content),
    themselves created since [w] and pairwise distinct, whose master gain
    is [g], and which has no other property. *)
Record result_state (w w' : world) (c : loc)
    (T : gmap string (loc * gmap string val)) (g : val) : Prop := ResultState {
  rs_fresh : heap w !! c = None;
  rs_stable : stable w w';
  rs_context : audioContext w' = audioContext w;
  rs_record : ∃ P, heap w' !! c = Some (Obj KPlain P) ∧
                   ∀ k, P !! k = record_props T g k;
  rs_tables : ∀ f m E, T !! f = Some (m, E) →
      f ∈ mapping_fields ∧ heap w !! m = None ∧ m ≠ c ∧
      heap w' !! m = Some (Obj KPlain E);
  rs_distinct : ∀ f f' m E E',
      T !! f = Some (m, E) → T !! f' = Some (m, E') → f = f'
}.

Lemma rs_prop w w' c T g k :
  result_state w w' c T g →
  prop_of (heap w') (VObj c) k = default VUndef (record_props T g k).
Proof.
  intros [_ _ _ (P & Hc & HP) _ _]. unfold prop_of. simpl.
  rewrite Hc. simpl. rewrite HP. by destruct (record_props T g k).
Qed.

Lemma rs_field w w' c T g f :
  result_state w w' c T g → f ∈ mapping_fields →
  prop_of (heap w') (VObj c) f = from_option (VObj ∘ fst) VUndef (T !! f).
Proof.
  intros Hrs Hf. rewrite (rs_prop _ _ _ _ _ _ Hrs). unfold record_props.
  rewrite decide_False by (by apply mapping_field_not_gain).
  by destruct (T !! f).
Qed.


Lemma rs_no_other w w' c T g k :
  result_state w w' c T g → k ∉ all_fields →
  prop_of (heap w') (VObj c) k = VUndef.
Proof.
  intros Hrs Hk. rewrite (rs_prop _ _ _ _ _ _ Hrs). unfold record_props.
  rewrite decide_False by (unfold all_fields in Hk; set_solver).
  destruct (T !! k) as [[m E]|] eqn:HT; [|done].
  apply (rs_tables _ _ _ _ _ Hrs) in HT as [Hin _].
  exfalso. apply Hk. unfold all_fields, mapping_fields in *. set_solver.
Qed.

(** The tables of a finished clone. *)
Definition clone_tables (h : gmap loc object) (v : val) (P : gmap string val)
    : gmap string (loc * gmap string val) :=
  map_imap (λ f x,
    match x, copy_of h v f with
    | VObj m, Some E => Some (m, E)
    | _, _ => None
    end) P.

Lemma result_of_cloned w data c P w' :
  cloned w data c P w' →
  result_state w w' c (clone_tables (heap w) data P) (gain_of (heap w) data) ∧
  ∀ f, snd <$> clone_tables (heap w) data P !! f = copy_of (heap w) data f.
Proof.
  intros Hc.
  assert (∀ f, clone_tables (heap w) data P !! f =
               if decide (f ∈ mapping_fields) then
                 match P !! f with
                 | Some (VObj m) =>
                     Some (m, own_enum (heap w) (prop_of (heap w) data f))
                 | _ => None
                 end
               else None) as HT.
  { intros f. unfold clone_tables. rewrite map_lookup_imap.
    unfold copy_of. case_decide as Hf.
    - pose proof (cloned_field _ _ _ _ _ f Hc Hf) as Hfield.
      destruct (P !! f) as [x|]; [|done]. simpl.
      destruct Hfield as (m & -> & -> & _). done.
    - destruct (P !! f) as [[]|]; done. }
  split; [split|].
  - apply (b_fresh _ _ _ _ _ _ Hc).
  - apply stable_old, (b_old _ _ _ _ _ _ Hc).
  - apply (b_context _ _ _ _ _ _ Hc).
  - exists P. split; [apply (b_record _ _ _ _ _ _ Hc)|].
    intros k. unfold record_props, gain_of. case_decide as Hk.
    + subst k. rewrite (b_gain _ _ _ _ _ _ Hc) by (unfold all_fields; set_solver).
      simpl. destruct (truthy (prop_of (heap w) data "masterGain")) eqn:Hg;
        by rewrite ?Hg.
    + rewrite HT. case_decide as Hf.
      * pose proof (cloned_field _ _ _ _ _ k Hc Hf) as Hfield.
        destruct (P !! k) as [x|]; [|done].
        by destruct Hfield as (m & -> & _).
      * apply (b_pending _ _ _ _ _ _ Hc).
        unfold all_fields, mapping_fields in *. set_solver.
  - intros f m E Hf. rewrite HT in Hf. case_decide as Hin; [|done].
    pose proof (cloned_field _ _ _ _ _ f Hc Hin) as Hfield.
    destruct (P !! f) as [x|]; [|done].
    destruct Hfield as (m' & -> & _ & ? & ? & ?). by injection Hf as <- <-.
  - intros f f' m E E' Hf Hf'. rewrite HT in Hf, Hf'.
    case_decide as Hin; [|done]. case_decide as Hin'; [|done].
    destruct (P !! f) as [[| | | | |l1]|] eqn:HPf; try done.
    destruct (P !! f') as [[| | | | |l2]|] eqn:HPf'; try done.
    injection Hf as -> <-. injection Hf' as -> <-.
    destruct (decide (f = f')) as [|Hne]; [done|].
    destruct (b_distinct _ _ _ _ _ _ Hc f f' m); done.
  - intros f. rewrite HT. unfold copy_of. case_decide as Hf; [|done].
    pose proof (cloned_field _ _ _ _ _ f Hc Hf) as Hfield.
    destruct (P !! f) as [x|].
    + by destruct Hfield as (m & -> & -> & _).
    + by rewrite Hfield.
Qed.

Definition on_props (φ : gmap string val → gmap string val) (o : object) : object :=
  Obj (okind o) (φ (props o)).

Lemma rs_same_heap w w1 w2 c T g :
  heap w2 = heap w1 → audioContext w2 = audioContext w1 →
  result_state w w1 c T g → result_state w w2 c T g.
Proof.
  intros Hh Hc [? ? ? ? ? ?]. split; rewrite ?Hh, ?Hc; try done.
  by apply (stable_heap w w1).
Qed.

Lemma rs_alloc w w1 c T g o :
  result_state w w1 c T g →
  result_state w (upd_heap (<[fresh_loc w1 := o]>) w1) c T g.
Proof.
  intros [? ? ? (P & Hc & HP) Htab ?].
  pose proof (fresh_loc_None w1) as Hnew.
  split; simpl; try done.
  - by apply stable_alloc.
  - exists P. split; [|done]. rewrite lookup_insert_ne; [done | congruence].
  - intros f m E Hf. destruct (Htab f m E Hf) as (? & ? & ? & ?).
    repeat split; try done. rewrite lookup_insert_ne; [done | congruence].
Qed.

(** Rewriting the content of one table of the record. *)
Lemma rs_alter_table w w1 c T g f m E φ :
  result_state w w1 c T g →
  T !! f = Some (m, E) →
  result_state w (upd_heap (alter (on_props φ) m) w1) c (<[f := (m, φ E)]> T) g.
Proof.
  intros [? ? ? (P & Hc & HP) Htab Hdist] Hf.
  destruct (Htab f m E Hf) as (Hfm & Hm & Hmc & Hw1).
  split; simpl; try done.
  - by apply stable_alter_new.
  - exists P. split; [by rewrite lookup_alter_ne|].
    intros k. rewrite HP. unfold record_props. case_decide; [done|].
    destruct (decide (f = k)) as [->|Hne].
    + by rewrite lookup_insert_eq, Hf.
    + by rewrite lookup_insert_ne.
  - intros f' m' E' Hf'. destruct (decide (f = f')) as [->|Hne].
    + rewrite lookup_insert_eq in Hf'. injection Hf' as <- <-.
      repeat split; try done. by rewrite lookup_alter_eq, Hw1.
    + rewrite lookup_insert_ne in Hf' by done.
      destruct (Htab f' m' E' Hf') as (? & ? & ? & ?).
      repeat split; try done. rewrite lookup_alter_ne; [done|].
      intros <-. by destruct (Hne (Hdist _ _ _ _ _ Hf Hf')).
  - intros f1 f2 m' E1 E2 H1 H2.
    destruct (decide (f = f1)) as [<-|Hne1];
      destruct (decide (f = f2)) as [<-|Hne2]; try done.
    + rewrite lookup_insert_eq in H1. rewrite lookup_insert_ne in H2 by done.
      injection H1 as <- <-. by apply (Hdist _ _ _ _ _ Hf H2).
    + rewrite lookup_insert_eq in H2. rewrite lookup_insert_ne in H1 by done.
      injection H2 as <- <-. by apply (Hdist _ _ _ _ _ H1 Hf).
    + rewrite lookup_insert_ne in H1, H2 by done. by apply (Hdist _ _ _ _ _ H1 H2).
Qed.

(** Pointing a mapping field of the record to a table [m]. *)
Lemma rs_set_field w w1 c T g f m E :
  result_state w w1 c T g →
  f ∈ mapping_fields →
  heap w !! m = None → m ≠ c →
  heap w1 !! m = Some (Obj KPlain E) →
  (∀ f' m' E', f' ≠ f → T !! f' = Some (m', E') → m' ≠ m) →
  result_state w (upd_heap (alter (set_own f (VObj m)) c) w1) c (<[f := (m, E)]> T) g.
Proof.
  intros [? ? ? (P & Hc & HP) Htab Hdist] Hf Hm Hmc Hw1 Hother.
  split; simpl; try done.
  - by apply stable_alter_new.
  - exists (<[f := VObj m]> P). split; [by rewrite lookup_alter_eq, Hc|].
    intros k. unfold record_props. destruct (decide (f = k)) as [->|Hne].
    + rewrite !lookup_insert_eq.
      by rewrite decide_False by (by apply mapping_field_not_gain).
    + rewrite !lookup_insert_ne by done. apply HP.
  - intros f' m' E' Hf'. destruct (decide (f = f')) as [->|Hne].
    + rewrite lookup_insert_eq in Hf'. injection Hf' as <- <-.
      repeat split; try done. by rewrite lookup_alter_ne.
    + rewrite lookup_insert_ne in Hf' by done.
      destruct (Htab f' m' E' Hf') as (? & ? & ? & ?).
      repeat split; try done. by rewrite lookup_alter_ne.
  - intros f1 f2 m' E1 E2 H1 H2.
    destruct (decide (f = f1)) as [<-|Hne1];
      destruct (decide (f = f2)) as [<-|Hne2]; try done.
    + rewrite lookup_insert_eq in H1. rewrite lookup_insert_ne in H2 by done.
      injection H1 as <- <-. by destruct (Hother f2 m E2).
    + rewrite lookup_insert_eq in H2. rewrite lookup_insert_ne in H1 by done.
      injection H2 as <- <-. by destruct (Hother f1 m E1).
    + rewrite lookup_insert_ne in H1, H2 by done. by apply (Hdist _ _ _ _ _ H1 H2).
Qed.

Lemma rs_set_gain w w1 c T g g' :
  result_state w w1 c T g →
  truthy g' = true →
  result_state w (upd_heap (alter (set_own "masterGain" g') c) w1) c T g'.
Proof.
  intros [? ? ? (P & Hc & HP) Htab Hdist] Hg.
  split; simpl; try done.
  - by apply stable_alter_new.
  - exists (<["masterGain" := g']> P). split; [by rewrite lookup_alter_eq, Hc|].
    intros k. unfold record_props. case_decide as Hk.
    + subst k. by rewrite lookup_insert_eq, Hg.
    + rewrite lookup_insert_ne by done. rewrite HP. unfold record_props.
      by rewrite decide_False.
  - intros f m E Hf. destruct (Htab f m E Hf) as (? & ? & ? & ?).
    repeat split; try done. by rewrite lookup_alter_ne.
Qed.

(** Writing to an object that is neither the record nor one of its
    tables. *)
Lemma rs_alter_other w w1 c T g l K φ :
  result_state w w1 c T g →
  kind_of (heap w1) (VObj l) = Some K → K ≠ KPlain →
  stable w (upd_heap (alter φ l) w1) →
  result_state w (upd_heap (alter φ l) w1) c T g.
Proof.
  intros [? ? ? (P & Hc & HP) Htab Hdist] Hl HK Hs. simpl in Hl.
  split; simpl; try done.
  - exists P. split; [|done]. rewrite lookup_alter_ne; [done|].
    intros ->. rewrite Hc in Hl. simpl in Hl. congruence.
  - intros f m E Hf. destruct (Htab f m E Hf) as (? & ? & ? & Hm).
    repeat split; try done. rewrite lookup_alter_ne; [done|].
    intros ->. rewrite Hm in Hl. simpl in Hl. congruence.
Qed.

(** ** The operations, one by one *)

(** [removeSound] and [removeLocation] are the same code on two fields. *)
Definition remove_entry (field : string) : func := λ value args,
  let id := arg 0 args in
  newValue ← cloneData value;
  table ← get_prop newValue field;
  (if truthy table then
     table ← get_prop newValue field;
     delete_prop table (to_key id)
   else mret tt) ;;
  mret newValue.



Lemma remove_entry_spec field v args w :
  field ∈ mapping_fields →
  clonable (heap w) v →
  ∃ c T w',
    remove_entry field v args w = (Ok (VObj c), w') ∧
    result_state w w' c T (gain_of (heap w) v) ∧
    trace w' = trace w ∧ decodes w' = decodes w ∧
    ∀ f, snd <$> T !! f =
         if decide (f = field) then delete (to_key (arg 0 args)) <$> copy_of (heap w) v f
         else copy_of (heap w) v f.
Proof.
  intros Hfield Hv.
  destruct (cloneData_spec v w Hv) as (c & P & w1 & Hclone & Hc).
  destruct (result_of_cloned _ _ _ _ _ Hc) as [Hrs HT].
  unfold remove_entry. rewrite bind_run, Hclone.
  rewrite bind_run, get_prop_run. cbn [nullish].
  rewrite (rs_field _ _ _ _ _ _ Hrs Hfield).
  pose proof (HT field) as HTf.
  destruct (clone_tables (heap w) v P !! field) as [[m E]|] eqn:Hm; simpl.
  - rewrite bind_run, bind_run, get_prop_run. cbn [nullish].
    rewrite (rs_field _ _ _ _ _ _ Hrs Hfield), Hm. simpl.
    eexists c, _, _. split; [reflexivity|].
    split; [|split; [|split]].
    + apply (rs_alter_table _ _ _ _ _ _ _ _ (delete (to_key (arg 0 args))) Hrs Hm).
    + apply (b_trace _ _ _ _ _ _ Hc).
    + apply (b_decodes _ _ _ _ _ _ Hc).
    + intros f. case_decide as Hf.
      * subst f. rewrite lookup_insert_eq, <- HTf. done.
      * rewrite lookup_insert_ne by done. apply HT.
  - rewrite bind_run, !ret_run.
    exists c, (clone_tables (heap w) v P), w1. split; [done|].
    split; [done|]. split; [apply (b_trace _ _ _ _ _ _ Hc)|].
    split; [apply (b_decodes _ _ _ _ _ _ Hc)|].
    intros f. case_decide as Hf; [|apply HT].
    subst f. rewrite Hm, <- HTf. done.
Qed.

(** The entries of the mapping held by field [f] of [v]. *)
Definition submap (h : gmap loc object) (v : val) (f : string) : gmap string val :=
  own_enum h (prop_of h v f).

Lemma falsy_own_enum h x : truthy x = false → own_enum h x = ∅.
Proof.
  destruct x; try done. simpl.
  destruct (String.eqb_spec s ""); [by subst | done].
Qed.

Lemma copy_of_submap h v f :
  f ∈ mapping_fields → default ∅ (copy_of h v f) = submap h v f.
Proof.
  intros Hf. unfold copy_of, submap. rewrite decide_True by done.
  destruct (truthy _) eqn:Ht; [done|]. by rewrite falsy_own_enum.
Qed.

Lemma alloc_old w o l o' :
  heap w !! l = Some o' →
  heap (upd_heap (<[fresh_loc w := o]>) w) !! l = Some o'.
Proof.
  intros Hl. simpl. rewrite lookup_insert_ne; [done|].
  pose proof (fresh_loc_None w). congruence.
Qed.

Lemma getAudioBuffers_spec v args w :
  nullish v = false →
  allocated (heap w) v →
  allocated (heap w) (prop_of (heap w) v "audioBuffers") →
  ∃ g w',
    getAudioBuffers v args w = (Ok (VObj g), w') ∧
    heap w !! g = None ∧
    heap w' !! g = Some (Obj KPlain (submap (heap w) v "audioBuffers")) ∧
    (∀ l o, heap w !! l = Some o → heap w' !! l = Some o) ∧
    trace w' = trace w ∧ decodes w' = decodes w ∧
    audioContext w' = audioContext w.
Proof.
  intros Hnull Hv Hx. unfold getAudioBuffers.
  rewrite bind_run. unfold new_object at 1.
  rewrite bind_run, get_prop_run, Hnull.
  set (w1 := upd_heap _ w).
  assert (∀ l o, heap w !! l = Some o → heap w1 !! l = Some o) as Hold
    by (intros; by apply alloc_old).
  rewrite (prop_of_old (heap w) (heap w1)) by done.
  unfold submap. destruct (truthy (prop_of (heap w) v "audioBuffers")) eqn:Ht.
  - rewrite bind_run, get_prop_run, Hnull.
    rewrite (prop_of_old (heap w) (heap w1)) by done.
    rewrite shallowCopy_run. unfold new_object.
    rewrite (own_enum_old (heap w) (heap w1)) by done.
    pose proof (fresh_loc_None w1) as Hg.
    eexists _, _. split; [reflexivity|]. simpl.
    split; [|split; [|split]]; try done.
    + destruct (heap w !! fresh_loc w1) eqn:Ho; [|done].
      apply Hold in Ho. congruence.
    + apply lookup_insert_eq.
    + intros l o Hl. apply Hold in Hl.
      rewrite lookup_insert_ne; [done | congruence].
  - rewrite ret_run. eexists _, _. split; [reflexivity|].
    split; [apply fresh_loc_None|]. split; [|done].
    rewrite falsy_own_enum by done. subst w1. simpl. apply lookup_insert_eq.
Qed.

Lemma rs_table_allocated w w1 c T g f m E :
  result_state w w1 c T g → T !! f = Some (m, E) → is_Some (heap w1 !! m).
Proof. intros Hrs Hf. apply (rs_tables _ _ _ _ _ Hrs) in Hf as (_ & _ & _ & ->). eauto. Qed.

Lemma rs_record_allocated w w1 c T g :
  result_state w w1 c T g → is_Some (heap w1 !! c).
Proof. intros [_ _ _ (P & -> & _) _ _]. eauto. Qed.

(** A new table, allocated in [w1], is put in field [f] of the record. *)
Lemma rs_new_table w w1 c T g f E :
  result_state w w1 c T g →
  f ∈ mapping_fields →
  result_state w
    (upd_heap (alter (set_own f (VObj (fresh_loc w1))) c)
       (upd_heap (<[fresh_loc w1 := Obj KPlain E]>) w1))
    c (<[f := (fresh_loc w1, E)]> T) g.
Proof.
  intros Hrs Hf. pose proof (fresh_loc_None w1) as Hnew.
  apply rs_set_field; try done.
  - by apply rs_alloc.
  - apply (stable_fresh w w1); [apply Hrs | done].
  - intros Heq. destruct (rs_record_allocated _ _ _ _ _ Hrs). congruence.
  - simpl. apply lookup_insert_eq.
  - intros f' m' E' _ Hf' Heq.
    destruct (rs_table_allocated _ _ _ _ _ _ _ _ Hrs Hf'). congruence.
Qed.

Lemma setAudioBuffers_spec v args w :
  clonable (heap w) v →
  allocated (heap w) (arg 0 args) →
  ∃ c T w',
    setAudioBuffers v args w = (Ok (VObj c), w') ∧
    result_state w w' c T (gain_of (heap w) v) ∧
    trace w' = trace w ∧ decodes w' = decodes w ∧
    ∀ f, snd <$> T !! f =
         if decide (f = "audioBuffers") then Some (own_enum (heap w) (arg 0 args))
         else copy_of (heap w) v f.
Proof.
  intros Hv Hargs.
  destruct (cloneData_spec v w Hv) as (c & P & w1 & Hclone & Hc).
  destruct (result_of_cloned _ _ _ _ _ Hc) as [Hrs HT].
  unfold setAudioBuffers. rewrite bind_run, Hclone.
  rewrite bind_run. unfold new_object. rewrite bind_run.
  change (for_in (arg 0 args) _) with (copy_into (arg 0 args) (VObj (fresh_loc w1))).
  rewrite (copy_into_run _ _ KPlain ∅) by (simpl; apply lookup_insert_eq).
  rewrite bind_run. unfold set_prop. rewrite ret_run.
  eexists c, _, _. split; [reflexivity|].
  assert (own_enum (heap (upd_heap (<[fresh_loc w1 := Obj KPlain ∅]>) w1)) (arg 0 args)
          = own_enum (heap w) (arg 0 args)) as ->.
  { apply own_enum_old; [|done]. intros l o Hl.
    apply alloc_old, (b_old _ _ _ _ _ _ Hc), Hl. }
  rewrite (right_id_L ∅ (∪)).
  split; [|split; [|split]].
  - eapply rs_same_heap; [| |apply (rs_new_table _ _ _ _ _ "audioBuffers"
                                 (own_enum (heap w) (arg 0 args)) Hrs)];
      [|done|set_solver].
    simpl. by rewrite insert_insert_eq.
  - apply (b_trace _ _ _ _ _ _ Hc).
  - apply (b_decodes _ _ _ _ _ _ Hc).
  - intros f. case_decide as Hf.
    + subst f. by rewrite lookup_insert_eq.
    + rewrite lookup_insert_ne by done. apply HT.
Qed.

Lemma rs_extend w w1 w2 c T g :
  result_state w w1 c T g →
  (∀ l o, heap w1 !! l = Some o → heap w2 !! l = Some o) →
  audioContext w2 = audioContext w1 →
  result_state w w2 c T g.
Proof.
  intros [? ? ? (P & Hc & HP) Htab ?] Hold Hctx.
  split; try done.
  - eapply stable_trans; [done | by apply stable_old].
  - congruence.
  - exists P. eauto.
  - intros f m E Hf. destruct (Htab f m E Hf) as (? & ? & ? & ?). eauto 10.
Qed.

Lemma context_run w :
  context w = if audioContext w then (Ok tt, w) else (Throw TypeError, w).
Proof. reflexivity. Qed.

(** Running a sequence up to its next primitive step. *)
Ltac mrun :=
  repeat (first [rewrite bind_run | rewrite ret_run]; cbv beta iota).

(** [createMasterGain] needs the audio context; with it, it makes one gain
    node, out of nothing that existed, and connects it to the
    destination. *)
Lemma createMasterGain_spec volume w :
  audioContext w = true →
  ∃ g w',
    createMasterGain volume w = (Ok (VObj g), w') ∧
    heap w !! g = None ∧
    kind_of (heap w') (VObj g) = Some KGain ∧
    (∀ l o, heap w !! l = Some o → heap w' !! l = Some o) ∧
    trace w' = trace w ++ [ECreateGain (VObj g); EConnect (VObj g) Destination] ∧
    decodes w' = decodes w ∧ audioContext w' = audioContext w.
Proof.
  intros Hctx. unfold createMasterGain, createGain, context_createGain.
  mrun. rewrite context_run, Hctx. mrun.
  unfold new_object at 1. set (w1 := upd_heap _ w). mrun.
  unfold new_object at 1. set (w2 := upd_heap _ w1). mrun.
  unfold emit at 1. set (w3 := upd_trace _ w2). mrun.
  rewrite get_prop_run. cbn [nullish]. mrun.
  assert (heap w3 !! fresh_loc w1 =
          Some (Obj KGain {[ "gain" := VObj (fresh_loc w) ]})) as Hg
    by (simpl; apply lookup_insert_eq).
  assert (prop_of (heap w3) (VObj (fresh_loc w1)) "gain" = VObj (fresh_loc w)) as ->.
  { unfold prop_of. simpl in *. rewrite Hg. simpl. by rewrite lookup_singleton_eq. }
  unfold set_prop. set (w4 := upd_heap _ w3). mrun.
  rewrite context_run. change (audioContext w4) with (audioContext w).
  rewrite Hctx. mrun.
  pose proof (fresh_loc_None w) as Hp. pose proof (fresh_loc_None w1) as Hg1.
  assert (fresh_loc w1 ≠ fresh_loc w) as Hne.
  { intros Heq. rewrite Heq in Hg1. subst w1. simpl in Hg1.
    by rewrite lookup_insert_eq in Hg1. }
  assert (heap w4 !! fresh_loc w1 =
          Some (Obj KGain {[ "gain" := VObj (fresh_loc w) ]})) as Hg4
    by (subst w4; simpl; by rewrite lookup_alter_ne, lookup_insert_eq).
  unfold connect, is_node, kind_of. rewrite Hg4. cbn [fmap option_fmap option_map okind].
  unfold emit. mrun.
  eexists _, _. split; [reflexivity|].
  split; [|split; [|split; [|split]]]; try done.
  - subst w1. simpl in Hg1. rewrite lookup_insert_ne in Hg1 by done. done.
  - cbn [heap upd_trace]. by rewrite Hg4.
  - intros l o Hl. simpl.
    assert (fresh_loc w ≠ l) by congruence.
    assert (fresh_loc w1 ≠ l).
    { intros Heq. subst w1. simpl in Hg1.
      rewrite lookup_insert_ne in Hg1 by done. congruence. }
    by rewrite lookup_alter_ne, !lookup_insert_ne.
  - simpl. by rewrite <- app_assoc.
Qed.

Lemma createMasterGain_no_context volume w :
  audioContext w = false → createMasterGain volume w = (Throw TypeError, w).
Proof.
  intros Hctx. unfold createMasterGain, createGain, context_createGain.
  mrun. rewrite context_run, Hctx. by mrun.
Qed.

Lemma masterGain_spec v args w :
  clonable (heap w) v →
  audioContext w = true →
  ∃ c T g w',
    masterGain v args w = (Ok (VObj c), w') ∧
    result_state w w' c T (VObj g) ∧
    heap w !! g = None ∧
    kind_of (heap w') (VObj g) = Some KGain ∧
    trace w' = trace w ++ [ECreateGain (VObj g); EConnect (VObj g) Destination] ∧
    decodes w' = decodes w ∧
    ∀ f, snd <$> T !! f = copy_of (heap w) v f.
Proof.
  intros Hv Hctx.
  destruct (cloneData_spec v w Hv) as (c & P & w1 & Hclone & Hc).
  destruct (result_of_cloned _ _ _ _ _ Hc) as [Hrs HT].
  assert (audioContext w1 = true) as Hctx1
    by (by rewrite (b_context _ _ _ _ _ _ Hc)).
  destruct (createMasterGain_spec (arg 0 args) w1 Hctx1)
    as (g & w2 & Hgain & Hg & Hkind & Hold & Htrace & Hdec & Hctx2).
  unfold masterGain. mrun. rewrite Hclone. mrun. rewrite Hgain. mrun.
  unfold set_prop. mrun.
  eexists c, _, g, _. split; [reflexivity|].
  assert (g ≠ c) as Hgc.
  { intros ->. destruct (rs_record_allocated _ _ _ _ _ Hrs). congruence. }
  split; [|split; [|split; [|split; [|split]]]].
  - eapply rs_set_gain; [|done]. by apply (rs_extend w w1).
  - by apply (stable_fresh w w1); [apply Hrs|].
  - simpl in *. by rewrite lookup_alter_ne.
  - simpl. by rewrite Htrace, (b_trace _ _ _ _ _ _ Hc).
  - simpl. by rewrite Hdec, (b_decodes _ _ _ _ _ _ Hc).
  - done.
Qed.

Lemma masterGain_no_context v args w :
  clonable (heap w) v →
  audioContext w = false →
  ∃ w', masterGain v args w = (Throw TypeError, w') ∧ stable w w' ∧
        trace w' = trace w ∧ decodes w' = decodes w ∧
        audioContext w' = audioContext w.
Proof.
  intros Hv Hctx.
  destruct (cloneData_spec v w Hv) as (c & P & w1 & Hclone & Hc).
  unfold masterGain. mrun. rewrite Hclone. mrun.
  rewrite createMasterGain_no_context
    by (by rewrite (b_context _ _ _ _ _ _ Hc)).
  exists w1. split; [done|]. split; [apply stable_old, Hc|].
  split; [apply Hc|]. split; apply Hc.
Qed.

(** ** play *)

(** The part of [play] that makes the source, routes it and starts it. *)
Definition play_source (value buffer location : val) : M val :=
  audioSource ← context_createBufferSource;
  set_prop audioSource "buffer" buffer ;;
  located ← js_and (mret location)
               (js_and (get_prop value "locations") (get_entry value "locations" location));
  (if truthy located then
     panner ← get_entry value "locations" location;
     connect audioSource (Node panner) ;;
     panner ← get_entry value "locations" location;
     gain ← get_prop value "masterGain";
     connect panner (Node gain)
   else
     gain ← get_prop value "masterGain";
     connect audioSource (Node gain)) ;;
  start audioSource 0 ;;
  mret value.

(** [value.audioBuffers && value.audioBuffers[id]] *)
Definition buffer_of (h : gmap loc object) (value id : val) : val :=
  let table := prop_of h value "audioBuffers" in
  if truthy table then prop_of h table (to_key id) else table.

(** [buffer && buffer !== 'pending' && buffer !== 'failed'] *)
Definition playable (buffer : val) : bool :=
  truthy buffer && negb (is_str buffer "pending") && negb (is_str buffer "failed").

(** [location && value.locations && value.locations[location]] *)
Definition route (h : gmap loc object) (value location : val) : val :=
  if truthy location then
    let locations := prop_of h value "locations" in
    if truthy locations then prop_of h locations (to_key location) else locations
  else location.

Lemma get_entry_run value field key w :
  nullish value = false →
  truthy (prop_of (heap w) value field) = true →
  get_entry value field key w =
  (Ok (prop_of (heap w) (prop_of (heap w) value field) (to_key key)), w).
Proof.
  intros Hnull Ht. unfold get_entry. mrun. rewrite get_prop_run, Hnull. mrun.
  by rewrite get_prop_run, (truthy_not_nullish _ Ht).
Qed.

Lemma and_entry_run value field key w :
  nullish value = false →
  js_and (get_prop value field) (get_entry value field key) w =
  (Ok (if truthy (prop_of (heap w) value field)
       then prop_of (heap w) (prop_of (heap w) value field) (to_key key)
       else prop_of (heap w) value field), w).
Proof.
  intros Hnull. unfold js_and. mrun. rewrite get_prop_run, Hnull. mrun.
  simpl. destruct (truthy (prop_of (heap w) value field)) eqn:Ht; [|done].
  by rewrite get_entry_run.
Qed.

Lemma route_run value location w :
  nullish value = false →
  js_and (mret location)
    (js_and (get_prop value "locations") (get_entry value "locations" location)) w =
  (Ok (route (heap w) value location), w).
Proof.
  intros Hnull. unfold js_and at 1. mrun. unfold route.
  destruct (truthy location); [|done]. by rewrite and_entry_run.
Qed.

Lemma route_entry value location w :
  nullish value = false →
  truthy (route (heap w) value location) = true →
  get_entry value "locations" location w = (Ok (route (heap w) value location), w).
Proof.
  intros Hnull. unfold route. destruct (truthy location) eqn:Hl; [|congruence].
  simpl. destruct (truthy (prop_of (heap w) value "locations")) eqn:Ht;
    [|congruence].
  intros _. by rewrite get_entry_run.
Qed.

Lemma kind_of_old (h h' : gmap loc object) v K :
  (∀ l o, h !! l = Some o → h' !! l = Some o) →
  kind_of h v = Some K → kind_of h' v = Some K.
Proof.
  intros Hold. destruct v; try done. simpl.
  destruct (h !! l) as [o|] eqn:Hl; [|done]. by rewrite (Hold _ _ Hl).
Qed.

Lemma is_node_old (h h' : gmap loc object) v :
  (∀ l o, h !! l = Some o → h' !! l = Some o) →
  is_node h v = true → is_node h' v = true.
Proof.
  intros Hold. unfold is_node.
  destruct (kind_of h v) as [K|] eqn:HK; [|done].
  by rewrite (kind_of_old h h' v K).
Qed.

Lemma route_old (h h' : gmap loc object) value location :
  (∀ l o, h !! l = Some o → h' !! l = Some o) →
  allocated h value → allocated h (prop_of h value "locations") →
  route h' value location = route h value location.
Proof.
  intros Hold Hv Hl. unfold route. destruct (truthy location); [|done].
  rewrite (prop_of_old h h') by done.
  destruct (truthy _); [|done]. by rewrite (prop_of_old h h').
Qed.

Ltac not_in_list H :=
  repeat (apply elem_of_cons in H as [H|H]; [discriminate|]);
  by apply elem_of_nil in H.

Lemma play_source_no_context value buffer location w :
  audioContext w = false →
  play_source value buffer location w = (Throw TypeError, w).
Proof.
  intros Hctx. unfold play_source, context_createBufferSource.
  mrun. rewrite context_run, Hctx. by mrun.
Qed.

Lemma play_source_spec value buffer location w :
  nullish value = false →
  allocated (heap w) value →
  allocated (heap w) (prop_of (heap w) value "locations") →
  audioContext w = true →
  ∃ r w' evs s,
    play_source value buffer location w = (r, w') ∧
    (∀ l o, heap w !! l = Some o → heap w' !! l = Some o) ∧
    trace w' = trace w ++ evs ∧ decodes w' = decodes w ∧
    audioContext w' = audioContext w ∧
    (∀ g, ECreateGain g ∉ evs) ∧ (∀ src, EConnect src Destination ∉ evs) ∧
    (∀ r', r = Ok r' → r' = value) ∧
    heap w !! s = None ∧
    heap w' !! s = Some (Obj KSource {[ "buffer" := buffer ]}) ∧
    let p := route (heap w) value location in
    let gain := prop_of (heap w) value "masterGain" in
    (truthy p = false →
       r = Ok value ∧
       evs = [ECreateBufferSource (VObj s); EConnect (VObj s) (Node gain);
              EStart (VObj s) 0]) ∧
    (truthy p = true → is_node (heap w) p = true →
       r = Ok value ∧
       evs = [ECreateBufferSource (VObj s); EConnect (VObj s) (Node p);
              EConnect p (Node gain); EStart (VObj s) 0]).
Proof.
  intros Hnull Hv Hlocs Hctx. unfold play_source, context_createBufferSource.
  mrun. rewrite context_run, Hctx. mrun.
  unfold new_object at 1. set (w1 := upd_heap _ w). mrun.
  unfold emit at 1. set (w2 := upd_trace _ w1). mrun.
  unfold set_prop at 1. set (w3 := upd_heap _ w2). mrun.
  pose proof (fresh_loc_None w) as Hs. set (s := fresh_loc w) in *.
  assert (heap w3 !! s = Some (Obj KSource {[ "buffer" := buffer ]})) as Hs3.
  { subst w3 w2 w1. simpl. rewrite lookup_alter_eq, lookup_insert_eq. simpl.
    unfold set_own. simpl. by rewrite insert_empty. }
  assert (∀ l o, heap w !! l = Some o → heap w3 !! l = Some o) as Hold.
  { intros l o Hl. subst w3 w2 w1. simpl.
    rewrite lookup_alter_ne, lookup_insert_ne by congruence. done. }
  rewrite route_run by done. mrun.
  rewrite (route_old (heap w) (heap w3)) by done.
  assert (is_node (heap w3) (VObj s) = true) as Hnode
    by (unfold is_node, kind_of; by rewrite Hs3).
  assert (trace w3 = trace w ++ [ECreateBufferSource (VObj s)]) as Htr3 by done.
  destruct (truthy (route (heap w) value location)) eqn:Hroute.
  - mrun. rewrite route_entry by (rewrite ?(route_old (heap w) (heap w3)); done).
    rewrite (route_old (heap w) (heap w3)) by done. mrun.
    unfold connect at 1. rewrite Hnode. unfold emit at 1.
    set (w4 := upd_trace _ w3). mrun.
    rewrite route_entry by (rewrite ?(route_old (heap w) (heap w3)); done).
    change (heap w4) with (heap w3).
    rewrite (route_old (heap w) (heap w3)) by done. mrun.
    rewrite get_prop_run, Hnull. mrun. change (heap w4) with (heap w3).
    rewrite (prop_of_old (heap w) (heap w3)) by done.
    unfold connect. change (heap w4) with (heap w3).
    destruct (is_node (heap w3) (route (heap w) value location)) eqn:Hp.
    + unfold emit at 1. set (w5 := upd_trace _ w4). mrun.
      unfold start. change (heap w5) with (heap w3).
      unfold kind_of at 1. rewrite Hs3. cbn [fmap option_fmap option_map okind].
      unfold emit. mrun.
      eexists _, _, _, s. split; [reflexivity|].
      split; [done|]. split.
      { simpl. rewrite <- !app_assoc. simpl. reflexivity. }
      repeat split; try done.
      * intros g Hg. not_in_list Hg.
      * intros src Hsrc. not_in_list Hsrc.
      * by intros r' [= <-].
    + mrun.
      assert (is_node (heap w) (route (heap w) value location) = true → False)
        as Hnot.
      { intros Hn. apply (is_node_old _ (heap w3)) in Hn; [congruence | done]. }
      eexists _, _, _, s. split; [reflexivity|].
      split; [done|]. split.
      { simpl. rewrite <- !app_assoc. simpl. reflexivity. }
      repeat split; try done; try (intros ? Hin; not_in_list Hin);
        by destruct Hnot.
  - mrun. rewrite get_prop_run, Hnull. mrun.
    rewrite (prop_of_old (heap w) (heap w3)) by done.
    unfold connect. rewrite Hnode. unfold emit at 1.
    set (w4 := upd_trace _ w3). mrun.
    unfold start. change (heap w4) with (heap w3).
    unfold kind_of at 1. rewrite Hs3. cbn [fmap option_fmap option_map okind].
    unfold emit. mrun.
    eexists _, _, _, s. split; [reflexivity|].
    split; [done|]. split.
    { simpl. rewrite <- !app_assoc. simpl. reflexivity. }
    repeat split; try done.
    + intros g Hg. not_in_list Hg.
    + intros src Hsrc. not_in_list Hsrc.
    + by intros r' [= <-].
Qed.

Lemma play_unfold value args :
  play value args =
  (buffer ← js_and (get_prop value "audioBuffers")
              (get_entry value "audioBuffers" (arg 0 args));
   if playable buffer then
     gain ← get_prop value "masterGain";
     value ← (if negb (truthy gain) then masterGain value [] else mret value);
     play_source value buffer (arg 1 args)
   else mret value).
Proof. reflexivity. Qed.

Lemma play_nullish v args w :
  nullish v = true → play v args w = (Throw TypeError, w).
Proof.
  intros Hnull. rewrite play_unfold. unfold js_and. mrun.
  by rewrite get_prop_run, Hnull.
Qed.

(** Nothing to play: the state is returned and nothing happens. *)
Lemma play_skip v args w :
  nullish v = false →
  playable (buffer_of (heap w) v (arg 0 args)) = false →
  play v args w = (Ok v, w).
Proof.
  intros Hnull Hplay. rewrite play_unfold. mrun.
  rewrite and_entry_run by done. mrun.
  change (if truthy _ then _ else _) with (buffer_of (heap w) v (arg 0 args)) at 1.
  by rewrite Hplay.
Qed.

(** A master gain is there: the source is made and routed at once. *)
Lemma play_with_gain v args w :
  nullish v = false →
  playable (buffer_of (heap w) v (arg 0 args)) = true →
  truthy (prop_of (heap w) v "masterGain") = true →
  play v args w =
  play_source v (buffer_of (heap w) v (arg 0 args)) (arg 1 args) w.
Proof.
  intros Hnull Hplay Hgain. rewrite play_unfold. mrun.
  rewrite and_entry_run by done. mrun.
  change (if truthy _ then _ else _) with (buffer_of (heap w) v (arg 0 args)) at 1.
  rewrite Hplay.
  mrun. rewrite get_prop_run, Hnull. mrun. rewrite Hgain. simpl. by mrun.
Qed.

(** No master gain yet: the state is cloned as by [masterGain] first. *)
Lemma play_lazy_gain v args w :
  nullish v = false →
  playable (buffer_of (heap w) v (arg 0 args)) = true →
  truthy (prop_of (heap w) v "masterGain") = false →
  play v args w =
  (masterGain v [] ≫= λ value,
     play_source value (buffer_of (heap w) v (arg 0 args)) (arg 1 args)) w.
Proof.
  intros Hnull Hplay Hgain. rewrite play_unfold. mrun.
  rewrite and_entry_run by done. mrun.
  change (if truthy _ then _ else _) with (buffer_of (heap w) v (arg 0 args)) at 1.
  rewrite Hplay.
  mrun. rewrite get_prop_run, Hnull. mrun. by rewrite Hgain.
Qed.

(** ** addSound and sounds *)

(** The text after the first comma of a data URI, when there is one. *)
Definition payload_of (data : val) : option string :=
  match data with
  | VStr s => split_comma s !! 1%nat
  | _ => None
  end.

Lemma payload_run data w :
  (payload ← split_second data; base64ToArrayBuffer payload) w =
  match payload_of data with
  | Some p => (Ok (base64_bytes p), w)
  | None => (Throw TypeError, w)
  end.
Proof.
  destruct data; try done. rewrite bind_run. simpl.
  by destruct (split_comma s !! 1%nat).
Qed.

Lemma decodeAudioData_run j w :
  decodeAudioData j w =
  if audioContext w then
    (Ok tt, upd_decodes (λ d, d ++ [j]) (upd_trace (λ t, t ++ [EDecodeAudioData j]) w))
  else (Throw TypeError, w).
Proof.
  unfold decodeAudioData. mrun. rewrite context_run.
  by destruct (audioContext w).
Qed.

(** Without a buffer table in the state, [addSound] dereferences
    [undefined]. *)
Lemma addSound_no_table v args w :
  clonable (heap w) v →
  truthy (prop_of (heap w) v "audioBuffers") = false →
  ∃ w', addSound v args w = (Throw TypeError, w') ∧ stable w w' ∧
        trace w' = trace w ∧ decodes w' = decodes w ∧
        audioContext w' = audioContext w.
Proof.
  intros Hv Hab.
  destruct (cloneData_spec v w Hv) as (c & P & w1 & Hclone & Hc).
  destruct (result_of_cloned _ _ _ _ _ Hc) as [Hrs HT].
  unfold addSound. mrun. rewrite Hclone. mrun.
  rewrite get_prop_run. cbn [nullish]. mrun.
  rewrite (rs_field _ _ _ _ _ _ Hrs) by set_solver.
  pose proof (HT "audioBuffers") as Hcopy. unfold copy_of in Hcopy.
  rewrite decide_True, Hab in Hcopy by set_solver.
  destruct (clone_tables (heap w) v P !! "audioBuffers"); [done|].
  simpl. exists w1. split; [done|]. split; [apply Hrs|].
  split; [apply Hc|]. split; apply Hc.
Qed.

Lemma addSound_spec v args w :
  clonable (heap w) v →
  truthy (prop_of (heap w) v "audioBuffers") = true →
  ∃ c T m w',
    result_state w w' c T (gain_of (heap w) v) ∧
    T !! "audioBuffers" =
      Some (m, <[to_key (arg 0 args) := VStr "pending"]> (submap (heap w) v "audioBuffers")) ∧
    (∀ f, f ≠ "audioBuffers" → snd <$> T !! f = copy_of (heap w) v f) ∧
    match payload_of (arg 1 args) with
    | Some p =>
        let j := Job (base64_bytes p) (VObj m) (arg 0 args) in
        if audioContext w then
          addSound v args w = (Ok (VObj c), w') ∧
          trace w' = trace w ++ [EDecodeAudioData j] ∧
          decodes w' = decodes w ++ [j]
        else
          addSound v args w = (Throw TypeError, w') ∧
          trace w' = trace w ∧ decodes w' = decodes w
    | None =>
        addSound v args w = (Throw TypeError, w') ∧
        trace w' = trace w ∧ decodes w' = decodes w
    end.
Proof.
  intros Hv Hab.
  destruct (cloneData_spec v w Hv) as (c & P & w1 & Hclone & Hc).
  destruct (result_of_cloned _ _ _ _ _ Hc) as [Hrs HT].
  pose proof (HT "audioBuffers") as Hcopy. unfold copy_of in Hcopy.
  rewrite decide_True, Hab in Hcopy by set_solver.
  destruct (clone_tables (heap w) v P !! "audioBuffers") as [[m E]|] eqn:Hm;
    [|done].
  injection Hcopy as ->.
  pose proof (rs_alter_table _ _ _ _ _ _ _ _
                (<[to_key (arg 0 args) := VStr "pending"]>) Hrs Hm) as Hrs'.
  set (w2 := upd_heap (alter _ m) w1) in *.
  set (T := <["audioBuffers" := _]> (clone_tables (heap w) v P)) in *.
  assert (T !! "audioBuffers" =
          Some (m, <[to_key (arg 0 args) := VStr "pending"]>
                     (submap (heap w) v "audioBuffers"))) as Htable
    by apply lookup_insert_eq.
  assert (∀ f, f ≠ "audioBuffers" → snd <$> T !! f = copy_of (heap w) v f)
    as Hother.
  { intros f Hf. subst T. rewrite lookup_insert_ne by done. apply HT. }
  assert (addSound v args w =
          (payload ← split_second (arg 1 args);
           buff ← base64ToArrayBuffer payload;
           decodeAudioData (Job buff (VObj m) (arg 0 args)) ;;
           mret (VObj c)) w2) as ->.
  { unfold addSound. mrun. rewrite Hclone. mrun.
    rewrite get_prop_run. cbn [nullish]. mrun.
    rewrite (rs_field _ _ _ _ _ _ Hrs), Hm by set_solver. simpl. by mrun. }
  pose proof (payload_run (arg 1 args) w2) as Hpay.
  rewrite bind_run in Hpay. rewrite bind_run.
  destruct (split_second (arg 1 args) w2) as [[payload|e] w3].
  - rewrite bind_run. destruct (payload_of (arg 1 args)) as [p|].
    + rewrite Hpay. mrun. rewrite decodeAudioData_run.
      change (audioContext w2) with (audioContext w1).
      rewrite (b_context _ _ _ _ _ _ Hc).
      destruct (audioContext w) eqn:Hctx.
      * mrun. eexists c, T, m, _. split; [|split; [|split; [|split]]];
          [|done|done|reflexivity|].
        -- eapply rs_same_heap; [| |apply Hrs']; done.
        -- simpl. by rewrite (b_trace _ _ _ _ _ _ Hc), (b_decodes _ _ _ _ _ _ Hc).
      * exists c, T, m, w2. do 3 (split; [done|]).
        repeat split; try done; apply Hc.
    + rewrite Hpay. exists c, T, m, w2. do 3 (split; [done|]).
      repeat split; try done; apply Hc.
  - destruct (payload_of (arg 1 args)) as [p|]; [done|].
    destruct e. injection Hpay as ->. exists c, T, m, w2. do 3 (split; [done|]).
    repeat split; try done; apply Hc.
Qed.

(** A loop whose iterations either move the world along a known path or
    throw, leaving a world that satisfies [E]. *)
Lemma for_each_path_or_throw {A} (body : A → M ()) (W : list A → world)
    (E : world → Prop) (l : list A) :
  (∀ S k S', l = S ++ k :: S' →
     body k (W S) = (Ok tt, W (S ++ [k])) ∨
     ∃ wt, body k (W S) = (Throw TypeError, wt) ∧ E wt) →
  for_each l body (W []) = (Ok tt, W l) ∨
  ∃ wt, for_each l body (W []) = (Throw TypeError, wt) ∧ E wt.
Proof.
  intros Hbody.
  cut (∀ l2 l1, l = l1 ++ l2 →
         for_each l2 body (W l1) = (Ok tt, W (l1 ++ l2)) ∨
         ∃ wt, for_each l2 body (W l1) = (Throw TypeError, wt) ∧ E wt).
  { intros Hcut. apply (Hcut l []). reflexivity. }
  induction l2 as [|k l2 IH]; intros l1 Hl.
  - left. by rewrite app_nil_r.
  - simpl. rewrite bind_run.
    destruct (Hbody l1 k l2 Hl) as [->|(wt & -> & HE)]; [|eauto].
    destruct (IH (l1 ++ [k])) as [->|(wt & -> & HE)];
      rewrite <- ?app_assoc; eauto.
Qed.

Definition pending_over (S : list string) (E : gmap string val) : gmap string val :=
  foldl (λ E k, <[k := VStr "pending"]> E) E S.

Lemma pending_over_snoc S E k :
  pending_over (S ++ [k]) E = <[k := VStr "pending"]> (pending_over S E).
Proof. unfold pending_over. by rewrite foldl_snoc. Qed.


(** The job that [sounds] schedules for the key [k] of its argument. *)
Definition sound_job (h : gmap loc object) (snds t : val) (k : string) : job :=
  Job (from_option base64_bytes [] (payload_of (prop_of h snds k))) t (VStr k).

Definition sounds_loop (snds audioBuffers : val) : M () :=
  for_in snds (λ sound,
    hasOwnProperty snds sound ≫= λ own : bool,
    if own then
      set_prop audioBuffers sound (VStr "pending") ;;
      data ← get_prop snds sound;
      payload ← split_second data;
      buff ← base64ToArrayBuffer payload;
      decodeAudioData (Job buff audioBuffers (VStr sound))
    else mret tt).

(** The world after [sounds] has gone through the keys [S]. *)
Definition sounds_world (w : world) (snds : val) (t : loc) (E0 : gmap string val)
    (S : list string) : world :=
  World (<[t := Obj KPlain (pending_over S E0)]> (heap w))
        (trace w ++ (EDecodeAudioData ∘ sound_job (heap w) snds (VObj t) <$> S))
        (decodes w ++ (sound_job (heap w) snds (VObj t) <$> S))
        (audioContext w).

Lemma sounds_loop_run snds t E0 w :
  heap w !! t = Some (Obj KPlain E0) →
  snds ≠ VObj t →
  let keys := (map_to_list (own_enum (heap w) snds)).*1 in
  sounds_loop snds (VObj t) w = (Ok tt, sounds_world w snds t E0 keys) ∨
  ∃ wt X, sounds_loop snds (VObj t) w = (Throw TypeError, wt) ∧
          heap wt = <[t := Obj KPlain X]> (heap w) ∧
          audioContext wt = audioContext w.
Proof.
  intros Ht Hne keys. unfold sounds_loop, for_in. fold keys.
  set (W := sounds_world w snds t E0).
  assert (W [] = w) as HW.
  { unfold W, sounds_world. simpl. rewrite !app_nil_r.
    destruct w. simpl in *. by rewrite insert_id. }
  set (Epost := λ wt, ∃ X, heap wt = <[t := Obj KPlain X]> (heap w) ∧
                           audioContext wt = audioContext w).
  destruct (for_each_path_or_throw
              (λ sound,
                 hasOwnProperty snds sound ≫= λ own : bool,
                 if own then
                   set_prop (VObj t) sound (VStr "pending") ;;
                   data ← get_prop snds sound;
                   payload ← split_second data;
                   buff ← base64ToArrayBuffer payload;
                   decodeAudioData (Job buff (VObj t) (VStr sound))
                 else mret tt) W Epost keys) as [Hok|(wt & Hthrow & X & HX)].
  2: { rewrite HW in Hok. by left. }
  2: { rewrite HW in Hthrow. right. exists wt, X. split; [done|]. done. }
  intros S k S' Hl.
  pose proof (key_in_source _ _ _ _ Hl) as [x Hx].
  assert (∀ X, own_enum (<[t := X]> (heap w)) snds = own_enum (heap w) snds)
    as Hsame.
  { intros X. destruct snds; try done. simpl.
    rewrite lookup_insert_ne; [done | congruence]. }
  assert (nullish snds = false) as Hnull.
  { destruct (nullish snds) eqn:Hn; [|done].
    rewrite (nullish_own_enum _ _ Hn), lookup_empty in Hx. done. }
  set (data := prop_of (heap w) snds k).
  set (w2 := World (<[t := Obj KPlain (<[k := VStr "pending"]> (pending_over S E0))]> (heap w))
                   (trace (W S)) (decodes (W S)) (audioContext w)).
  assert (Epost w2) as HE2 by (eexists; split; reflexivity).
  match goal with
  | |- ?body (W S) = _ ∨ _ =>
      assert (body (W S) =
              match payload_of data with
              | Some p =>
                  if audioContext w then (Ok tt, W (S ++ [k]))
                  else (Throw TypeError, w2)
              | None => (Throw TypeError, w2)
              end) as ->
  end.
  2: { destruct (payload_of data); [destruct (audioContext w)|]; eauto. }
  assert (upd_heap (alter (set_own k (VStr "pending")) t) (W S) = w2) as Hw2.
  { unfold w2, W, sounds_world, upd_heap. simpl. by rewrite alter_insert_eq. }
  assert (prop_of (heap w2) snds k = data) as Hdata.
  { unfold data, prop_of, w2. cbn [heap]. by rewrite Hsame. }
  mrun. rewrite hasOwnProperty_run, Hnull. mrun.
  rewrite bool_decide_eq_true_2
    by (unfold W, sounds_world; cbn [heap]; rewrite Hsame, Hx; eauto).
  mrun. unfold set_prop at 1. mrun. rewrite Hw2.
  rewrite get_prop_run, Hnull, Hdata. mrun.
  pose proof (payload_run data w2) as Hpay.
  rewrite bind_run in Hpay.
  destruct (split_second data w2) as [[payload|[]] w3]; cbv beta iota.
  - rewrite bind_run, Hpay. destruct (payload_of data) as [p|] eqn:Hp; [|done].
    rewrite decodeAudioData_run. change (audioContext w2) with (audioContext w).
    destruct (audioContext w) eqn:Hctx; [|done].
    assert (sound_job (heap w) snds (VObj t) k =
            Job (base64_bytes p) (VObj t) (VStr k)) as Hjob
      by (unfold sound_job; fold data; by rewrite Hp).
    f_equal. unfold W, sounds_world, w2, upd_decodes, upd_trace.
    cbn [heap trace decodes audioContext].
    rewrite pending_over_snoc, !fmap_app, !app_assoc.
    cbn [fmap list_fmap compose]. rewrite Hjob, Hctx. reflexivity.
  - destruct (payload_of data); [done|]. by injection Hpay as ->.
Qed.

Lemma alter_as_insert {A} (f : A → A) (m : gmap loc A) i x :
  m !! i = Some x → alter f i m = <[i := f x]> m.
Proof.
  intros Hi. apply map_eq. intros j. destruct (decide (i = j)) as [->|Hne].
  - by rewrite lookup_alter_eq, lookup_insert_eq, Hi.
  - by rewrite lookup_alter_ne, lookup_insert_ne.
Qed.

Lemma stable_overwrite_new w w1 wt t X :
  stable w w1 → heap w !! t = None →
  heap wt = <[t := X]> (heap w1) → stable w wt.
Proof.
  intros Hs Ht Hwt l o Hl. destruct (Hs l o Hl) as (o' & Hl' & ?).
  exists o'. split; [|done]. rewrite Hwt, lookup_insert_ne; [done | congruence].
Qed.

Lemma sound_job_old (h h' : gmap loc object) snds t k :
  (∀ l o, h !! l = Some o → h' !! l = Some o) →
  allocated h snds →
  sound_job h' snds t k = sound_job h snds t k.
Proof. intros Hold Hs. unfold sound_job. by rewrite (prop_of_old h h'). Qed.

Lemma sounds_spec v args w :
  clonable (heap w) v →
  allocated (heap w) (arg 0 args) →
  ∃ r w',
    sounds v args w = (r, w') ∧ stable w w' ∧
    audioContext w' = audioContext w ∧
    ∀ r', r = Ok r' →
      ∃ c T t,
        r' = VObj c ∧
        result_state w w' c T (gain_of (heap w) v) ∧
        T !! "audioBuffers" =
          Some (t, pending_over (map_to_list (own_enum (heap w) (arg 0 args))).*1
                     (submap (heap w) v "audioBuffers")) ∧
        (∀ f, f ≠ "audioBuffers" → snd <$> T !! f = copy_of (heap w) v f) ∧
        trace w' =
          trace w ++ (EDecodeAudioData ∘ sound_job (heap w) (arg 0 args) (VObj t)
                        <$> (map_to_list (own_enum (heap w) (arg 0 args))).*1) ∧
        decodes w' =
          decodes w ++ (sound_job (heap w) (arg 0 args) (VObj t)
                          <$> (map_to_list (own_enum (heap w) (arg 0 args))).*1).
Proof.
  intros Hv Hsnds. set (snds := arg 0 args) in *.
  destruct (cloneData_spec v w Hv) as (c & P & w1 & Hclone & Hc).
  destruct (result_of_cloned _ _ _ _ _ Hc) as [Hrs HT].
  pose proof (b_old _ _ _ _ _ _ Hc) as Hold1.
  pose proof (HT "audioBuffers") as Hcopy.
  assert (∀ w2 : world, (∀ l o, heap w1 !! l = Some o → heap w2 !! l = Some o) →
            own_enum (heap w2) snds = own_enum (heap w) snds ∧
            ∀ t k, sound_job (heap w2) snds t k = sound_job (heap w) snds t k)
    as Hsame.
  { intros w2 Hold2. split; [|intros t k];
      [apply own_enum_old | apply sound_job_old]; eauto. }
  assert (sounds v args w =
          (audioBuffers ← get_prop (VObj c) "audioBuffers";
           audioBuffers ← (if negb (truthy audioBuffers) then new_object KPlain ∅
                           else mret audioBuffers);
           sounds_loop snds audioBuffers ;;
           set_prop (VObj c) "audioBuffers" audioBuffers ;;
           mret (VObj c)) w1) as ->.
  { unfold sounds. rewrite bind_run, Hclone. reflexivity. }
  mrun. rewrite get_prop_run. cbn [nullish]. mrun.
  rewrite (rs_field _ _ _ _ _ _ Hrs) by set_solver.
  destruct (clone_tables (heap w) v P !! "audioBuffers") as [[m E]|] eqn:Hm;
    cbn [from_option compose fst truthy negb]; mrun.
  - destruct (rs_tables _ _ _ _ _ Hrs _ _ _ Hm) as (_ & Hmw & Hmc & Hm1).
    assert (snds ≠ VObj m) as Hne.
    { intros Heq. destruct (Hsnds m Heq). congruence. }
    destruct (Hsame w1) as [Hkeys Hjobs]; [done|].
    pose proof (sounds_loop_run snds m E w1 Hm1 Hne) as Hloop.
    cbv zeta in Hloop. rewrite Hkeys in Hloop.
    destruct Hloop as [->|(wt & X & -> & Hwt & Hctx)]; mrun.
    + unfold set_prop. mrun. eexists _, _. split; [reflexivity|].
      set (keys := (map_to_list (own_enum (heap w) snds)).*1).
      set (E' := pending_over keys E).
      pose proof (rs_alter_table _ _ _ _ _ _ _ _ (λ _, E') Hrs Hm) as Hrs1.
      assert (result_state w
                (upd_heap (alter (set_own "audioBuffers" (VObj m)) c)
                   (sounds_world w1 snds m E keys)) c
                (<["audioBuffers" := (m, E')]>
                   (<["audioBuffers" := (m, E')]> (clone_tables (heap w) v P)))
                (gain_of (heap w) v)) as Hrs2.
      { eapply rs_same_heap;
          [| |apply (rs_set_field _ _ _ _ _ "audioBuffers" m E' Hrs1)].
        - simpl. by rewrite (alter_as_insert _ _ _ _ Hm1).
        - done.
        - set_solver.
        - done.
        - done.
        - simpl. by rewrite lookup_alter_eq, Hm1.
        - intros f' m' E'' Hf' HT' ->. rewrite lookup_insert_ne in HT' by done.
          by destruct (Hf' (rs_distinct _ _ _ _ _ Hrs _ _ _ _ _ HT' Hm)). }
      split; [apply Hrs2|]. split; [apply Hc|].
      intros r' [= <-]. eexists c, _, m. split; [done|]. split; [exact Hrs2|].
      split; [|split; [|split]].
      * rewrite lookup_insert_eq. unfold submap, E'.
        unfold copy_of in Hcopy. rewrite decide_True in Hcopy by set_solver.
        destruct (truthy (prop_of (heap w) v "audioBuffers")); [|done].
        by injection Hcopy as ->.
      * intros f Hf. rewrite !lookup_insert_ne by done. apply HT.
      * simpl. rewrite (b_trace _ _ _ _ _ _ Hc). f_equal.
        apply list_fmap_ext. intros _ k _. simpl. by rewrite Hjobs.
      * simpl. rewrite (b_decodes _ _ _ _ _ _ Hc). f_equal.
        apply list_fmap_ext. intros _ k _. by rewrite Hjobs.
    + eexists _, _. split; [reflexivity|]. split; [|split; [|done]].
      * eapply stable_overwrite_new; [apply Hrs| |]; done.
      * by rewrite Hctx, (b_context _ _ _ _ _ _ Hc).
  - unfold new_object at 1. set (w2 := upd_heap _ w1). mrun.
    pose proof (fresh_loc_None w1) as Ht1. set (t := fresh_loc w1) in *.
    assert (heap w2 !! t = Some (Obj KPlain ∅)) as Ht2
      by (simpl; apply lookup_insert_eq).
    assert (∀ l o, heap w1 !! l = Some o → heap w2 !! l = Some o) as Hold2
      by (intros; by apply alloc_old).
    assert (snds ≠ VObj t) as Hne.
    { intros Heq. destruct (Hsnds t Heq) as [o Ho].
      apply Hold1 in Ho. congruence. }
    destruct (Hsame w2) as [Hkeys Hjobs]; [done|].
    pose proof (sounds_loop_run snds t ∅ w2 Ht2 Hne) as Hloop.
    cbv zeta in Hloop. rewrite Hkeys in Hloop.
    assert (heap w !! t = None) as Htw
      by (apply (stable_fresh w w1); [apply Hrs | done]).
    destruct Hloop as [->|(wt & X & -> & Hwt & Hctx)]; mrun.
    + unfold set_prop. mrun. eexists _, _. split; [reflexivity|].
      set (keys := (map_to_list (own_enum (heap w) snds)).*1).
      set (E' := pending_over keys ∅).
      assert (result_state w
                (upd_heap (alter (set_own "audioBuffers" (VObj t)) c)
                   (sounds_world w2 snds t ∅ keys)) c
                (<["audioBuffers" := (t, E')]> (clone_tables (heap w) v P))
                (gain_of (heap w) v)) as Hrs2.
      { eapply rs_same_heap;
          [| |apply (rs_new_table _ _ _ _ _ "audioBuffers" E' Hrs)].
        - simpl. by rewrite insert_insert_eq.
        - done.
        - set_solver. }
      split; [apply Hrs2|]. split; [apply Hc|].
      intros r' [= <-]. eexists c, _, t. split; [done|]. split; [exact Hrs2|].
      split; [|split; [|split]].
      * rewrite lookup_insert_eq. unfold submap, E'.
        unfold copy_of in Hcopy. rewrite decide_True in Hcopy by set_solver.
        destruct (truthy (prop_of (heap w) v "audioBuffers")) eqn:Hab; [done|].
        by rewrite falsy_own_enum.
      * intros f Hf. rewrite !lookup_insert_ne by done. apply HT.
      * simpl. rewrite (b_trace _ _ _ _ _ _ Hc). f_equal.
        apply list_fmap_ext. intros _ k _. simpl. by rewrite Hjobs.
      * simpl. rewrite (b_decodes _ _ _ _ _ _ Hc). f_equal.
        apply list_fmap_ext. intros _ k _. by rewrite Hjobs.
    + eexists _, _. split; [reflexivity|]. split; [|split; [|done]].
      * apply (stable_overwrite_new w w1 wt t (Obj KPlain X)); [apply Hrs|done|].
        rewrite Hwt. simpl. by rewrite insert_insert_eq.
      * rewrite Hctx. apply (b_context _ _ _ _ _ _ Hc).
Qed.

(** ** locate *)

(** Whatever [cloneData] creates is a plain object. *)
Lemma cloned_new_plain w data c P w1 l o :
  cloned w data c P w1 → heap w1 !! l = Some o →
  okind o = KPlain ∨ heap w !! l = Some o.
Proof.
  intros Hc Hl. destruct (heap w !! l) as [o'|] eqn:Hw.
  - right. apply (b_old _ _ _ _ _ _ Hc) in Hw. congruence.
  - left. destruct (b_new _ _ _ _ _ _ Hc l Hw (mk_is_Some _ _ Hl))
      as [->|(f & Hf & HP)].
    + rewrite (b_record _ _ _ _ _ _ Hc) in Hl. by injection Hl as <-.
    + pose proof (cloned_field _ _ _ _ _ f Hc Hf) as Hfield.
      rewrite HP in Hfield. destruct Hfield as (m & [= <-] & _ & _ & _ & Hm).
      rewrite Hm in Hl. by injection Hl as <-.
Qed.

(** The three blocks of [locate] after the clone. *)
Definition ensure_locations (value : val) : M () :=
  locations ← get_prop value "locations";
  if negb (truthy locations) then
    empty ← new_object KPlain ∅; set_prop value "locations" empty
  else mret tt.

Definition ensure_panner (value id : val) : M () :=
  panner ← get_entry value "locations" id;
  if negb (truthy panner) then
    locations ← get_prop value "locations";
    panner ← context_createPanner;
    set_prop locations (to_key id) panner
  else mret tt.

Definition override (value id options : val) : M () :=
  for_in options (λ prop,
    hasOwnProperty options prop ≫= λ own : bool,
    if own then
      panner ← get_entry value "locations" id;
      x ← get_prop options prop;
      set_prop panner prop x
    else mret tt).

Lemma bind_assoc {A B C} (m : M A) (f : A → M B) (g : B → M C) w :
  ((m ≫= f) ≫= g) w = (m ≫= (λ x, f x ≫= g)) w.
Proof. rewrite !bind_run. by destruct (m w) as [[a|e] w1]. Qed.

Lemma bind_ext {A B} (m : M A) (f g : A → M B) w :
  (∀ a w', f a w' = g a w') → (m ≫= f) w = (m ≫= g) w.
Proof. intros Hfg. rewrite !bind_run. by destruct (m w) as [[a|e] w1]. Qed.

Lemma locate_unfold value args w :
  locate value args w =
  (value ← cloneData value;
   ensure_locations value ;;
   ensure_panner value (arg 0 args) ;;
   panner ← get_entry value "locations" (arg 0 args);
   setPosition panner (or_else (arg 1 args) (VNum 0)) (or_else (arg 2 args) (VNum 0))
     (or_else (arg 3 args) (VNum 0)) ;;
   (if truthy (arg 4 args) then override value (arg 0 args) (arg 4 args)
    else mret tt) ;;
   mret value) w.
Proof.
  unfold locate, ensure_locations, ensure_panner.
  apply bind_ext. intros c w1. rewrite bind_assoc.
  apply bind_ext. intros x w2. apply bind_ext. intros [] w3.
  by rewrite bind_assoc.
Qed.

Lemma ensure_locations_spec w w1 c T g :
  result_state w w1 c T g →
  (∀ l o, heap w !! l = Some o → heap w1 !! l = Some o) →
  ∃ t T' w2,
    ensure_locations (VObj c) w1 = (Ok tt, w2) ∧
    result_state w w2 c T' g ∧
    T' !! "locations" = Some (t, default ∅ (snd <$> T !! "locations")) ∧
    (∀ f, f ≠ "locations" → T' !! f = T !! f) ∧
    (∀ l o, heap w !! l = Some o → heap w2 !! l = Some o) ∧
    (∀ l o, heap w2 !! l = Some o → okind o = KPlain ∨ heap w1 !! l = Some o) ∧
    trace w2 = trace w1 ∧ decodes w2 = decodes w1.
Proof.
  intros Hrs Hold. unfold ensure_locations. mrun.
  rewrite get_prop_run. cbn [nullish]. mrun.
  rewrite (rs_field _ _ _ _ _ _ Hrs) by set_solver.
  destruct (T !! "locations") as [[t E]|] eqn:Ht;
    cbn [from_option compose fst truthy negb]; mrun.
  - exists t, T, w1. rewrite Ht. repeat (split; [done|]). split; [eauto|done].
  - unfold new_object at 1. mrun. unfold set_prop. mrun.
    eexists (fresh_loc w1), _, _. split; [reflexivity|].
    split; [apply (rs_new_table _ _ _ _ _ "locations" ∅ Hrs); set_solver|].
    split; [apply lookup_insert_eq|].
    split; [intros f Hf; by rewrite lookup_insert_ne|].
    pose proof (fresh_loc_None w1).
    pose proof (rs_fresh _ _ _ _ _ Hrs).
    split; [|split; [|done]]; intros l o Hl; simpl in *.
    + pose proof (Hold _ _ Hl).
      rewrite lookup_alter_ne, lookup_insert_ne by congruence. done.
    + destruct (decide (c = l)) as [<-|Hcl].
      * left. destruct Hrs as [_ _ _ (P & Hc & _) _ _].
        rewrite lookup_alter_eq, lookup_insert_ne, Hc in Hl by congruence.
        simpl in Hl. by injection Hl as <-.
      * rewrite lookup_alter_ne in Hl by done.
        destruct (decide (fresh_loc w1 = l)) as [<-|Hne].
        -- left. rewrite lookup_insert_eq in Hl. by injection Hl as <-.
        -- right. by rewrite lookup_insert_ne in Hl.
Qed.

Lemma rs_table_prop w w1 c T g f t E k :
  result_state w w1 c T g → T !! f = Some (t, E) →
  prop_of (heap w1) (VObj t) k = default VUndef (E !! k).
Proof.
  intros Hrs Ht. destruct (rs_tables _ _ _ _ _ Hrs _ _ _ Ht) as (_ & _ & _ & Hm).
  unfold prop_of. simpl. rewrite Hm. simpl. by destruct (E !! k).
Qed.

Lemma rs_entry_run w w1 c T g f t E key :
  result_state w w1 c T g → T !! f = Some (t, E) →
  get_entry (VObj c) f key w1 = (Ok (default VUndef (E !! to_key key)), w1).
Proof.
  intros Hrs Ht.
  destruct (rs_tables _ _ _ _ _ Hrs _ _ _ Ht) as (Hf & _).
  rewrite get_entry_run; [|done|];
    rewrite (rs_field _ _ _ _ _ _ Hrs Hf), Ht; [|done].
  simpl. by rewrite (rs_table_prop _ _ _ _ _ _ _ _ _ Hrs Ht).
Qed.

Lemma context_createPanner_run w :
  context_createPanner w =
  if audioContext w then
    (Ok (VObj (fresh_loc w)),
     upd_trace (λ t, t ++ [ECreatePanner (VObj (fresh_loc w))])
       (upd_heap (<[fresh_loc w := Obj KPanner ∅]>) w))
  else (Throw TypeError, w).
Proof.
  unfold context_createPanner. mrun. rewrite context_run.
  by destruct (audioContext w).
Qed.

Lemma ensure_panner_spec w w2 c T g t E id :
  result_state w w2 c T g →
  T !! "locations" = Some (t, E) →
  (∀ l o, heap w !! l = Some o → heap w2 !! l = Some o) →
  if truthy (default VUndef (E !! to_key id)) then
    ensure_panner (VObj c) id w2 = (Ok tt, w2)
  else if audioContext w2 then
    ∃ w3,
      ensure_panner (VObj c) id w2 = (Ok tt, w3) ∧
      result_state w w3 c
        (<["locations" := (t, <[to_key id := VObj (fresh_loc w2)]> E)]> T) g ∧
      heap w3 !! fresh_loc w2 = Some (Obj KPanner ∅) ∧
      (∀ l o, heap w !! l = Some o → heap w3 !! l = Some o) ∧
      trace w3 = trace w2 ++ [ECreatePanner (VObj (fresh_loc w2))] ∧
      decodes w3 = decodes w2 ∧ audioContext w3 = audioContext w2
  else ensure_panner (VObj c) id w2 = (Throw TypeError, w2).
Proof.
  intros Hrs Ht Hold. unfold ensure_panner. mrun.
  rewrite (rs_entry_run _ _ _ _ _ _ _ _ _ Hrs Ht). mrun.
  destruct (truthy (default VUndef (E !! to_key id))); cbn [negb]; [done|].
  mrun. rewrite get_prop_run. cbn [nullish]. mrun.
  destruct (rs_tables _ _ _ _ _ Hrs _ _ _ Ht) as (Hf & Htw & Htc & Ht2).
  rewrite (rs_field _ _ _ _ _ _ Hrs Hf), Ht. cbn [from_option compose fst].
  rewrite context_createPanner_run.
  destruct (audioContext w2) eqn:Hctx; [|done].
  mrun. unfold set_prop. mrun. eexists. split; [reflexivity|].
  pose proof (fresh_loc_None w2) as Hp.
  assert (fresh_loc w2 ≠ t) as Hpt by congruence.
  split; [|split; [|split; [|done]]].
  - eapply rs_same_heap; [| |apply (rs_alter_table _ _ _ _ _ _ _ _
        (<[to_key id := VObj (fresh_loc w2)]>) (rs_alloc _ _ _ _ _ (Obj KPanner ∅) Hrs) Ht)];
      done.
  - simpl. by rewrite lookup_alter_ne, lookup_insert_eq.
  - intros l o Hl. simpl. pose proof (Hold _ _ Hl).
    rewrite lookup_alter_ne, lookup_insert_ne by congruence. done.
Qed.

Lemma prop_of_obj h l o k x :
  h !! l = Some o → props o !! k = Some x → prop_of h (VObj l) k = x.
Proof. intros Hl Hk. unfold prop_of. simpl. rewrite Hl. simpl. by rewrite Hk. Qed.

(** The option overrides land on the panner [pl] that the record [c]
    holds for [id], whatever [options] is (the panner itself included). *)
Lemma override_run c id options w t pl oc ot K Pp :
  heap w !! c = Some oc → props oc !! "locations" = Some (VObj t) →
  heap w !! t = Some ot → props ot !! to_key id = Some (VObj pl) →
  heap w !! pl = Some (Obj K Pp) →
  c ≠ pl → t ≠ pl →
  override (VObj c) id options w =
  (Ok tt, upd_heap (<[pl := Obj K (own_enum (heap w) options ∪ Pp)]>) w).
Proof.
  intros Hc Hloc Ht Hid Hpl Hcp Htp. unfold override, for_in.
  set (O := own_enum (heap w) options).
  set (W := λ S, upd_heap (<[pl := Obj K (written O Pp S)]>) w).
  rewrite <- (written_keys O Pp).
  change (upd_heap _ w) with (W (map_to_list O).*1).
  assert (W [] = w) as HW by (by apply upd_heap_insert_id).
  rewrite <- HW at 1. apply for_each_path. intros S k S' Hl.
  pose proof (key_in_source _ _ _ _ Hl) as Hk.
  assert (own_enum (heap (W S)) options !! k = O !! k) as Hread
    by (by apply own_enum_target).
  assert (nullish options = false) as Hnull.
  { destruct (nullish options) eqn:Hn; [|done].
    apply (nullish_own_enum (heap w)) in Hn. fold O in Hn.
    rewrite Hn, lookup_empty in Hk. by destruct Hk. }
  assert (heap (W S) !! c = Some oc) as Hc'
    by (unfold W; simpl; by rewrite lookup_insert_ne).
  assert (heap (W S) !! t = Some ot) as Ht'
    by (unfold W; simpl; by rewrite lookup_insert_ne).
  mrun. rewrite hasOwnProperty_run, Hnull, Hread.
  rewrite bool_decide_eq_true_2 by done. mrun.
  rewrite get_entry_run; [|done|];
    rewrite (prop_of_obj _ _ _ _ _ Hc' Hloc); [|done].
  rewrite (prop_of_obj _ _ _ _ _ Ht' Hid). mrun.
  rewrite get_prop_run, Hnull. mrun.
  destruct Hk as [x Hx]. rewrite (prop_of_own _ _ _ x) by (by rewrite Hread).
  unfold W, set_prop, upd_heap. simpl.
  by rewrite alter_insert_eq, written_snoc, Hx.
Qed.

(** The properties [locate] is asked to set on the panner. *)
Definition overrides (h : gmap loc object) (options : val) : gmap string val :=
  if truthy options then own_enum h options else ∅.

Lemma locate_finish w w4 c T g t E id pl options :
  result_state w w4 c T g →
  T !! "locations" = Some (t, E) →
  E !! to_key id = Some (VObj pl) →
  kind_of (heap w4) (VObj pl) = Some KPanner →
  (∀ l o, heap w !! l = Some o → heap w4 !! l = Some o) →
  allocated (heap w) options →
  ∃ w5,
    ((if truthy options then override (VObj c) id options else mret tt) ;;
     mret (VObj c)) w4 = (Ok (VObj c), w5) ∧
    result_state w w5 c T g ∧
    kind_of (heap w5) (VObj pl) = Some KPanner ∧
    own_enum (heap w5) (VObj pl) =
      overrides (heap w) options ∪ own_enum (heap w4) (VObj pl) ∧
    (∀ l o, heap w4 !! l = Some o → l ≠ pl → heap w5 !! l = Some o) ∧
    trace w5 = trace w4 ∧ decodes w5 = decodes w4.
Proof.
  intros Hrs Ht Hid Hkind Hold Hopt. unfold overrides.
  destruct (truthy options) eqn:Htruthy; mrun.
  - destruct (rs_tables _ _ _ _ _ Hrs _ _ _ Ht) as (Hf & _ & Htc & Ht4).
    pose proof Hrs as [Hfresh Hstable Hctx (P & Hc & HP) Htab Hdist].
    simpl in Hkind. destruct (heap w4 !! pl) as [[K Pp]|] eqn:Hpl; [|done].
    simpl in Hkind. injection Hkind as ->.
    assert (c ≠ pl) as Hcp by (intros ->; congruence).
    assert (t ≠ pl) as Htp by (intros ->; congruence).
    rewrite (override_run c id options w4 t pl (Obj KPlain P) (Obj KPlain E)
               KPanner Pp); try done.
    2: { simpl. rewrite HP. unfold record_props.
         rewrite decide_False by done. by rewrite Ht. }
    mrun. eexists. split; [reflexivity|].
    rewrite (own_enum_old (heap w) (heap w4)) by done.
    set (X := own_enum (heap w) options ∪ Pp).
    assert (heap (upd_heap (<[pl := Obj KPanner X]>) w4) =
            heap (upd_heap (alter (on_props (λ _, X)) pl) w4)) as Hheap.
    { simpl. by rewrite (alter_as_insert _ _ _ _ Hpl). }
    split; [|split; [|split; [|split; [|done]]]].
    + eapply rs_same_heap; [exact Hheap|done|].
      eapply (rs_alter_other _ _ _ _ _ _ KPanner);
        [exact Hrs | simpl; by rewrite Hpl | done |].
      apply stable_alter_panner; [done | simpl; by rewrite Hpl | done].
    + simpl. by rewrite lookup_insert_eq.
    + simpl. by rewrite lookup_insert_eq, Hpl.
    + intros l o Hl Hne. simpl. by rewrite lookup_insert_ne.
  - exists w4. split; [done|]. split; [done|]. split; [done|].
    split; [by rewrite (left_id_L ∅ (∪))|]. eauto.
Qed.

Definition is_ok {A} (r : res A) : Prop := ∃ a, r = Ok a.

(** [value.locations[id]] in the state [v] *)
Definition old_panner (h : gmap loc object) (v id : val) : val :=
  default VUndef (submap h v "locations" !! to_key id).

Definition position (args : list val) (p : val) : event :=
  ESetPosition p (or_else (arg 1 args) (VNum 0)) (or_else (arg 2 args) (VNum 0))
    (or_else (arg 3 args) (VNum 0)).

(** What a call of [locate] that returns [r'] has done. *)
Definition located (w : world) (v : val) (args : list val) (r' : val)
    (w' : world) : Prop :=
  ∃ c T t pl,
    r' = VObj c ∧
    result_state w w' c T (gain_of (heap w) v) ∧
    T !! "locations" =
      Some (t, <[to_key (arg 0 args) := VObj pl]> (submap (heap w) v "locations")) ∧
    (∀ f, f ≠ "locations" → snd <$> T !! f = copy_of (heap w) v f) ∧
    kind_of (heap w') (VObj pl) = Some KPanner ∧
    own_enum (heap w') (VObj pl) =
      overrides (heap w) (arg 4 args) ∪ own_enum (heap w) (VObj pl) ∧
    (∀ l o, heap w !! l = Some o → l ≠ pl → heap w' !! l = Some o) ∧
    if truthy (old_panner (heap w) v (arg 0 args)) then
      old_panner (heap w) v (arg 0 args) = VObj pl ∧
      kind_of (heap w) (VObj pl) = Some KPanner ∧
      trace w' = trace w ++ [position args (VObj pl)]
    else
      heap w !! pl = None ∧
      trace w' = trace w ++ [ECreatePanner (VObj pl); position args (VObj pl)].

Lemma setPosition_run p x y z w :
  setPosition p x y z w =
  match kind_of (heap w) p with
  | Some KPanner => (Ok tt, upd_trace (λ t, t ++ [ESetPosition p x y z]) w)
  | _ => (Throw TypeError, w)
  end.
Proof. reflexivity. Qed.

Lemma locate_spec v args w :
  clonable (heap w) v →
  allocated (heap w) (arg 4 args) →
  ∃ r w',
    locate v args w = (r, w') ∧ stable w w' ∧
    audioContext w' = audioContext w ∧ decodes w' = decodes w ∧
    (∀ r', r = Ok r' → located w v args r' w') ∧
    (truthy (old_panner (heap w) v (arg 0 args)) = true →
     kind_of (heap w) (old_panner (heap w) v (arg 0 args)) = Some KPanner →
     is_ok r) ∧
    (truthy (old_panner (heap w) v (arg 0 args)) = false →
     audioContext w = true → is_ok r).
Proof.
  intros Hv Hopt.
  destruct (cloneData_spec v w Hv) as (c & P & w1 & Hclone & Hc).
  destruct (result_of_cloned _ _ _ _ _ Hc) as [Hrs0 HT].
  pose proof (b_old _ _ _ _ _ _ Hc) as Hold1.
  destruct (ensure_locations_spec _ _ _ _ _ Hrs0 Hold1)
    as (t & T1 & w2 & Hensure & Hrs & Hloc & Hother & Hold & Hnew & Htr & Hdec).
  rewrite HT, copy_of_submap in Hloc by set_solver.
  set (E := submap (heap w) v "locations") in *.
  assert (∀ f, f ≠ "locations" → snd <$> T1 !! f = copy_of (heap w) v f)
    as Hother'.
  { intros f Hf. rewrite Hother by done. apply HT. }
  assert (∀ l o, heap w2 !! l = Some o → okind o = KPlain ∨ heap w !! l = Some o)
    as Hnew'.
  { intros l o Hl. destruct (Hnew l o Hl) as [|Hl1]; [by left|].
    by apply (cloned_new_plain _ _ _ _ _ _ _ Hc). }
  assert (trace w2 = trace w) as Htr2
    by (by rewrite Htr, (b_trace _ _ _ _ _ _ Hc)).
  assert (decodes w2 = decodes w) as Hdec2
    by (by rewrite Hdec, (b_decodes _ _ _ _ _ _ Hc)).
  pose proof (rs_context _ _ _ _ _ Hrs) as Hctx2.
  pose proof (ensure_panner_spec _ _ _ _ _ _ _ (arg 0 args) Hrs Hloc Hold) as Hpan.
  rewrite locate_unfold. mrun. rewrite Hclone. mrun. rewrite Hensure. mrun.
  unfold old_panner. fold E. set (old := default VUndef (E !! to_key (arg 0 args))) in *.
  destruct (truthy old) eqn:Htruthy.
  - (* the identifier already has a panner *)
    rewrite Hpan. mrun.
    rewrite (rs_entry_run _ _ _ _ _ _ _ _ (arg 0 args) Hrs Hloc). fold old. mrun.
    rewrite setPosition_run.
    destruct (kind_of (heap w2) old) as [K|] eqn:Hkind.
    2: { eexists _, _. split; [reflexivity|]. split; [apply Hrs|].
         repeat split; try done.
         intros _ Hk. apply (kind_of_old _ (heap w2)) in Hk; [congruence|done]. }
    assert (K ≠ KPanner → ∃ r w',
              (Throw TypeError : res val, w2) = (r, w') ∧ stable w w' ∧
              audioContext w' = audioContext w ∧ decodes w' = decodes w ∧
              (∀ r', r = Ok r' → located w v args r' w') ∧
              (true = true → kind_of (heap w) old = Some KPanner → is_ok r) ∧
              (true = false → audioContext w = true → is_ok r)) as Hthrow.
    { intros HK. eexists _, _. split; [reflexivity|]. split; [apply Hrs|].
      repeat split; try done.
      intros _ Hk. apply (kind_of_old _ (heap w2)) in Hk; [congruence|done]. }
    destruct K; try (apply Hthrow; congruence). clear Hthrow.
    destruct old as [| | | | |pl] eqn:Hold_eq; try done.
    assert (kind_of (heap w) (VObj pl) = Some KPanner) as Hkw.
    { simpl in *. destruct (heap w2 !! pl) as [o|] eqn:Hpl; [|done].
      simpl in Hkind. injection Hkind as Hk.
      destruct (Hnew' _ _ Hpl) as [|Hplw]; [congruence|].
      rewrite Hplw. simpl. by rewrite Hk. }
    cbv beta iota. set (w4 := upd_trace _ w2).
    assert (E !! to_key (arg 0 args) = Some (VObj pl)) as HE.
    { unfold old in Hold_eq.
      destruct (E !! to_key (arg 0 args)); simpl in Hold_eq; congruence. }
    assert (result_state w w4 c T1 (gain_of (heap w) v)) as Hrs4
      by (eapply rs_same_heap; [| |exact Hrs]; done).
    destruct (locate_finish w w4 c T1 (gain_of (heap w) v) t E (arg 0 args) pl
                (arg 4 args))
      as (w5 & -> & Hrs5 & Hk5 & Hown5 & Hold5 & Htr5 & Hdec5); try done.
    eexists _, _. split; [reflexivity|]. split; [apply Hrs5|].
    split; [apply Hrs5|]. split; [by rewrite Hdec5|].
    split; [|split; [by eexists|done]].
    intros r' [= <-]. exists c, T1, t, pl. split; [done|]. split; [done|].
    split; [by rewrite insert_id|]. split; [done|]. split; [done|].
    split.
    { rewrite Hown5. f_equal. simpl in *.
      destruct (heap w !! pl) as [o|] eqn:Hplw; [|done].
      by rewrite (Hold _ _ Hplw). }
    split; [intros l o Hl Hne; apply Hold5; [by apply Hold | done]|].
    unfold old_panner. fold E. rewrite HE. simpl.
    repeat split; try done. by rewrite Htr5, <- Htr2.
  - (* a panner has to be made *)
    destruct (audioContext w2) eqn:Hctx.
    2: { rewrite Hpan. eexists _, _. split; [reflexivity|]. split; [apply Hrs|].
         split; [congruence|]. split; [done|]. split; [done|]. split; [done|].
         intros _ Hcw. congruence. }
    destruct Hpan as (w3 & -> & Hrs3 & Hpl3 & Hold3 & Htr3 & Hdec3 & Hctx3).
    set (pl := fresh_loc w2) in *. mrun.
    assert (heap w !! pl = None) as Hplw.
    { apply (stable_fresh w w2); [apply Hrs | apply fresh_loc_None]. }
    rewrite (rs_entry_run _ _ _ _ _ _ _ _ (arg 0 args) Hrs3 (lookup_insert_eq _ _ _)).
    rewrite lookup_insert_eq. cbn [default from_option]. mrun.
    rewrite setPosition_run. simpl kind_of. rewrite Hpl3.
    cbn [fmap option_fmap option_map okind]. cbv beta iota.
    set (w4 := upd_trace _ w3).
    assert (result_state w w4 c
              (<["locations" := (t, <[to_key (arg 0 args) := VObj pl]> E)]> T1)
              (gain_of (heap w) v)) as Hrs4
      by (eapply rs_same_heap; [| |exact Hrs3]; done).
    destruct (locate_finish w w4 c _ _ t _ (arg 0 args) pl (arg 4 args) Hrs4
                (lookup_insert_eq _ _ _) (lookup_insert_eq _ _ _))
      as (w5 & -> & Hrs5 & Hk5 & Hown5 & Hold5 & Htr5 & Hdec5); try done.
    { simpl. by rewrite Hpl3. }
    eexists _, _. split; [reflexivity|]. split; [apply Hrs5|].
    split; [apply Hrs5|]. split; [by rewrite Hdec5, <- Hdec2|].
    split; [|split; [done|by eexists]].
    intros r' [= <-]. eexists c, _, t, pl. split; [done|]. split; [exact Hrs5|].
    split; [apply lookup_insert_eq|].
    split; [intros f Hf; rewrite lookup_insert_ne by done; by apply Hother'|].
    split; [done|]. split.
    { rewrite Hown5. simpl. by rewrite Hpl3, Hplw. }
    split.
    { intros l o Hl Hne. apply Hold5; [|done]. simpl. by apply Hold3. }
    unfold old_panner. fold E. fold old. rewrite Htruthy.
    split; [done|]. rewrite Htr5. simpl. rewrite Htr3, Htr2, <- app_assoc. done.
Qed.

(** ** listenAt, orient, cone *)

Lemma listenAt_run v args w :
  listenAt v args w =
  if audioContext w then
    (Ok v, upd_trace (λ t, t ++ [EListenerSetPosition
                                   (or_else (arg 0 args) (VNum 0))
                                   (or_else (arg 1 args) (VNum 0))
                                   (or_else (arg 2 args) (VNum 0))]) w)
  else (Throw TypeError, w).
Proof.
  unfold listenAt, listener_setPosition. mrun. rewrite context_run.
  by destruct (audioContext w).
Qed.

(** [value.panners && value.panners[id]] *)
Definition panner_of (h : gmap loc object) (value id : val) : val :=
  if truthy (prop_of h value "panners")
  then prop_of h (prop_of h value "panners") (to_key id)
  else prop_of h value "panners".

Lemma orient_run v args w :
  nullish v = false →
  orient v args w =
  if truthy (panner_of (heap w) v (arg 0 args)) then
    match kind_of (heap w) (panner_of (heap w) v (arg 0 args)) with
    | Some KPanner =>
        (Ok v, upd_trace (λ t, t ++ [ESetOrientation (panner_of (heap w) v (arg 0 args))
                                       (or_else (arg 1 args) (VNum 0))
                                       (or_else (arg 2 args) (VNum 0))
                                       (or_else (arg 3 args) (VNum 0))]) w)
    | _ => (Throw TypeError, w)
    end
  else (Ok v, w).
Proof.
  intros Hnull. unfold orient. mrun. rewrite and_entry_run by done. mrun.
  change (if truthy (prop_of (heap w) v "panners") then _ else _)
    with (panner_of (heap w) v (arg 0 args)).
  destruct (truthy (panner_of (heap w) v (arg 0 args))) eqn:Hp; mrun.
  2: { done. }
  assert (truthy (prop_of (heap w) v "panners") = true) as Hps.
  { unfold panner_of in Hp.
    destruct (truthy (prop_of (heap w) v "panners")) eqn:Hps; [done | congruence]. }
  rewrite get_entry_run by done.
  replace (prop_of (heap w) (prop_of (heap w) v "panners") (to_key (arg 0 args)))
    with (panner_of (heap w) v (arg 0 args)) by (unfold panner_of; by rewrite Hps).
  mrun. unfold setOrientation, emit.
  by destruct (kind_of (heap w) (panner_of (heap w) v (arg 0 args))) as [[]|].
Qed.

Lemma cone_run v args w :
  nullish v = false →
  cone v args w =
  if truthy (panner_of (heap w) v (arg 0 args)) && negb (is_str (arg 0 args) "listener")
  then (Throw TypeError, w)
  else (Ok v, w).
Proof.
  intros Hnull. unfold cone. mrun. unfold js_and at 1. mrun.
  rewrite get_prop_run, Hnull. mrun. unfold panner_of.
  destruct (truthy (prop_of (heap w) v "panners")) eqn:Hps; mrun.
  2: { by rewrite Hps. }
  unfold js_and. mrun. rewrite get_entry_run by done. mrun.
  destruct (truthy (prop_of (heap w) (prop_of (heap w) v "panners")
                      (to_key (arg 0 args)))) eqn:Hp; mrun.
  2: { by rewrite Hp. }
  destruct (is_str (arg 0 args) "listener"); simpl; mrun; [done|].
  rewrite get_entry_run by done. by mrun.
Qed.

(** ** States *)

Definition plain (h : gmap loc object) (v : val) : Prop :=
  kind_of h v = Some KPlain.

(** A state, as the data model has it: a plain record whose three mapping
    fields are absent or plain mappings. *)
Definition is_state (h : gmap loc object) (v : val) : Prop :=
  plain h v ∧
  ∀ f, f ∈ mapping_fields → prop_of h v f = VUndef ∨ plain h (prop_of h v f).

Definition args_allocated (h : gmap loc object) (args : list val) : Prop :=
  ∀ i, allocated h (arg i args).

Lemma plain_allocated h v : plain h v → allocated h v.
Proof.
  unfold plain. intros Hp l ->. simpl in Hp.
  destruct (h !! l); [eauto | done].
Qed.

Lemma plain_not_nullish h v : plain h v → nullish v = false.
Proof. by destruct v. Qed.

Lemma is_state_clonable h v : is_state h v → clonable h v.
Proof.
  intros [Hp Hf]. split; [by apply (plain_not_nullish h)|].
  split; [by apply plain_allocated|].
  intros f Hin. destruct (Hf f Hin) as [->|Hpf]; [done|].
  by apply plain_allocated.
Qed.

Lemma stable_plain w w' v : stable w w' → plain (heap w) v → plain (heap w') v.
Proof. intros Hs Hp. by apply (stable_kind w w'). Qed.

Lemma stable_state_prop w w' v k :
  stable w w' → plain (heap w) v → prop_of (heap w') v k = prop_of (heap w) v k.
Proof. intros Hs Hp. by apply (stable_prop_of w w' v KPlain). Qed.

Lemma is_state_stable w w' v :
  stable w w' → is_state (heap w) v → is_state (heap w') v.
Proof.
  intros Hs [Hp Hf]. split; [by apply (stable_plain w)|].
  intros f Hin. rewrite (stable_state_prop w w') by done.
  destruct (Hf f Hin) as [|Hpf]; [by left|]. right. by apply (stable_plain w).
Qed.

Lemma rs_plain w w' c T g : result_state w w' c T g → plain (heap w') (VObj c).
Proof. intros [_ _ _ (P & Hc & _) _ _]. unfold plain. simpl. by rewrite Hc. Qed.

Lemma rs_is_state w w' c T g :
  result_state w w' c T g → is_state (heap w') (VObj c).
Proof.
  intros Hrs. split; [by apply (rs_plain w w' c T g)|].
  intros f Hf. rewrite (rs_field _ _ _ _ _ _ Hrs Hf).
  destruct (T !! f) as [[m E]|] eqn:HT; [|by left]. right.
  destruct (rs_tables _ _ _ _ _ Hrs _ _ _ HT) as (_ & _ & _ & Hm).
  unfold plain. simpl. by rewrite Hm.
Qed.

(** What the state-transforming operations return: the state they were
    given, or a new record. *)
Definition outcome (w : world) (v : val) (w' : world) (r' : val) : Prop :=
  r' = v ∨
  ∃ c T g, r' = VObj c ∧ result_state w w' c T g ∧
           (g = gain_of (heap w) v ∨ truthy g = true).

Definition gain_free (evs : list event) : Prop := ∀ g, ECreateGain g ∉ evs.

(** The calls that reach [createMasterGain]. *)
Definition creates_gain (op : opname) (h : gmap loc object) (v : val)
    (args : list val) : bool :=
  match op with
  | MasterGain => true
  | Play => playable (buffer_of h v (arg 0 args))
            && negb (truthy (prop_of h v "masterGain"))
  | _ => false
  end.

(** [getAudioBuffers] is the one operation registered with
    [lift_value]. *)
Definition accessor (op : opname) : bool :=
  match op with
  | GetAudioBuffers => true
  | _ => false
  end.

(** The summary of a call that the chaining arguments use. *)
Definition summary (op : opname) (v : val) (args : list val) (w : world)
    (r : res val) (w' : world) : Prop :=
  stable w w' ∧ audioContext w' = audioContext w ∧
  ∀ r', r = Ok r' →
    (if accessor op then plain (heap w') r' else outcome w v w' r') ∧
    (creates_gain op (heap w) v args = false →
     ∃ evs, trace w' = trace w ++ evs ∧ gain_free evs).

Lemma gain_free_nil : gain_free [].
Proof. intros g Hg. by apply elem_of_nil in Hg. Qed.

Lemma same_trace_gain_free w w' :
  trace w' = trace w → ∃ evs, trace w' = trace w ++ evs ∧ gain_free evs.
Proof. intros ->. exists []. split; [by rewrite app_nil_r | apply gain_free_nil]. Qed.

Lemma summary_cloned op v args w c T w' :
  accessor op = false →
  result_state w w' c T (gain_of (heap w) v) →
  (∃ evs, trace w' = trace w ++ evs ∧ gain_free evs) →
  summary op v args w (Ok (VObj c)) w'.
Proof.
  intros Hop Hrs Htr. split; [apply Hrs|]. split; [apply Hrs|].
  intros r' [= <-]. rewrite Hop.
  split; [|done]. right. exists c, T, (gain_of (heap w) v). eauto.
Qed.

Lemma summary_throw op v args w w' :
  stable w w' → audioContext w' = audioContext w →
  summary op v args w (Throw TypeError) w'.
Proof. intros Hs Hc. by repeat split. Qed.

Lemma summary_same op v args w w' :
  accessor op = false →
  heap w' = heap w → audioContext w' = audioContext w →
  (∃ evs, trace w' = trace w ++ evs ∧ gain_free evs) →
  summary op v args w (Ok v) w'.
Proof.
  intros Hop Hh Hc Htr. split; [by apply (stable_heap w w), stable_refl|].
  split; [done|]. intros r' [= <-]. rewrite Hop.
  split; [by left | done].
Qed.

Ltac not_gain Hin :=
  repeat (apply elem_of_cons in Hin as [Hin|Hin]; [discriminate|]);
  by apply elem_of_nil in Hin.

Lemma summary_setAudioBuffers v args w r w' :
  is_state (heap w) v → args_allocated (heap w) args →
  setAudioBuffers v args w = (r, w') → summary SetAudioBuffers v args w r w'.
Proof.
  intros Hv Hargs Hrun.
  destruct (setAudioBuffers_spec v args w (is_state_clonable _ _ Hv) (Hargs 0%nat))
    as (c & T & w1 & Heq & Hrs & Htr & _).
  rewrite Heq in Hrun. injection Hrun as <- <-.
  eapply summary_cloned; [done | done | by apply same_trace_gain_free].
Qed.

Lemma summary_getAudioBuffers v args w r w' :
  is_state (heap w) v →
  getAudioBuffers v args w = (r, w') → summary GetAudioBuffers v args w r w'.
Proof.
  intros Hv Hrun. destruct (is_state_clonable _ _ Hv) as (Hnull & Hal & Hf).
  destruct (getAudioBuffers_spec v args w Hnull Hal)
    as (g & w1 & Heq & Hg & Hg1 & Hold & Htr & _ & Hctx); [apply Hf; set_solver|].
  rewrite Heq in Hrun. injection Hrun as <- <-.
  split; [by apply stable_old|]. split; [done|].
  intros r' [= <-]. split; [|intros _; by apply same_trace_gain_free].
  unfold plain. simpl. by rewrite Hg1.
Qed.

Lemma summary_masterGain v args w r w' :
  is_state (heap w) v →
  masterGain v args w = (r, w') → summary MasterGain v args w r w'.
Proof.
  intros Hv Hrun. pose proof (is_state_clonable _ _ Hv) as Hcl.
  destruct (audioContext w) eqn:Hctx.
  - destruct (masterGain_spec v args w Hcl Hctx)
      as (c & T & g & w1 & Heq & Hrs & _).
    rewrite Heq in Hrun. injection Hrun as <- <-.
    split; [apply Hrs|]. split; [by rewrite (rs_context _ _ _ _ _ Hrs)|].
    intros r' [= <-]. split; [|done]. right. exists c, T, (VObj g). eauto.
  - destruct (masterGain_no_context v args w Hcl Hctx)
      as (w1 & Heq & Hs & _ & _ & Hc).
    rewrite Heq in Hrun. injection Hrun as <- <-.
    apply summary_throw; [done | congruence].
Qed.

Lemma summary_remove_entry op field v args w r w' :
  accessor op = false → creates_gain op (heap w) v args = false →
  field ∈ mapping_fields →
  is_state (heap w) v →
  remove_entry field v args w = (r, w') → summary op v args w r w'.
Proof.
  intros Hop _ Hfield Hv Hrun.
  destruct (remove_entry_spec field v args w Hfield (is_state_clonable _ _ Hv))
    as (c & T & w1 & Heq & Hrs & Htr & _).
  rewrite Heq in Hrun. injection Hrun as <- <-.
  eapply summary_cloned; [done | done | by apply same_trace_gain_free].
Qed.

Lemma summary_sounds v args w r w' :
  is_state (heap w) v → args_allocated (heap w) args →
  sounds v args w = (r, w') → summary Sounds v args w r w'.
Proof.
  intros Hv Hargs Hrun.
  destruct (sounds_spec v args w (is_state_clonable _ _ Hv) (Hargs 0%nat))
    as (r0 & w1 & Heq & Hs & Hctx & Hok).
  rewrite Heq in Hrun. injection Hrun as <- <-.
  split; [done|]. split; [done|].
  intros r' ->. destruct (Hok r' eq_refl) as (c & T & t & -> & Hrs & _ & _ & Htr & _).
  split; [right; exists c, T, (gain_of (heap w) v); eauto|].
  intros _. eexists. split; [exact Htr|].
  intros g Hg. apply list_elem_of_fmap in Hg as (k & Hk & _). done.
Qed.

Lemma summary_addSound v args w r w' :
  is_state (heap w) v →
  addSound v args w = (r, w') → summary AddSound v args w r w'.
Proof.
  intros Hv Hrun. pose proof (is_state_clonable _ _ Hv) as Hcl.
  destruct (truthy (prop_of (heap w) v "audioBuffers")) eqn:Hab.
  - destruct (addSound_spec v args w Hcl Hab) as (c & T & m & w1 & Hrs & _ & _ & Hcase).
    destruct (payload_of (arg 1 args)) as [p|];
      [destruct (audioContext w)|]; destruct Hcase as (Heq & Htr & _);
      rewrite Heq in Hrun; injection Hrun as <- <-.
    + eapply summary_cloned; [done | done |].
      eexists. split; [exact Htr|]. intros g Hg. not_gain Hg.
    + apply summary_throw; apply Hrs.
    + apply summary_throw; apply Hrs.
  - destruct (addSound_no_table v args w Hcl Hab) as (w1 & Heq & Hs & _ & _ & Hc).
    rewrite Heq in Hrun. injection Hrun as <- <-. by apply summary_throw.
Qed.

Lemma summary_locate v args w r w' :
  is_state (heap w) v → args_allocated (heap w) args →
  locate v args w = (r, w') → summary Locate v args w r w'.
Proof.
  intros Hv Hargs Hrun.
  destruct (locate_spec v args w (is_state_clonable _ _ Hv) (Hargs 4%nat))
    as (r0 & w1 & Heq & Hs & Hctx & _ & Hok & _).
  rewrite Heq in Hrun. injection Hrun as <- <-.
  split; [done|]. split; [done|].
  intros r' ->.
  destruct (Hok r' eq_refl) as (c & T & t & pl & -> & Hrs & _ & _ & _ & _ & _ & Htr).
  split; [right; exists c, T, (gain_of (heap w) v); eauto|].
  intros _. destruct (truthy (old_panner (heap w) v (arg 0 args)));
    [destruct Htr as (_ & _ & Htr) | destruct Htr as (_ & Htr)];
    (eexists; split; [exact Htr|]); intros g Hg; unfold position in Hg; not_gain Hg.
Qed.

Lemma summary_listenAt v args w r w' :
  listenAt v args w = (r, w') → summary ListenAt v args w r w'.
Proof.
  rewrite listenAt_run. destruct (audioContext w) eqn:Hctx; intros [= <- <-].
  - apply summary_same; try done.
    eexists. split; [reflexivity|]. intros g Hg. not_gain Hg.
  - apply summary_throw; [apply stable_refl | done].
Qed.

Lemma summary_orient v args w r w' :
  is_state (heap w) v →
  orient v args w = (r, w') → summary Orient v args w r w'.
Proof.
  intros [Hp _]. rewrite orient_run by (by apply (plain_not_nullish (heap w))).
  destruct (truthy _).
  - destruct (kind_of _ _) as [[]|]; intros [= <- <-];
      try (apply summary_throw; [apply stable_refl | done]).
    apply summary_same; try done.
    eexists. split; [reflexivity|]. intros g Hg. not_gain Hg.
  - intros [= <- <-]. apply summary_same; try done.
    by apply same_trace_gain_free.
Qed.

Lemma summary_cone v args w r w' :
  is_state (heap w) v →
  cone v args w = (r, w') → summary Cone v args w r w'.
Proof.
  intros [Hp _]. rewrite cone_run by (by apply (plain_not_nullish (heap w))).
  destruct (_ && _); intros [= <- <-].
  - apply summary_throw; [apply stable_refl | done].
  - apply summary_same; try done. by apply same_trace_gain_free.
Qed.




Lemma rs_clonable w w1 c T g :
  result_state w w1 c T g → clonable (heap w1) (VObj c).
Proof. intros Hrs. by apply is_state_clonable, (rs_is_state w w1 c T g). Qed.

Lemma summary_play v args w r w' :
  is_state (heap w) v →
  play v args w = (r, w') → summary Play v args w r w'.
Proof.
  intros Hv Hrun. pose proof (is_state_clonable _ _ Hv) as Hcl.
  destruct Hcl as (Hnull & Hal & Hfields).
  destruct (playable (buffer_of (heap w) v (arg 0 args))) eqn:Hplay.
  2: { rewrite play_skip in Hrun by done. injection Hrun as <- <-.
       apply summary_same; try done. by apply same_trace_gain_free. }
  destruct (truthy (prop_of (heap w) v "masterGain")) eqn:Hgain.
  - rewrite play_with_gain in Hrun by done.
    destruct (audioContext w) eqn:Hctx.
    + destruct (play_source_spec v (buffer_of (heap w) v (arg 0 args)) (arg 1 args) w)
        as (r0 & w1 & evs & s & Heq & Hold & Htr & _ & Hc & Hfree & _ & Hres & _);
        [done | done | apply Hfields; set_solver | done |].
      rewrite Heq in Hrun. injection Hrun as <- <-.
      split; [by apply stable_old|]. split; [congruence|].
      intros r' ->. rewrite (Hres r' eq_refl). split; [by left|]. eauto.
    + rewrite play_source_no_context in Hrun by done. injection Hrun as <- <-.
      apply summary_throw; [apply stable_refl | done].
  - rewrite play_lazy_gain in Hrun by done. rewrite bind_run in Hrun.
    assert (creates_gain Play (heap w) v args = true) as Hcreates
      by (simpl; by rewrite Hplay, Hgain).
    destruct (audioContext w) eqn:Hctx.
    + destruct (masterGain_spec v [] w (is_state_clonable _ _ Hv) Hctx)
        as (c & T & g & w1 & Heq & Hrs & _).
      rewrite Heq in Hrun.
      destruct (rs_clonable _ _ _ _ _ Hrs) as (Hnull1 & Hal1 & Hfields1).
      destruct (play_source_spec (VObj c) (buffer_of (heap w) v (arg 0 args))
                  (arg 1 args) w1)
        as (r0 & w2 & evs & s & Heq2 & Hold & _ & _ & Hc & _ & _ & Hres & _);
        [done | done | apply Hfields1; set_solver
        | by rewrite (rs_context _ _ _ _ _ Hrs) |].
      rewrite Heq2 in Hrun. injection Hrun as <- <-.
      pose proof (rs_extend _ _ _ _ _ _ Hrs Hold Hc) as Hrs2.
      split; [apply Hrs2|]. split; [apply Hrs2|].
      intros r' ->. rewrite (Hres r' eq_refl). split; [|congruence].
      right. exists c, T, (VObj g). eauto.
    + destruct (masterGain_no_context v [] w (is_state_clonable _ _ Hv) Hctx)
        as (w1 & Heq & Hs & _ & _ & Hc).
      rewrite Heq in Hrun. injection Hrun as <- <-. by apply summary_throw.
Qed.

(** Every operation of the prototype, run on a state. *)
Lemma op_summary op v args w r w' :
  is_state (heap w) v → args_allocated (heap w) args →
  op_func op v args w = (r, w') → summary op v args w r w'.
Proof.
  intros Hv Hargs. destruct op; simpl.
  - by apply summary_setAudioBuffers.
  - by apply summary_getAudioBuffers.
  - by apply summary_masterGain.
  - by apply summary_play.
  - apply (summary_remove_entry RemoveSound "audioBuffers"); try done. set_solver.
  - by apply summary_sounds.
  - by apply summary_addSound.
  - by apply summary_locate.
  - apply (summary_remove_entry RemoveLocation "locations"); try done. set_solver.
  - by apply summary_listenAt.
  - by apply summary_orient.
  - by apply summary_cone.
Qed.

(** ** play without a master gain *)



(** ** Structural immutability *)












(** Two worlds used to instantiate the theorems: in the first the state
    at location 1 is the empty record; in the second it has an empty
    buffer table, at location 2. *)
Definition empty_state_world : world :=
  World {[ 1%positive := Obj KPlain ∅ ]} [] [] true.



Lemma empty_state_is_state : is_state (heap empty_state_world) (VObj 1%positive).
Proof.
  split; [reflexivity|]. intros f Hf.
  repeat (apply elem_of_cons in Hf as [->|Hf]; [vm_compute; auto|]).
  by apply elem_of_nil in Hf.
Qed.

Lemma strings_allocated h (ss : list string) : args_allocated h (VStr <$> ss).
Proof.
  intros i l. unfold arg. rewrite list_lookup_fmap.
  by destruct (ss !! i).
Qed.



(** ** Wrappers and chains *)

(** [m] is a wrapper whose [bind] delivers [v]. *)
Definition wraps (h : gmap loc object) (m v : val) : Prop :=
  kind_of h m = Some (KMonad (BindValue v)).

(** [m] is a wrapper whose [bind] returns [m] itself. *)
Definition disabled (h : gmap loc object) (m : val) : Prop :=
  kind_of h m = Some (KMonad BindSelf).

(** [m.op1(args1).op2(args2)...] *)
Fixpoint chain (calls : list (opname * list val)) (m : val) : M val :=
  match calls with
  | [] => mret m
  | (op, args) :: rest => m' ← method op m args; chain rest m'
  end.

Lemma kind_of_object h v K : kind_of h v = Some K → ∃ l, v = VObj l.
Proof. destruct v; try done. eauto. Qed.

Lemma method_disabled op m args w :
  disabled (heap w) m → method op m args w = (Ok m, w).
Proof.
  unfold disabled. intros Hm. destruct (kind_of_object _ _ _ Hm) as [l ->].
  assert (MONAD.bind (VObj l) (op_func op) args w = (Ok (VObj l), w)) as Hbind
    by (unfold MONAD.bind; by rewrite Hm).
  assert (MONAD.lift audioMonad_modifier (op_func op) (VObj l) args w
          = (Ok (VObj l), w)) as Hlift.
  { unfold MONAD.lift. mrun. rewrite Hbind. mrun. cbn [truthy].
    unfold MONAD.is_monad. rewrite Hm. by mrun. }
  destruct op; try exact Hlift. exact Hbind.
Qed.

Lemma chain_disabled calls m w :
  disabled (heap w) m → chain calls m w = (Ok m, w).
Proof.
  intros Hm. induction calls as [|[op args] calls IH]; [done|].
  simpl. by rewrite bind_run, method_disabled.
Qed.

(** The wrapper that [audioMonad(value)] makes. *)
Lemma audioMonad_run value w :
  audioMonad value w =
  (Ok (VObj (fresh_loc w)),
   upd_heap (<[fresh_loc w :=
                 Obj (KMonad (if negb (audioContext w) || negb (truthy value)
                              then BindSelf else BindValue value)) ∅]>) w).
Proof.
  unfold audioMonad, MONAD.unit. mrun. unfold new_object. mrun.
  unfold audioMonad_modifier. cbn [audioContext upd_heap].
  destruct (negb (audioContext w) || negb (truthy value)); mrun; [|done].
  unfold replace_bind, upd_heap. simpl. by rewrite alter_insert_eq.
Qed.

(** Without an audio context, or on a falsy value, the wrapper is a
    disabled one. *)
Lemma audioMonad_disabled value w :
  audioContext w = false ∨ truthy value = false →
  ∃ m w', audioMonad value w = (Ok m, w') ∧ disabled (heap w') m.
Proof.
  intros Hoff. rewrite audioMonad_run. eexists _, _. split; [reflexivity|].
  assert (negb (audioContext w) || negb (truthy value) = true) as ->
    by (destruct Hoff as [-> | ->]; [done | by rewrite orb_true_r]).
  unfold disabled. simpl. by rewrite lookup_insert_eq.
Qed.

(** C2. Graceful degradation: without an audio context, or on a falsy
    value, the unit constructor returns a wrapper whose bind returns the
    wrapper itself; every chain of registered operations on it, with any
    arguments, returns that same wrapper, never throws and changes
    nothing. *)
Theorem disabled_chain_is_noop value w :
  audioContext w = false ∨ truthy value = false →
  ∃ m w',
    audioMonad value w = (Ok m, w') ∧
    disabled (heap w') m ∧
    ∀ calls, chain calls m w' = (Ok m, w').
Proof.
  intros Hoff. destruct (audioMonad_disabled value w Hoff) as (m & w' & Heq & Hm).
  exists m, w'. split; [done|]. split; [done|].
  intros calls. by apply chain_disabled.
Qed.

Lemma disabled_chain_is_noop_witness :
  ∃ m w',
    audioMonad VUndef empty_state_world = (Ok m, w') ∧
    disabled (heap w') m ∧
    ∀ calls, chain calls m w' = (Ok m, w').
Proof. apply disabled_chain_is_noop. right. reflexivity. Defined.

(** C10. On a disabled wrapper the accessor [getAudioBuffers], although
    registered with [lift_value], returns the wrapper itself, which is no
    mapping: the chain never yields a buffer table, not even an empty
    one. *)
Theorem disabled_accessor_returns_wrapper value args w m w' :
  audioContext w = false ∨ truthy value = false →
  audioMonad value w = (Ok m, w') →
  method GetAudioBuffers m args w' = (Ok m, w') ∧
  disabled (heap w') m ∧ ¬ plain (heap w') m.
Proof.
  intros Hoff Hunit.
  destruct (audioMonad_disabled value w Hoff) as (m0 & w0 & Heq & Hm).
  rewrite Heq in Hunit. injection Hunit as <- <-.
  split; [by apply method_disabled|]. split; [done|].
  unfold plain, disabled in *. congruence.
Qed.

Lemma disabled_accessor_returns_wrapper_witness :
  let out := audioMonad (VObj 1%positive)
               (World {[ 1%positive := Obj KPlain ∅ ]} [] [] false) in
  ∃ m, out.1 = Ok m ∧ method GetAudioBuffers m [] out.2 = (Ok m, out.2).
Proof.
  intros out. exists (VObj 2%positive). split; [reflexivity|].
  apply (disabled_accessor_returns_wrapper (VObj 1%positive) []
           (World {[ 1%positive := Obj KPlain ∅ ]} [] [] false)).
  - left. reflexivity.
  - vm_compute. reflexivity.
Defined.



(** ** The end-to-end example *)

Definition ping_data : val := VStr "data:audio/wav;base64,AAAA".

(** The calls of the example, on a wrapper of the state at location 1;
    the decode is reported as successful, with handle [H], between the
    two reads of the buffer table. *)
Definition ping_example (H : val) : M (val * val * val) :=
  m ← audioMonad (VObj 1%positive);
  m ← method AddSound m [VStr "ping"; ping_data];
  before ← method GetAudioBuffers m [];
  decoded 0 (Some H) ;;
  after ← method GetAudioBuffers m [];
  m ← method Play m [VStr "ping"];
  mret (before, after, m).

(** The state of the example with an empty buffer table, and the decoded
    buffer the engine will hand over, at location 3. *)
Definition ping_world : world :=
  World {[ 1%positive := Obj KPlain {[ "audioBuffers" := VObj 2%positive ]};
           2%positive := Obj KPlain ∅;
           3%positive := Obj KBuffer ∅ ]} [] [] true.

(** The empty state, and at location 2 the map [{ping: data}] for
    [sounds]. *)
Definition ping_sounds_world : world :=
  World {[ 1%positive := Obj KPlain ∅;
           2%positive := Obj KPlain {[ "ping" := ping_data ]} ]} [] [] true.

(** C4. On the empty state (no [audioBuffers] field) [addSound] does not
    return a state whose table maps "ping" to 'pending': the clone has no
    table, [audioBuffers[id] = 'pending'] dereferences [undefined], and
    the call throws before anything is decoded. *)
Theorem addSound_empty_state_throws :
  ∃ w' w'',
    addSound (VObj 1%positive) [VStr "ping"; ping_data] empty_state_world
    = (Throw TypeError, w') ∧
    trace w' = [] ∧ decodes w' = [] ∧
    (m ← audioMonad (VObj 1%positive);
     method AddSound m [VStr "ping"; ping_data]) empty_state_world
    = (Throw TypeError, w'') ∧
    trace w'' = [] ∧ decodes w'' = [].
Proof. eexists _, _. vm_compute. repeat split; reflexivity. Qed.

(** The sibling [sounds] creates the missing table: on the same empty
    state it returns a state whose table maps "ping" to 'pending'. *)
Lemma sounds_empty_state_pending :
  ∃ r w',
    sounds (VObj 1%positive) [VObj 2%positive] ping_sounds_world = (Ok r, w') ∧
    submap (heap w') r "audioBuffers" !! "ping" = Some (VStr "pending") ∧
    List.length (decodes w') = 1%nat.
Proof. eexists _, _. vm_compute. repeat split; reflexivity. Qed.

(** With a buffer table in the state the example runs as the
    specification tells it: pending at once, the handle after the decode,
    then a gain connected to the destination and a started source. *)
Lemma ping_example_with_table :
  ∃ before after m w' g s t,
    ping_example (VObj 3%positive) ping_world = (Ok (before, after, m), w') ∧
    own_enum (heap w') before !! "ping" = Some (VStr "pending") ∧
    own_enum (heap w') after !! "ping" = Some (VObj 3%positive) ∧
    trace w' =
      [EDecodeAudioData (Job [0; 0; 0] t (VStr "ping"));
       ELog "decoded " (VStr "ping");
       ECreateGain g; EConnect g Destination;
       ECreateBufferSource s; EConnect s (Node g); EStart s 0] ∧
    prop_of (heap w') s "buffer" = VObj 3%positive.
Proof. eexists _, _, _, _, _, _, _. vm_compute. repeat split; reflexivity. Qed.

Lemma ping_world_is_state : is_state (heap ping_world) (VObj 1%positive).
Proof.
  split; [reflexivity|]. intros f Hf.
  repeat (apply elem_of_cons in Hf as [->|Hf]; [vm_compute; auto|]).
  by apply elem_of_nil in Hf.
Qed.

(** ** Reading the buffer table *)




(** ** locate, twice *)




(** ** The decode callbacks *)








(** ** Chains of method calls *)

Lemma method_lift op :
  accessor op = false → method op = MONAD.lift audioMonad_modifier (op_func op).
Proof. by destruct op. Qed.

Lemma bind_wrapped m v f args w :
  wraps (heap w) m v → MONAD.bind m f args w = f v args w.
Proof. unfold wraps, MONAD.bind. by intros ->. Qed.

Lemma allocated_stable w w' x : stable w w' → allocated (heap w) x → allocated (heap w') x.
Proof.
  intros Hs Hx l Hl. destruct (Hx l Hl) as [o Ho].
  destruct (Hs l o Ho) as (o' & -> & _). eauto.
Qed.

Lemma args_allocated_stable w w' args :
  stable w w' → args_allocated (heap w) args → args_allocated (heap w') args.
Proof. intros Hs Hargs i. by apply (allocated_stable w). Qed.

(** The calls of a chain, and the operations among them. *)
Definition calls_allocated (h : gmap loc object) (calls : list (opname * list val))
    : Prop :=
  Forall (λ call, args_allocated h call.2) calls.

Definition no_masterGain (calls : list (opname * list val)) : Prop :=
  Forall (λ call, call.1 ≠ MasterGain) calls.

Definition has_gain (w : world) (v : val) : Prop :=
  truthy (prop_of (heap w) v "masterGain") = true.

Definition no_panners (w : world) (v : val) : Prop :=
  prop_of (heap w) v "panners" = VUndef.

Section chain_invariant.
Variable Q : world → val → Prop.
Hypothesis Q_stable : ∀ w w' v,
  stable w w' → is_state (heap w) v → Q w v → Q w' v.
Hypothesis Q_result : ∀ w w' v c T g,
  is_state (heap w) v → Q w v → result_state w w' c T g →
  g = gain_of (heap w) v ∨ truthy g = true → Q w' (VObj c).

(** A wrapper of a state that satisfies [Q], in a world with an audio
    context. *)
Definition wrapped_state (w : world) (m : val) : Prop :=
  audioContext w = true ∧
  ∃ v, wraps (heap w) m v ∧ is_state (heap w) v ∧ Q w v.

Lemma outcome_state w v w' r :
  is_state (heap w) v → Q w v → stable w w' → outcome w v w' r →
  is_state (heap w') r ∧ Q w' r.
Proof.
  intros Hv HQ Hs [->|(c & T & g & -> & Hrs & Hg)].
  - split; [by apply (is_state_stable w) | by apply (Q_stable w)].
  - split; [by apply (rs_is_state w w' c T g) | by apply (Q_result w w' v c T g)].
Qed.

(** One method call on a wrapped state: the operation runs on the state;
    an accessor's result is handed out as it is, any other result is
    wrapped again (unless it carries the wrapper flag itself). *)
Lemma method_step op m args w m' w' :
  wrapped_state w m → args_allocated (heap w) args →
  method op m args w = (Ok m', w') →
  ∃ v r w1,
    wraps (heap w) m v ∧
    op_func op v args w = (Ok r, w1) ∧ summary op v args w (Ok r) w1 ∧
    stable w w' ∧ trace w' = trace w1 ∧ audioContext w' = true ∧
    (plain (heap w') m' ∨ accessor op = false ∧ wrapped_state w' m').
Proof.
  intros (Hctx & v & Hm & Hv & HQ) Hargs Hrun. exists v.
  destruct (op_func op v args w) as [r w1] eqn:Hop.
  pose proof (op_summary op v args w r w1 Hv Hargs Hop) as Hsum.
  pose proof Hsum as (Hs & Hctx1 & Hres).
  destruct (accessor op) eqn:Hacc.
  - assert (op = GetAudioBuffers) as -> by (by destruct op).
    unfold method, MONAD.lift_value in Hrun.
    rewrite (bind_wrapped _ _ _ _ _ Hm), Hop in Hrun. injection Hrun as -> <-.
    destruct (Hres m' eq_refl) as [Hplain _]. simpl in Hplain.
    exists m', w1. do 5 (split; [done|]). split; [congruence|]. by left.
  - rewrite (method_lift op Hacc) in Hrun. unfold MONAD.lift in Hrun.
    rewrite bind_run, (bind_wrapped _ _ _ _ _ Hm), Hop in Hrun.
    destruct r as [r|e]; [|done].
    destruct (Hres r eq_refl) as [Hout _].
    destruct (outcome_state w v w1 r Hv HQ Hs Hout) as [Hr HQr].
    pose proof Hr as [Hplain _].
    destruct r as [| | | | |c]; try done.
    cbn [truthy] in Hrun. rewrite bind_run in Hrun.
    unfold MONAD.is_monad in Hrun at 1. rewrite Hplain in Hrun.
    exists (VObj c), w1. do 2 (split; [done|]).
    assert (audioContext w1 = true) as Hctx1' by congruence.
    destruct (prop_of (heap w1) (VObj c) "is_monad") as [| |[]| | |] eqn:Hflag;
      try (change ((MONAD.unit audioMonad_modifier (VObj c)) w1 = (Ok m', w'))
             in Hrun;
           fold audioMonad in Hrun; rewrite audioMonad_run, Hctx1' in Hrun;
           cbn [negb orb truthy] in Hrun; injection Hrun as <- <-;
           split; [done|];
           assert (stable w1 (upd_heap (<[fresh_loc w1 :=
                     Obj (KMonad (BindValue (VObj c))) ∅]>) w1)) as Hs1
             by (apply stable_alloc, stable_refl);
           split; [by apply (stable_trans w w1)|]; split; [done|];
           split; [done|]; right; split; [done|]; split; [done|];
           exists (VObj c);
           split; [unfold wraps; simpl; by rewrite lookup_insert_eq|];
           split; [by apply (is_state_stable w1) | by apply (Q_stable w1)]).
    injection Hrun as <- <-. do 4 (split; [done|]). by left.
Qed.

(** A chain that returns: the final wrapper, if it is one, holds a state
    that satisfies [Q]; and when [Q] says that the state has a master
    gain and no call is [masterGain], the chain creates no gain node. *)
Lemma chain_invariant calls : ∀ m w m' w',
  wrapped_state w m → calls_allocated (heap w) calls →
  chain calls m w = (Ok m', w') →
  stable w w' ∧
  (plain (heap w') m' ∨ wrapped_state w' m') ∧
  ((∀ w v, Q w v → has_gain w v) → no_masterGain calls →
   ∃ evs, trace w' = trace w ++ evs ∧ gain_free evs).
Proof.
  induction calls as [|[op args] calls IH]; intros m w m' w' Hm Hargs Hrun.
  - injection Hrun as <- <-. split; [apply stable_refl|]. split; [by right|].
    intros _ _. by apply same_trace_gain_free.
  - simpl in Hrun. rewrite bind_run in Hrun.
    destruct (method op m args w) as [[m1|e] w1] eqn:Hstep; [|done].
    apply Forall_cons in Hargs as [Hargs Hrest]. simpl in Hargs.
    destruct (method_step op m args w m1 w1 Hm Hargs Hstep)
      as (v & r & w0 & Hwraps & Hop & Hsum & Hs & Htr & Hctx & Hcase).
    assert (calls_allocated (heap w1) calls) as Hrest1.
    { eapply Forall_impl; [exact Hrest|]. intros call Hcall.
      by apply (args_allocated_stable w). }
    assert ((∀ w v, Q w v → has_gain w v) → op ≠ MasterGain →
            ∃ evs, trace w1 = trace w ++ evs ∧ gain_free evs) as Hquiet.
    { intros Hgain Hop_ne. destruct Hsum as (_ & _ & Hres).
      destruct (Hres r eq_refl) as [_ Hfree]. rewrite Htr. apply Hfree.
      destruct Hm as (_ & v0 & Hwraps0 & _ & HQ0).
      assert (v0 = v) as -> by (unfold wraps in *; congruence).
      apply Hgain in HQ0. unfold has_gain in HQ0.
      destruct op; try done. simpl. by rewrite HQ0, andb_false_r. }
    destruct Hcase as [Hplain|[Hacc Hm1]].
    + (* the result is no wrapper: the chain can only end here *)
      destruct calls as [|[op2 args2] calls].
      * injection Hrun as <- <-. split; [done|]. split; [by left|].
        intros Hgain Hno. apply Forall_cons in Hno as [Hne _]. by apply Hquiet.
      * simpl in Hrun. rewrite bind_run in Hrun.
        assert (method op2 m1 args2 w1 = (Throw TypeError, w1)) as Hthrow.
        { unfold plain in Hplain.
          assert (∀ f, MONAD.bind m1 f args2 w1 = (Throw TypeError, w1)) as Hbind
            by (intros f; unfold MONAD.bind; by rewrite Hplain).
          destruct (accessor op2) eqn:Hacc2.
          - assert (op2 = GetAudioBuffers) as -> by (by destruct op2).
            apply Hbind.
          - rewrite (method_lift op2 Hacc2). unfold MONAD.lift.
            by rewrite bind_run, Hbind. }
        rewrite Hthrow in Hrun. done.
    + destruct (IH m1 w1 m' w' Hm1 Hrest1 Hrun) as (Hs1 & Hend & Hfree).
      split; [by apply (stable_trans w w1)|]. split; [done|].
      intros Hgain Hno. apply Forall_cons in Hno as [Hne Hno].
      destruct (Hquiet Hgain Hne) as (evs1 & Htr1 & Hfree1).
      destruct (Hfree Hgain Hno) as (evs2 & Htr2 & Hfree2).
      exists (evs1 ++ evs2). split; [by rewrite Htr2, Htr1, app_assoc|].
      intros g Hg. apply elem_of_app in Hg as [Hg|Hg];
        [by apply (Hfree1 g) | by apply (Hfree2 g)].
Qed.
End chain_invariant.



Lemma no_panners_stable w w' v :
  stable w w' → is_state (heap w) v → no_panners w v → no_panners w' v.
Proof.
  unfold no_panners. intros Hs [Hp _] Hg. by rewrite (stable_state_prop w w').
Qed.

Lemma no_panners_result w w' v c T g :
  is_state (heap w) v → no_panners w v → result_state w w' c T g →
  g = gain_of (heap w) v ∨ truthy g = true → no_panners w' (VObj c).
Proof.
  intros _ _ Hrs _. apply (rs_no_other _ _ _ _ _ _ Hrs).
  intros Hin. not_in_list Hin.
Qed.

(** ** play and the master gain *)








(** ** orient and cone *)

(** A value that comes with a [panners] field: [{panners: {a: <panner>}}]. *)
Definition panners_world : world :=
  World {[ 1%positive := Obj KPlain {[ "panners" := VObj 2%positive ]};
           2%positive := Obj KPlain {[ "a" := VObj 3%positive ]};
           3%positive := Obj KPanner ∅ ]} [] [] true.

(** That value is wrapped as it is, and [listenAt] hands it on: on the
    state so reached [orient] does invoke the panner's setter. *)
Lemma orient_sets_given_panner :
  is_state (heap panners_world) (VObj 1%positive) ∧
  ∃ m w m' w' w'',
    audioMonad (VObj 1%positive) panners_world = (Ok m, w) ∧
    wraps (heap w) m (VObj 1%positive) ∧
    chain [(ListenAt, [])] m w = (Ok m', w') ∧
    wraps (heap w') m' (VObj 1%positive) ∧
    orient (VObj 1%positive) [VStr "a"; VNum 1] w' = (Ok (VObj 1%positive), w'') ∧
    trace w'' =
      trace w' ++ [ESetOrientation (VObj 3%positive) (VNum 1) (VNum 0) (VNum 0)].
Proof.
  split.
  - split; [reflexivity|]. intros f Hf.
    repeat (apply elem_of_cons in Hf as [->|Hf]; [vm_compute; auto|]).
    by apply elem_of_nil in Hf.
  - eexists _, _, _, _, _. vm_compute. repeat split; reflexivity.
Qed.

Lemma is_state_object h v : is_state h v → ∃ l, v = VObj l.
Proof. intros [Hp _]. by apply (kind_of_object h v KPlain). Qed.

(** The wrapper that [audioMonad] makes of a state, with an audio
    context. *)
Lemma audioMonad_wraps_state (Q : world → val → Prop) value w :
  (∀ w w' v, stable w w' → is_state (heap w) v → Q w v → Q w' v) →
  is_state (heap w) value → Q w value → audioContext w = true →
  ∃ m w0,
    audioMonad value w = (Ok m, w0) ∧ stable w w0 ∧ trace w0 = trace w ∧
    wraps (heap w0) m value ∧ wrapped_state Q w0 m.
Proof.
  intros HQs Hv HQ Hctx. destruct (is_state_object _ _ Hv) as [l ->].
  rewrite audioMonad_run, Hctx. cbn [negb orb truthy].
  eexists _, _. split; [reflexivity|].
  assert (stable w (upd_heap (<[fresh_loc w :=
            Obj (KMonad (BindValue (VObj l))) ∅]>) w)) as Hs
    by apply stable_alloc, stable_refl.
  split; [done|]. split; [done|].
  assert (wraps (heap (upd_heap (<[fresh_loc w :=
            Obj (KMonad (BindValue (VObj l))) ∅]>) w))
            (VObj (fresh_loc w)) (VObj l)) as Hm
    by (unfold wraps; simpl; by rewrite lookup_insert_eq).
  split; [done|]. split; [done|]. exists (VObj l). split; [done|].
  split; [by apply (is_state_stable w) | by apply (HQs w)].
Qed.

(** C9. From an initial state that has no [panners] field, whatever the
    chain of method calls on its wrapper, the state the final wrapper
    holds has no [panners] field either, and on it [orient] and [cone]
    return the state itself and leave the world, the log of audio calls
    included, as it is: no setter is invoked. *)
Theorem orient_cone_noop_after_chain value calls args w m' w' v' :
  is_state (heap w) value → no_panners w value → audioContext w = true →
  calls_allocated (heap w) calls →
  (m ← audioMonad value; chain calls m) w = (Ok m', w') →
  wraps (heap w') m' v' →
  no_panners w' v' ∧
  orient v' args w' = (Ok v', w') ∧ cone v' args w' = (Ok v', w').
Proof.
  intros Hv Hno Hctx Hargs Hrun Hm'. rewrite bind_run in Hrun.
  destruct (audioMonad_wraps_state no_panners value w no_panners_stable Hv Hno Hctx)
    as (m & w0 & Hunit & Hs0 & _ & _ & Hm).
  rewrite Hunit in Hrun.
  destruct (chain_invariant no_panners no_panners_stable no_panners_result
              calls m w0 m' w' Hm) as (_ & Hend & _); [|done|].
  { eapply Forall_impl; [exact Hargs|]. intros call Hcall.
    by apply (args_allocated_stable w). }
  destruct Hend as [Hplain|(_ & v & Hwraps & Hstate & Hnone)].
  { unfold plain, wraps in *. congruence. }
  assert (v = v') as -> by (unfold wraps in *; congruence).
  split; [done|].
  assert (nullish v' = false) as Hnull by apply (is_state_clonable _ _ Hstate).
  assert (panner_of (heap w') v' (arg 0 args) = VUndef) as Hp
    by (unfold panner_of; by rewrite Hnone).
  split.
  - rewrite orient_run by done. by rewrite Hp.
  - rewrite cone_run by done. by rewrite Hp.
Qed.

Lemma orient_cone_noop_after_chain_witness :
  let out := (m ← audioMonad (VObj 1%positive); chain [(Locate, [VStr "a"])] m)
               empty_state_world in
  orient (VObj 3%positive) [VStr "a"; VNum 1] out.2 = (Ok (VObj 3%positive), out.2) ∧
  cone (VObj 3%positive) [VStr "a"] out.2 = (Ok (VObj 3%positive), out.2).
Proof.
  intros out.
  assert (out = (Ok (VObj 6%positive), out.2)) as Hout by (vm_compute; reflexivity).
  assert (wraps (heap out.2) (VObj 6%positive) (VObj 3%positive)) as Hwraps
    by (vm_compute; reflexivity).
  assert (calls_allocated (heap empty_state_world) [(Locate, [VStr "a"])]) as Hargs
    by (constructor; [exact (strings_allocated _ ["a"]) | constructor]).
  split.
  - apply (orient_cone_noop_after_chain (VObj 1%positive) [(Locate, [VStr "a"])]
             [VStr "a"; VNum 1] empty_state_world (VObj 6%positive) out.2
             (VObj 3%positive) empty_state_is_state eq_refl eq_refl Hargs Hout Hwraps).
  - apply (orient_cone_noop_after_chain (VObj 1%positive) [(Locate, [VStr "a"])]
             [VStr "a"] empty_state_world (VObj 6%positive) out.2
             (VObj 3%positive) empty_state_is_state eq_refl eq_refl Hargs Hout Hwraps).
Defined.

(** ** Further properties of the helpers and operations *)






(** ** masterGain *)




(** ** removeLocation *)






(** ** play with a master gain *)





(** ** Lifted methods *)

(** [result && result.is_monad === true] *)
Definition is_wrapper (h : gmap loc object) (result : val) : bool :=
  truthy result &&
  match kind_of h result with
  | Some (KMonad _) => true
  | _ => match prop_of h result "is_monad" with
         | VBool true => true
         | _ => false
         end
  end.

Lemma method_run op m v args w :
  wraps (heap w) m v →
  method op m args w =
  match op_func op v args w with
  | (Throw e, w1) => (Throw e, w1)
  | (Ok r, w1) =>
      if accessor op || is_wrapper (heap w1) r then (Ok r, w1)
      else audioMonad r w1
  end.
Proof.
  intros Hm. destruct (accessor op) eqn:Hacc.
  - assert (op = GetAudioBuffers) as -> by (by destruct op).
    unfold method, MONAD.lift_value. rewrite (bind_wrapped _ _ _ _ _ Hm).
    by destruct (op_func GetAudioBuffers v args w) as [[r|e] w1].
  - rewrite (method_lift op Hacc). unfold MONAD.lift.
    rewrite bind_run, (bind_wrapped _ _ _ _ _ Hm).
    destruct (op_func op v args w) as [[r|e] w1]; [|done].
    cbn [orb]. unfold is_wrapper.
    destruct (truthy r) eqn:Hr; cbn [andb]; rewrite bind_run.
    + unfold MONAD.is_monad.
      destruct (kind_of (heap w1) r) as [[]|]; try done;
        by destruct (prop_of (heap w1) r "is_monad") as [| |[]| | |].
    + by rewrite ret_run.
Qed.



(** ** bind and the unit constructor *)

(** X15. Left identity holds for an enabled wrapper, and by design not for a
    disabled one: [audioMonad(value).bind(f, args)] is [f(value, ...args)]
    when there is an audio context and [value] is truthy, and otherwise it
    is the wrapper itself, [f] not being called. *)
Theorem bind_left_identity value (f : func) args w :
  (m ← audioMonad value; MONAD.bind m f args) w =
  if audioContext w && truthy value then f value args (audioMonad value w).2
  else audioMonad value w.
Proof.
  rewrite bind_run, audioMonad_run. unfold MONAD.bind. cbn [snd fst heap upd_heap kind_of].
  rewrite lookup_insert_eq. cbn [fmap option_fmap option_map okind].
  by destruct (audioContext w), (truthy value).
Qed.

(** Associativity, for every receiver (an enabled wrapper, a disabled one,
    or a value that is no wrapper, on which both sides throw):
    [m.bind(f).bind(g)] is [m.bind(v => f(v).bind(g))]. *)
Lemma bind_associative (f g : func) a b m w :
  (m' ← MONAD.bind m f a; MONAD.bind m' g b) w =
  MONAD.bind m (λ v _, m' ← f v a; MONAD.bind m' g b) [] w.
Proof.
  rewrite bind_run. unfold MONAD.bind at 1 3.
  destruct (kind_of (heap w) m) as [[| | | | | |[v|]]|] eqn:Hm; try done.
  unfold MONAD.bind. by rewrite Hm.
Qed.

(** X16. Right identity up to the wrapper's identity: binding the unit
    constructor on an enabled wrapper gives a new wrapper of the same
    value; the receiver is left as it was. *)
Theorem bind_right_identity m v w :
  wraps (heap w) m v → audioContext w = true → truthy v = true →
  ∃ l w',
    MONAD.bind m (λ x _, audioMonad x) [] w = (Ok (VObj l), w') ∧
    heap w !! l = None ∧ wraps (heap w') (VObj l) v ∧ wraps (heap w') m v ∧
    trace w' = trace w.
Proof.
  intros Hm Hctx Hv. rewrite (bind_wrapped _ _ _ _ _ Hm), audioMonad_run, Hctx, Hv.
  cbn [negb orb]. exists (fresh_loc w). eexists. split; [reflexivity|].
  pose proof (fresh_loc_None w) as Hl. split; [done|].
  split; [unfold wraps; simpl; by rewrite lookup_insert_eq|]. split; [|done].
  apply (kind_of_old (heap w)); [|done].
  intros l o Ho. by apply alloc_old.
Qed.

Lemma bind_right_identity_witness :
  let out := audioMonad (VObj 1%positive) empty_state_world in
  ∃ l w',
    MONAD.bind (VObj 2%positive) (λ x _, audioMonad x) [] out.2 = (Ok (VObj l), w') ∧
    wraps (heap w') (VObj l) (VObj 1%positive).
Proof.
  intros out.
  destruct (bind_right_identity (VObj 2%positive) (VObj 1%positive) out.2)
    as (l & w' & Hrun & _ & Hl & _).
  - vm_compute. reflexivity.
  - reflexivity.
  - reflexivity.
  - exists l, w'. split; [exact Hrun | exact Hl].
Defined.

(** ** Wrappers are never modified *)

Definition no_flag (w : world) (v : val) : Prop :=
  prop_of (heap w) v "is_monad" = VUndef.

Lemma no_flag_stable w w' v :
  stable w w' → is_state (heap w) v → no_flag w v → no_flag w' v.
Proof.
  unfold no_flag. intros Hs [Hp _] Hg. by rewrite (stable_state_prop w w').
Qed.

Lemma no_flag_result w w' v c T g :
  is_state (heap w) v → no_flag w v → result_state w w' c T g →
  g = gain_of (heap w) v ∨ truthy g = true → no_flag w' (VObj c).
Proof.
  intros _ _ Hrs _. apply (rs_no_other _ _ _ _ _ _ Hrs).
  intros Hin. not_in_list Hin.
Qed.

(** X17. A method other than the accessor, called on a wrapper of a state,
    returns a wrapper created by the call, which holds the state the
    operation returned; the receiver still holds the state it held, so a
    wrapper kept by the caller can be used for another chain. *)
Theorem method_returns_new_wrapper op m v args w m' w' :
  wraps (heap w) m v → is_state (heap w) v → no_flag w v →
  args_allocated (heap w) args → audioContext w = true →
  accessor op = false →
  method op m args w = (Ok m', w') →
  ∃ r w1 l,
    op_func op v args w = (Ok r, w1) ∧
    m' = VObj l ∧ heap w1 !! l = None ∧ m' ≠ m ∧
    heap w' = <[l := Obj (KMonad (BindValue r)) ∅]> (heap w1) ∧
    trace w' = trace w1 ∧
    is_state (heap w') r ∧ no_flag w' r ∧ wraps (heap w') m v.
Proof.
  intros Hm Hv Hflag Hargs Hctx Hacc Hrun.
  rewrite (method_run op m v args w Hm) in Hrun.
  destruct (op_func op v args w) as [[r|e] w1] eqn:Hop; [|done].
  destruct (op_summary op v args w (Ok r) w1 Hv Hargs Hop) as (Hs & Hctx1 & Hres).
  destruct (Hres r eq_refl) as [Hout _]. rewrite Hacc in Hout.
  destruct (outcome_state no_flag no_flag_stable no_flag_result w v w1 r Hv Hflag Hs Hout)
    as [Hr Hflag1].
  destruct (is_state_object _ _ Hr) as [c ->].
  assert (is_wrapper (heap w1) (VObj c) = false) as Hnot.
  { unfold is_wrapper. destruct Hr as [Hplain _]. unfold plain in Hplain.
    rewrite Hplain. unfold no_flag in Hflag1. by rewrite Hflag1. }
  rewrite Hacc, Hnot, audioMonad_run, Hctx1, Hctx in Hrun.
  cbn [negb orb truthy] in Hrun. injection Hrun as <- <-.
  pose proof (fresh_loc_None w1) as Hl.
  assert (stable w1 (upd_heap (<[fresh_loc w1 :=
            Obj (KMonad (BindValue (VObj c))) ∅]>) w1)) as Hs1
    by apply stable_alloc, stable_refl.
  exists (VObj c), w1, (fresh_loc w1). do 3 (split; [done|]).
  split.
  { intros <-. unfold wraps in Hm. simpl in Hm.
    destruct (heap w !! fresh_loc w1) as [o|] eqn:Ho; [|done].
    destruct (Hs _ _ Ho) as (o' & Ho' & _). congruence. }
  split; [done|]. split; [done|].
  split; [by apply (is_state_stable w1)|]. split; [by apply (no_flag_stable w1)|].
  apply (stable_kind w); [|done]. by apply (stable_trans w w1).
Qed.

Lemma method_returns_new_wrapper_witness :
  let out := audioMonad (VObj 1%positive) empty_state_world in
  let out' := method Locate (VObj 2%positive) [VStr "a"] out.2 in
  ∃ r w1 l,
    op_func Locate (VObj 1%positive) [VStr "a"] out.2 = (Ok r, w1) ∧
    heap out'.2 = <[l := Obj (KMonad (BindValue r)) ∅]> (heap w1).
Proof.
  intros out out'.
  destruct (method_returns_new_wrapper Locate (VObj 2%positive) (VObj 1%positive)
              [VStr "a"] out.2 (VObj 6%positive) out'.2)
    as (r & w1 & l & Hop & _ & _ & _ & Hheap & _).
  - vm_compute. reflexivity.
  - split; [reflexivity|]. intros f Hf.
    repeat (apply elem_of_cons in Hf as [->|Hf]; [vm_compute; auto|]).
    by apply elem_of_nil in Hf.
  - reflexivity.
  - exact (strings_allocated _ ["a"]).
  - reflexivity.
  - reflexivity.
  - vm_compute. reflexivity.
  - exists r, w1, l. split; [exact Hop | exact Hheap].
Defined.

(** ** Chains and the objects that exist *)

Definition anything (w : world) (v : val) : Prop := True.

(** X18. Whatever chain of methods is called on the wrapper of a state, when it
    returns every object that existed before is still there with its kind,
    and unchanged unless it is a panner node: states, their mappings,
    wrappers, gain nodes, buffers and sources are never written; the audio
    context is kept. *)
Theorem chain_keeps_existing_objects value calls w m' w' :
  is_state (heap w) value → audioContext w = true →
  calls_allocated (heap w) calls →
  (m ← audioMonad value; chain calls m) w = (Ok m', w') →
  ∀ l o, heap w !! l = Some o →
    ∃ o', heap w' !! l = Some o' ∧ okind o' = okind o ∧
          (okind o ≠ KPanner → o' = o).
Proof.
  intros Hv Hctx Hargs Hrun. rewrite bind_run in Hrun.
  destruct (audioMonad_wraps_state anything value w) as (m & w0 & Hunit & Hs0 & _ & _ & Hm);
    try done.
  rewrite Hunit in Hrun.
  destruct (chain_invariant anything) with (calls := calls) (m := m) (w := w0)
    (m' := m') (w' := w') as (Hs & _ & _); try done.
  { eapply Forall_impl; [exact Hargs|]. intros call Hcall.
    by apply (args_allocated_stable w). }
  by apply (stable_trans w w0).
Qed.

Lemma chain_keeps_existing_objects_witness :
  let out := (m ← audioMonad (VObj 1%positive); chain [(Locate, [VStr "a"])] m)
               empty_state_world in
  ∃ o', heap out.2 !! 1%positive = Some o' ∧ okind o' = okind (Obj KPlain ∅) ∧
        (okind (Obj KPlain ∅) ≠ KPanner → o' = Obj KPlain ∅).
Proof.
  intros out.
  apply (chain_keeps_existing_objects (VObj 1%positive) [(Locate, [VStr "a"])]
           empty_state_world (VObj 6%positive) out.2).
  - exact empty_state_is_state.
  - reflexivity.
  - constructor; [exact (strings_allocated _ ["a"]) | constructor].
  - vm_compute. reflexivity.
  - reflexivity.
Defined.

(** ** addSound and sounds, when they return and when they throw *)

(** X1. Without a buffer table in the state, [addSound] throws a TypeError at
    [audioBuffers[id] = 'pending'], whatever the identifier and the data:
    unlike [sounds] it does not create the missing table. Nothing is
    decoded, no audio call is made and the state is left as it was. *)
Theorem addSound_without_table_throws v args w :
  is_state (heap w) v →
  truthy (prop_of (heap w) v "audioBuffers") = false →
  ∃ w',
    addSound v args w = (Throw TypeError, w') ∧
    trace w' = trace w ∧ decodes w' = decodes w ∧
    ∀ l o, heap w !! l = Some o → okind o ≠ KPanner → heap w' !! l = Some o.
Proof.
  intros Hv Hno.
  destruct (addSound_no_table v args w (is_state_clonable _ _ Hv) Hno)
    as (w' & Hrun & Hs & Htr & Hdec & _).
  exists w'. do 3 (split; [done|]).
  intros l o Hl Hk. destruct (Hs l o Hl) as (o' & Hl' & _ & Heq).
  by rewrite Hl', (Heq Hk).
Qed.

Lemma addSound_without_table_throws_witness :
  ∃ w', addSound (VObj 1%positive) [VStr "ping"; ping_data] empty_state_world
        = (Throw TypeError, w') ∧
        trace w' = trace empty_state_world ∧ decodes w' = decodes empty_state_world.
Proof.
  destruct (addSound_without_table_throws (VObj 1%positive) [VStr "ping"; ping_data]
              empty_state_world) as (w' & Hrun & Htr & Hdec & _).
  - exact empty_state_is_state.
  - reflexivity.
  - exists w'. split; [exact Hrun|]. split; [exact Htr | exact Hdec].
Defined.



(** X20. Data that is a string without a comma (so that [split(',')[1]] is
    [undefined]) or no string at all makes [addSound] throw a TypeError;
    it does so after the clone's table was marked, but nothing is decoded
    and the state it was given is untouched. *)
Theorem addSound_bad_data_throws v args w :
  is_state (heap w) v →
  truthy (prop_of (heap w) v "audioBuffers") = true →
  payload_of (arg 1 args) = None →
  ∃ w',
    addSound v args w = (Throw TypeError, w') ∧
    trace w' = trace w ∧ decodes w' = decodes w ∧
    ∀ l o, heap w !! l = Some o → okind o ≠ KPanner → heap w' !! l = Some o.
Proof.
  intros Hv Hab Hp.
  destruct (addSound_spec v args w (is_state_clonable _ _ Hv) Hab)
    as (c & T & t & w' & Hrs & _ & _ & Hcase).
  rewrite Hp in Hcase. destruct Hcase as (Hrun & Htr & Hdec).
  exists w'. do 3 (split; [done|]).
  intros l o Hl Hk. destruct (rs_stable _ _ _ _ _ Hrs l o Hl) as (o' & Hl' & _ & Heq).
  by rewrite Hl', (Heq Hk).
Qed.

Lemma addSound_bad_data_throws_witness :
  ∃ w', addSound (VObj 1%positive) [VStr "ping"; VStr "AAAA"] ping_world
        = (Throw TypeError, w') ∧ decodes w' = decodes ping_world.
Proof.
  destruct (addSound_bad_data_throws (VObj 1%positive) [VStr "ping"; VStr "AAAA"]
              ping_world) as (w' & Hrun & _ & Hdec & _).
  - exact ping_world_is_state.
  - reflexivity.
  - reflexivity.
  - exists w'. split; [exact Hrun | exact Hdec].
Defined.






(** ** Two sounds added one after the other *)



(** ** listenAt and orient *)




(** ** After the accessor *)



(** ** base64ToArrayBuffer *)

Definition is_byte (b : Z) : Prop := 0 ≤ b < 256.

Lemma store_length p x bytes : List.length (store p x bytes) = List.length bytes.
Proof. apply length_insert. Qed.

Lemma store_bytes p x bytes : Forall is_byte bytes → Forall is_byte (store p x bytes).
Proof.
  intros Hb. apply Forall_insert; [done|]. unfold is_byte.
  apply Z.mod_pos_bound. lia.
Qed.

Lemma decode_loop_length fuel base64 : ∀ i p bytes,
  List.length (decode_loop fuel base64 i p bytes) = List.length bytes.
Proof.
  induction fuel as [|fuel IH]; intros i p bytes; [done|]. simpl.
  destruct (i <? Z.of_nat (String.length base64)); [|done].
  by rewrite IH, !store_length.
Qed.

Lemma decode_loop_bytes fuel base64 : ∀ i p bytes,
  Forall is_byte bytes → Forall is_byte (decode_loop fuel base64 i p bytes).
Proof.
  induction fuel as [|fuel IH]; intros i p bytes Hb; [done|]. simpl.
  destruct (i <? Z.of_nat (String.length base64)); [|done].
  by apply IH, store_bytes, store_bytes, store_bytes.
Qed.

(** X26. Whatever the text, a valid encoding or not, the buffer returned has
    [bufferLength] elements, three quarters of the length of the text
    (rounded down) less one for each of up to two '=' at its end, and
    each element is a byte: what does not fit is dropped, characters
    outside the alphabet count as -1 and never make the function fail. *)
Theorem base64_bytes_length_and_range base64 :
  List.length (base64_bytes base64) = bufferLength base64 ∧
  Forall is_byte (base64_bytes base64) ∧
  (bufferLength base64 ≤ 3 * String.length base64 / 4)%nat.
Proof.
  unfold base64_bytes. split; [|split].
  - by rewrite decode_loop_length, length_replicate.
  - apply decode_loop_bytes, Forall_replicate. unfold is_byte. lia.
  - unfold bufferLength. cbv zeta.
    set (len := Z.of_nat (String.length base64)).
    set (padding := if is_eq_sign _ then _ else _).
    assert (0 ≤ padding ≤ 2) as Hp
      by (unfold padding; repeat destruct (is_eq_sign _); lia).
    assert (0 ≤ len) as Hlen by lia.
    apply Nat2Z.inj_le. rewrite Nat2Z.inj_div, Nat2Z.inj_mul. fold len.
    change (Z.of_nat 3) with 3. change (Z.of_nat 4) with 4.
    destruct (Z.le_gt_cases 0 (3 * len - 4 * padding)) as [Hpos|Hneg].
    + rewrite Z2Nat.id by (apply Z.quot_pos; lia).
      rewrite Z.quot_div_nonneg by lia. apply Z.div_le_mono; lia.
    + rewrite Z2Nat.nonpos; [apply Z.div_pos; lia|].
      apply Z.opp_nonneg_nonpos. rewrite <- Z.quot_opp_l by lia.
      apply Z.quot_pos; lia.
Qed.

(** *** Decoding the standard encoding *)

(** The character of a 6-bit value. *)
Definition sextet_char (n : Z) : ascii :=
  default "A"%char (char_at chars n).

(** The four 6-bit values of three bytes. *)
Definition sextet1 (a : Z) : Z := Z.shiftr a 2.
Definition sextet2 (a b : Z) : Z := Z.lor (Z.shiftl (Z.land a 3) 4) (Z.shiftr b 4).
Definition sextet3 (b c : Z) : Z := Z.lor (Z.shiftl (Z.land b 15) 2) (Z.shiftr c 6).
Definition sextet4 (c : Z) : Z := Z.land c 63.

(** The standard base64 encoding (RFC 4648) of a list of bytes, with
    padding: the encoding whose decoder the source adapts. It is not in
    the source; it states what texts the decoder is for. *)
Fixpoint base64_encode (bytes : list Z) : string :=
  match bytes with
  | [] => ""
  | [a] =>
      String (sextet_char (sextet1 a)) (String (sextet_char (sextet2 a 0)) "==")
  | [a; b] =>
      String (sextet_char (sextet1 a)) (String (sextet_char (sextet2 a b))
        (String (sextet_char (sextet3 b 0)) "="))
  | a :: b :: c :: rest =>
      String (sextet_char (sextet1 a)) (String (sextet_char (sextet2 a b))
        (String (sextet_char (sextet3 b c)) (String (sextet_char (sextet4 c))
          (base64_encode rest))))
  end.

(** Checking a property of bytes on all of them. *)
Definition below (n : nat) (P : Z → bool) : bool :=
  forallb (λ k, P (Z.of_nat k)) (seq 0 n).

Lemma below_spec n P a : below n P = true → 0 ≤ a < Z.of_nat n → P a = true.
Proof.
  unfold below. rewrite forallb_forall. intros Hall Ha.
  specialize (Hall (Z.to_nat a)). rewrite Z2Nat.id in Hall by lia.
  apply Hall, in_seq. lia.
Qed.

Lemma index_sextet1 a :
  is_byte a → chars_indexOf (Some (sextet_char (sextet1 a))) = sextet1 a.
Proof.
  intros Ha. apply Z.eqb_eq.
  apply (below_spec 256 (λ a, chars_indexOf (Some (sextet_char (sextet1 a)))
                              =? sextet1 a)); [by vm_compute | done].
Qed.

Lemma index_sextet2 a b :
  is_byte a → is_byte b →
  chars_indexOf (Some (sextet_char (sextet2 a b))) = sextet2 a b.
Proof.
  intros Ha Hb. apply Z.eqb_eq.
  apply (below_spec 256 (λ b, chars_indexOf (Some (sextet_char (sextet2 a b)))
                              =? sextet2 a b)); [|done].
  apply (below_spec 256 (λ a, below 256 (λ b,
           chars_indexOf (Some (sextet_char (sextet2 a b))) =? sextet2 a b)));
    [by vm_compute | done].
Qed.

Lemma index_sextet3 b c :
  is_byte b → is_byte c →
  chars_indexOf (Some (sextet_char (sextet3 b c))) = sextet3 b c.
Proof.
  intros Hb Hc. apply Z.eqb_eq.
  apply (below_spec 256 (λ c, chars_indexOf (Some (sextet_char (sextet3 b c)))
                              =? sextet3 b c)); [|done].
  apply (below_spec 256 (λ b, below 256 (λ c,
           chars_indexOf (Some (sextet_char (sextet3 b c))) =? sextet3 b c)));
    [by vm_compute | done].
Qed.

Lemma index_sextet4 c :
  is_byte c → chars_indexOf (Some (sextet_char (sextet4 c))) = sextet4 c.
Proof.
  intros Hc. apply Z.eqb_eq.
  apply (below_spec 256 (λ c, chars_indexOf (Some (sextet_char (sextet4 c)))
                              =? sextet4 c)); [by vm_compute | done].
Qed.

Lemma first_byte a b :
  is_byte a → is_byte b →
  Z.lor (Z.shiftl (sextet1 a) 2) (Z.shiftr (sextet2 a b) 4) mod 256 = a.
Proof.
  intros Ha Hb. apply Z.eqb_eq.
  apply (below_spec 256 (λ b,
           Z.lor (Z.shiftl (sextet1 a) 2) (Z.shiftr (sextet2 a b) 4) mod 256 =? a));
    [|done].
  apply (below_spec 256 (λ a, below 256 (λ b,
           Z.lor (Z.shiftl (sextet1 a) 2) (Z.shiftr (sextet2 a b) 4) mod 256 =? a)));
    [by vm_compute | done].
Qed.

Lemma low_of_sextet2 a b :
  is_byte a → is_byte b → Z.land (sextet2 a b) 15 = Z.shiftr b 4.
Proof.
  intros Ha Hb. apply Z.eqb_eq.
  apply (below_spec 256 (λ b, Z.land (sextet2 a b) 15 =? Z.shiftr b 4)); [|done].
  apply (below_spec 256 (λ a, below 256 (λ b,
           Z.land (sextet2 a b) 15 =? Z.shiftr b 4))); [by vm_compute | done].
Qed.

Lemma second_byte a b c :
  is_byte a → is_byte b → is_byte c →
  Z.lor (Z.shiftl (Z.land (sextet2 a b) 15) 4) (Z.shiftr (sextet3 b c) 2) mod 256 = b.
Proof.
  intros Ha Hb Hc. rewrite low_of_sextet2 by done. apply Z.eqb_eq.
  apply (below_spec 256 (λ c,
           Z.lor (Z.shiftl (Z.shiftr b 4) 4) (Z.shiftr (sextet3 b c) 2) mod 256 =? b));
    [|done].
  apply (below_spec 256 (λ b, below 256 (λ c,
           Z.lor (Z.shiftl (Z.shiftr b 4) 4) (Z.shiftr (sextet3 b c) 2) mod 256 =? b)));
    [by vm_compute | done].
Qed.

Lemma third_byte b c :
  is_byte b → is_byte c →
  Z.lor (Z.shiftl (Z.land (sextet3 b c) 3) 6) (Z.land (sextet4 c) 63) mod 256 = c.
Proof.
  intros Hb Hc. apply Z.eqb_eq.
  apply (below_spec 256 (λ c,
           Z.lor (Z.shiftl (Z.land (sextet3 b c) 3) 6) (Z.land (sextet4 c) 63) mod 256
           =? c)); [|done].
  apply (below_spec 256 (λ b, below 256 (λ c,
           Z.lor (Z.shiftl (Z.land (sextet3 b c) 3) 6) (Z.land (sextet4 c) 63) mod 256
           =? c))); [by vm_compute | done].
Qed.

Lemma sextet3_not_padding b c :
  is_byte b → is_byte c → is_eq_sign (Some (sextet_char (sextet3 b c))) = false.
Proof.
  intros Hb Hc. apply negb_true_iff.
  apply (below_spec 256 (λ c, negb (is_eq_sign (Some (sextet_char (sextet3 b c))))));
    [|done].
  apply (below_spec 256 (λ b, below 256 (λ c,
           negb (is_eq_sign (Some (sextet_char (sextet3 b c)))))));
    [by vm_compute | done].
Qed.

Lemma sextet4_not_padding c :
  is_byte c → is_eq_sign (Some (sextet_char (sextet4 c))) = false.
Proof.
  intros Hc. apply negb_true_iff.
  apply (below_spec 256 (λ c, negb (is_eq_sign (Some (sextet_char (sextet4 c))))));
    [by vm_compute | done].
Qed.

Lemma string_length_app (s1 s2 : string) :
  String.length (String.append s1 s2) = (String.length s1 + String.length s2)%nat.
Proof.
  induction s1 as [|c s1 IH]; [done|].
  change (S (String.length (String.append s1 s2))
          = S (String.length s1 + String.length s2)). by rewrite IH.
Qed.

Lemma string_app_assoc (s1 s2 s3 : string) :
  String.append (String.append s1 s2) s3 = String.append s1 (String.append s2 s3).
Proof.
  induction s1 as [|c s1 IH]; [done|].
  change (String c (String.append (String.append s1 s2) s3)
          = String c (String.append s1 (String.append s2 s3))). by rewrite IH.
Qed.

Lemma char_at_app (pre s : string) (k : Z) :
  0 ≤ k →
  char_at (String.append pre s) (Z.of_nat (String.length pre) + k) = char_at s k.
Proof.
  intros Hk. unfold char_at.
  rewrite (proj2 (Z.ltb_ge _ _)) by lia. rewrite (proj2 (Z.ltb_ge _ _)) by lia.
  rewrite (String.append_correct2 pre s (Z.to_nat k)). f_equal. lia.
Qed.

Lemma decode_loop_end fuel base64 i p bytes :
  Z.of_nat (String.length base64) ≤ i → decode_loop fuel base64 i p bytes = bytes.
Proof.
  intros Hi. destruct fuel; [done|]. simpl.
  by rewrite (proj2 (Z.ltb_ge _ _)).
Qed.

(** One round of the loop on a group of four characters. *)
Lemma decode_loop_group fuel pre c1 c2 c3 c4 rest p bytes :
  let base64 := String.append pre (String c1 (String c2 (String c3 (String c4 rest)))) in
  let i := Z.of_nat (String.length pre) in
  decode_loop (S fuel) base64 i p bytes =
  let encoded1 := chars_indexOf (Some c1) in
  let encoded2 := chars_indexOf (Some c2) in
  let encoded3 := chars_indexOf (Some c3) in
  let encoded4 := chars_indexOf (Some c4) in
  decode_loop fuel base64 (i + 4) (p + 3)
    (store (p + 2) (Z.lor (Z.shiftl (Z.land encoded3 3) 6) (Z.land encoded4 63))
       (store (p + 1) (Z.lor (Z.shiftl (Z.land encoded2 15) 4) (Z.shiftr encoded3 2))
          (store p (Z.lor (Z.shiftl encoded1 2) (Z.shiftr encoded2 4)) bytes))).
Proof.
  intros base64 i. cbn [decode_loop].
  assert (i <? Z.of_nat (String.length base64) = true) as ->.
  { apply Z.ltb_lt. unfold base64, i. rewrite string_length_app. cbn. lia. }
  assert (char_at base64 i = Some c1) as ->.
  { unfold base64, i. rewrite <- (Z.add_0_r (Z.of_nat _)).
    by rewrite char_at_app. }
  assert (char_at base64 (i + 1) = Some c2) as ->
    by (unfold base64, i; by rewrite char_at_app).
  assert (char_at base64 (i + 2) = Some c3) as ->
    by (unfold base64, i; by rewrite char_at_app).
  assert (char_at base64 (i + 3) = Some c4) as ->
    by (unfold base64, i; by rewrite char_at_app).
  reflexivity.
Qed.

Lemma store_here done x y rest :
  store (List.length done) x (done ++ y :: rest) = done ++ (x mod 256) :: rest.
Proof.
  unfold store. rewrite <- (Nat.add_0_r (List.length done)).
  by rewrite insert_app_r.
Qed.

Lemma store_outside p x bytes : (List.length bytes ≤ p)%nat → store p x bytes = bytes.
Proof. apply list_insert_ge. Qed.

Lemma by_threes (P : list Z → Prop) :
  P [] → (∀ a, P [a]) → (∀ a b, P [a; b]) →
  (∀ a b c rest, P rest → P (a :: b :: c :: rest)) →
  ∀ bytes, P bytes.
Proof.
  intros H0 H1 H2 H3.
  cut (∀ bytes, P bytes ∧ (∀ a, P (a :: bytes)) ∧ (∀ a b, P (a :: b :: bytes))).
  { intros Hcut bytes. apply Hcut. }
  induction bytes as [|c bytes (IH0 & IH1 & IH2)].
  - by split; [|split].
  - split; [exact (IH1 c)|]. split; [intros a; exact (IH2 a c)|].
    intros a b. apply H3, IH0.
Qed.

(** The loop on the encoding of [bytes], entered after [pre] with [done]
    already written, writes [bytes]. *)
Lemma decode_loop_encoded bytes :
  Forall is_byte bytes →
  ∀ fuel pre done, (List.length bytes ≤ fuel)%nat →
    decode_loop fuel (String.append pre (base64_encode bytes))
      (Z.of_nat (String.length pre)) (List.length done)
      (done ++ replicate (List.length bytes) 0)
    = done ++ bytes.
Proof.
  induction bytes as [|a|a b|a b c rest IH] using by_threes;
    intros Hb fuel pre done Hfuel.
  - apply decode_loop_end. rewrite string_length_app. simpl. lia.
  - apply Forall_cons in Hb as [Ha _].
    destruct fuel as [|fuel]; [simpl in Hfuel; lia|].
    cbn [base64_encode]. rewrite decode_loop_group. cbv zeta.
    rewrite decode_loop_end by (rewrite string_length_app; cbn; lia).
    cbn [replicate List.length]. rewrite store_here.
    rewrite !store_outside by (rewrite ?store_length, length_app; simpl; lia).
    rewrite index_sextet1, index_sextet2 by (done || (unfold is_byte; lia)).
    by rewrite first_byte by (done || (unfold is_byte; lia)).
  - apply Forall_cons in Hb as [Ha Hb]. apply Forall_cons in Hb as [Hb _].
    destruct fuel as [|fuel]; [simpl in Hfuel; lia|].
    assert (is_byte 0) as H0 by (unfold is_byte; lia).
    cbn [base64_encode]. rewrite decode_loop_group. cbv zeta.
    rewrite decode_loop_end by (rewrite string_length_app; cbn; lia).
    cbn [replicate List.length]. rewrite store_here.
    rewrite (store_outside (List.length done + 2))
      by (rewrite ?store_length, length_app; simpl; lia).
    replace (done ++ _ :: 0 :: []) with ((done ++ [Z.lor (Z.shiftl (chars_indexOf
      (Some (sextet_char (sextet1 a)))) 2) (Z.shiftr (chars_indexOf
      (Some (sextet_char (sextet2 a b)))) 4) mod 256]) ++ [0])
      by (by rewrite <- app_assoc).
    replace (List.length done + 1)%nat with (List.length (done ++ [Z.lor (Z.shiftl
      (chars_indexOf (Some (sextet_char (sextet1 a)))) 2) (Z.shiftr (chars_indexOf
      (Some (sextet_char (sextet2 a b)))) 4) mod 256]))
      by (rewrite length_app; simpl; lia).
    rewrite store_here, <- app_assoc. cbn [app].
    rewrite index_sextet1, index_sextet2, index_sextet3 by done.
    by rewrite first_byte, second_byte by done.
  - apply Forall_cons in Hb as [Ha Hb]. apply Forall_cons in Hb as [Hb Hc].
    apply Forall_cons in Hc as [Hc Hrest].
    destruct fuel as [|fuel]; [simpl in Hfuel; lia|].
    cbn [base64_encode]. rewrite decode_loop_group. cbv zeta.
    rewrite index_sextet1, index_sextet2, index_sextet3, index_sextet4 by done.
    cbn [replicate List.length]. rewrite store_here.
    set (x := Z.lor _ _ mod 256).
    replace (done ++ x :: 0 :: 0 :: replicate (List.length rest) 0)
      with ((done ++ [x]) ++ 0 :: 0 :: replicate (List.length rest) 0)
      by (by rewrite <- app_assoc).
    replace (List.length done + 1)%nat with (List.length (done ++ [x]))
      by (rewrite length_app; simpl; lia).
    rewrite store_here.
    set (y := Z.lor _ _ mod 256).
    replace ((done ++ [x]) ++ y :: 0 :: replicate (List.length rest) 0)
      with ((done ++ [x; y]) ++ 0 :: replicate (List.length rest) 0)
      by (by rewrite <- !app_assoc).
    replace (List.length done + 2)%nat with (List.length (done ++ [x; y]))
      by (rewrite length_app; simpl; lia).
    rewrite store_here.
    set (z := Z.lor _ _ mod 256).
    assert (x = a) as -> by (by apply first_byte).
    assert (y = b) as -> by (by apply second_byte).
    assert (z = c) as -> by (by apply third_byte).
    set (group := String (sextet_char (sextet1 a)) (String (sextet_char (sextet2 a b))
      (String (sextet_char (sextet3 b c)) (String (sextet_char (sextet4 c)) "")))).
    replace (String.append pre _)
      with (String.append (String.append pre group) (base64_encode rest))
      by (by rewrite string_app_assoc).
    replace (Z.of_nat (String.length pre) + 4)
      with (Z.of_nat (String.length (String.append pre group)))
      by (rewrite string_length_app; cbn; lia).
    replace (List.length done + 3)%nat with (List.length (done ++ [a; b; c]))
      by (rewrite length_app; simpl; lia).
    replace ((done ++ [a; b]) ++ c :: replicate (List.length rest) 0)
      with ((done ++ [a; b; c]) ++ replicate (List.length rest) 0)
      by (by rewrite <- !app_assoc).
    rewrite IH; [by rewrite <- app_assoc | done | simpl in Hfuel; lia].
Qed.

(** The padding that [bufferLength] counts at the end of the text. *)
Definition padding (base64 : string) : Z :=
  let len := Z.of_nat (String.length base64) in
  if is_eq_sign (char_at base64 (len - 1)) then
    if is_eq_sign (char_at base64 (len - 2)) then 2 else 1
  else 0.

Lemma bufferLength_padding base64 :
  bufferLength base64
  = Z.to_nat (Z.quot (3 * Z.of_nat (String.length base64) - 4 * padding base64) 4).
Proof. reflexivity. Qed.

Lemma char_at_tail c s k :
  0 ≤ k → char_at (String c s) (k + 1) = char_at s k.
Proof.
  intros Hk. unfold char_at.
  rewrite (proj2 (Z.ltb_ge _ _)) by lia. rewrite (proj2 (Z.ltb_ge _ _)) by lia.
  replace (Z.to_nat (k + 1)) with (S (Z.to_nat k)) by lia. done.
Qed.

Lemma padding_tail c s :
  (2 ≤ String.length s)%nat → padding (String c s) = padding s.
Proof.
  intros Hs. unfold padding. cbv zeta. cbn [String.length].
  replace (Z.of_nat (S (String.length s)) - 1)
    with (Z.of_nat (String.length s) - 1 + 1) by lia.
  replace (Z.of_nat (S (String.length s)) - 2)
    with (Z.of_nat (String.length s) - 2 + 1) by lia.
  by rewrite !char_at_tail by lia.
Qed.

(** The length of the encoding and its padding give the number of
    bytes. *)
Lemma base64_encode_length bytes :
  Forall is_byte bytes →
  3 * Z.of_nat (String.length (base64_encode bytes)) - 4 * padding (base64_encode bytes)
  = 4 * Z.of_nat (List.length bytes) ∧
  0 ≤ padding (base64_encode bytes) ∧
  (bytes ≠ [] → (4 ≤ String.length (base64_encode bytes))%nat).
Proof.
  induction bytes as [|a|a b|a b c rest IH] using by_threes; intros Hb.
  - done.
  - split; [done|]. split; [done|]. intros _. simpl. lia.
  - apply Forall_cons in Hb as [Ha Hb]. apply Forall_cons in Hb as [Hb _].
    assert (is_byte 0) as H0 by (unfold is_byte; lia).
    unfold padding. cbn [base64_encode String.length]. cbv zeta.
    change (char_at _ (Z.of_nat 4 - 1)) with (Some "="%char).
    change (char_at _ (Z.of_nat 4 - 2)) with (Some (sextet_char (sextet3 b 0))).
    rewrite sextet3_not_padding by done. cbn [is_eq_sign Ascii.eqb].
    split; [done|]. split; [done|]. intros _. lia.
  - apply Forall_cons in Hb as [Ha Hb]. apply Forall_cons in Hb as [Hb Hc].
    apply Forall_cons in Hc as [Hc Hrest].
    destruct (IH Hrest) as (Hlen & Hpad & Hlong).
    destruct rest as [|d rest].
    + unfold padding. cbn [base64_encode String.length]. cbv zeta.
      change (char_at _ (Z.of_nat 4 - 1)) with (Some (sextet_char (sextet4 c))).
      rewrite sextet4_not_padding by done.
      split; [done|]. split; [done|]. intros _. lia.
    + assert (4 ≤ String.length (base64_encode (d :: rest)))%nat as Hfour
        by (by apply Hlong).
      set (s := base64_encode (d :: rest)) in *.
      change (base64_encode (a :: b :: c :: d :: rest))
        with (String (sextet_char (sextet1 a)) (String (sextet_char (sextet2 a b))
                (String (sextet_char (sextet3 b c)) (String (sextet_char (sextet4 c)) s)))).
      rewrite !padding_tail by (cbn [String.length]; lia).
      cbn [String.length].
      change (List.length (a :: b :: c :: d :: rest))
        with (S (S (S (List.length (d :: rest))))).
      split; [lia|]. split; [done|]. lia.
Qed.

(** X27. The decoder is right on every standard encoding, padded or not: the
    bytes decoded from the encoding of a list of bytes are that list. *)
Theorem base64_decodes_standard_encoding bytes w :
  Forall is_byte bytes →
  base64_bytes (base64_encode bytes) = bytes ∧
  base64ToArrayBuffer (VStr (base64_encode bytes)) w = (Ok bytes, w).
Proof.
  intros Hb. cut (base64_bytes (base64_encode bytes) = bytes).
  { intros Heq. split; [done|]. unfold base64ToArrayBuffer. by rewrite Heq. }
  destruct (base64_encode_length bytes Hb) as (Hlen & Hpad & _).
  unfold base64_bytes. rewrite bufferLength_padding, Hlen.
  replace (Z.to_nat (Z.quot (4 * Z.of_nat (List.length bytes)) 4))
    with (List.length bytes).
  2: { rewrite Z.mul_comm, Z.quot_mul by lia. lia. }
  apply (decode_loop_encoded bytes Hb (String.length (base64_encode bytes)) "" []).
  lia.
Qed.

Lemma base64_decodes_standard_encoding_witness :
  base64_bytes (base64_encode [77; 97; 110; 33]) = [77; 97; 110; 33].
Proof.
  apply (base64_decodes_standard_encoding [77; 97; 110; 33] empty_state_world).
  repeat constructor; unfold is_byte; lia.
Defined.
